(** * godx: Merkle diff-proof engine, upload/download negotiation, lucky wheel

    A shallow embedding of the Go sources of the storage core
    (package [merkle], [hostnegotiation], [storageclient], [storagehost])
    and of the lucky-wheel selector of package [dpos], with the
    properties the specification states about them.

    Conventions.
    - A Go [uint64] is a [Z] in [0, 2^64); additions and subtractions
      on it are written with [wrap64].  A Go [int] is a 64-bit signed
      integer, [toInt64] is the conversion that wraps.
    - A Go [[]byte] is a [list byte]; the nil slice and the empty slice
      are both [[]] (the code only hashes slices and compares them with
      [bytes.Equal], which do not tell them apart).
    - Functions that return [(value, error)] return a [result]; an
      index out of range or an explicit [panic] is the outcome [Panic].
    - Loops whose iteration count is not bounded by the data they
      walk take a [fuel : nat]; [None] means the fuel ran out. *)

From Stdlib Require Import ZArith List Bool Lia.
From Stdlib Require Import Strings.Byte.
Import ListNotations.
Local Open Scope Z_scope.

(** ** Machine integers *)

Module Go.

Definition two64 : Z := 2 ^ 64.
Definition two63 : Z := 2 ^ 63.

(** math.MaxUint64 *)
Definition MaxUint64 : Z := two64 - 1.

(** Arithmetic on [uint64] wraps modulo 2^64. *)
Definition wrap64 (z : Z) : Z := z mod two64.

(** Conversion to the signed 64-bit [int]. *)
Definition toInt64 (z : Z) : Z := (z + two63) mod two64 - two63.

(** Number of trailing zero bits of a positive binary numeral. *)
Fixpoint tz_pos (p : positive) : Z :=
  match p with
  | xO q => 1 + tz_pos q
  | _ => 0
  end.

(** bits.TrailingZeros64: the result is 64 for x = 0. *)
Definition TrailingZeros64 (x : Z) : Z :=
  match x with
  | Zpos p => tz_pos p
  | _ => 64
  end.

(** bits.Len64: the number of bits needed to write x; 0 for x = 0. *)
Definition Len64 (x : Z) : Z :=
  match x with
  | Zpos _ => Z.log2 x + 1
  | _ => 0
  end.

(** The Go expression [1 << uint(k)] at type [int].  A negative [k]
    converts to a huge [uint], and a shift count of 64 or more gives 0;
    a count of 63 reaches the sign bit. *)
Definition shl1 (k : Z) : Z :=
  if (0 <=? k) && (k <? 64) then toInt64 (2 ^ k) else 0.

End Go.

Import Go.

(** ** The outcome of a call *)

Inductive error : Type :=
| EOF                    (* io.EOF *)
| ErrUnexpectedEOF       (* io.ErrUnexpectedEOF *)
| ErrInvalidParameter    (* errors.New("the parameter is invalid") *)
| ErrSubtreeTooLarge     (* PushSubTree: larger than the smallest subtree *)
| ErrIllegalOffsetLength (* errors.New("illegal offset and/or length") *)
| ErrNotSegmentAligned   (* "offset and length must be multiples of SegmentSize ..." *)
| ErrUnknownAction       (* "failed to parse the upload action, unknown upload action type" *)
| ErrOther (code : Z).   (* any other error value *)

Inductive result (A : Type) : Type :=
| Ok (a : A)
| Err (e : error)
| Panic.
Arguments Ok {A} a.
Arguments Err {A} e.
Arguments Panic {A}.

Definition bytes : Type := list byte.

Definition bytes_eqb (a b : bytes) : bool :=
  if list_eq_dec Byte.byte_eq_dec a b then true else false.

(** ** Package merkle: subtree limits *)

Record SubTreeLimit : Type := mkLimit { Left : Z; Right : Z }.

(** adjacentSubtreeSize get the size of the adjacent subtree *)
Definition adjacentSubtreeSize (left right : Z) : Z :=
  let leftInt := TrailingZeros64 left in
  let max := Len64 (wrap64 (right - left)) - 1 in
  if leftInt >? max then shl1 max else shl1 leftInt.

(** The loop
      [for leafIndex != end { s := adjacentSubtreeSize(leafIndex, end);
                              ...; leafIndex += uint64(s) }]
    of [consumeUntil], recording the subtrees [(start, size)] it visits. *)
Fixpoint subtreeCover (fuel : nat) (leafIndex end_ : Z) : option (list (Z * Z)) :=
  match fuel with
  | O => None
  | S f =>
      if leafIndex =? end_ then Some []
      else
        let subtreeSize := adjacentSubtreeSize leafIndex end_ in
        match subtreeCover f (wrap64 (leafIndex + wrap64 subtreeSize)) end_ with
        | Some l => Some ((leafIndex, subtreeSize) :: l)
        | None => None
        end
  end.

(** checkLimitList check parameter legality *)
Fixpoint checkLimitListFrom (prev : option SubTreeLimit) (limits : list SubTreeLimit) : bool :=
  match limits with
  | [] => true
  | r :: rest =>
      if (Left r <? 0) || (Left r >=? Right r) then false
      else
        match prev with
        | Some p => if Right p >? Left r then false else checkLimitListFrom (Some r) rest
        | None => checkLimitListFrom (Some r) rest
        end
  end.

Definition checkLimitList (limits : list SubTreeLimit) : bool :=
  checkLimitListFrom None limits.

(** ** Package merkle: the tree

    The Merkle [Tree] type of package merkle ([NewTree], [PushLeaf],
    [PushSubTree], [Root], [leafTotal], [nodeTotal]) is not among the
    sources; the definitions of this part follow the specification.
    It has the verifier insert "proof hashes as whole subtrees at their
    implied height" and "leaf hashes one at a time", and has
    [GetSubtreeRoot] return "the Merkle root of the complete binary
    subtree" of the leaves pushed.  The tree is therefore the usual
    stack of complete subtrees: the top of the stack is the smallest
    and most recent subtree, two subtrees of equal height are joined
    into their parent as soon as they meet, a subtree higher than the
    current top is refused, and the root joins what is left on the
    stack from the top down. *)

(** Modelled from the spec: the hash the tree is built with ([hash.Hash]
    in the source), as the hash of a leaf and the hash of two children. *)
Class Hasher : Type := {
  leafTotal : bytes -> bytes;           (* hash of a leaf's data *)
  nodeTotal : bytes -> bytes -> bytes   (* hash of two children, left then right *)
}.

(** Modelled from the spec: a complete subtree, its height and its root
    hash. *)
Record subTree : Type := mkSubTree { height : Z; sum : bytes }.

(** Modelled from the spec: the tree is the stack of its subtrees,
    smallest (top) first. *)
Definition Tree : Type := list subTree.

Section MerkleTree.
Context {H : Hasher}.

(** Modelled from the spec: a new tree holds no subtree. *)
Definition NewTree : Tree := [].

(** Modelled from the spec: [joinSubTrees a b] is the parent of [a]
    (left) and [b] (right). *)
Definition joinSubTrees (a b : subTree) : subTree :=
  mkSubTree (height a + 1) (nodeTotal (sum a) (sum b)).

(** Modelled from the spec: the new top is joined with the subtrees
    below it while heights agree. *)
Fixpoint joinAllSubTrees (top : subTree) (next : Tree) : Tree :=
  match next with
  | [] => [top]
  | n :: rest =>
      if height top =? height n
      then joinAllSubTrees (joinSubTrees n top) rest
      else top :: next
  end.

(** Modelled from the spec: [PushSubTree] inserts a whole subtree of
    height [h] with root hash [s]; it is refused when it is higher than
    the smallest subtree of the tree. *)
Definition PushSubTree (h : Z) (s : bytes) (t : Tree) : result Tree :=
  match t with
  | top :: _ =>
      if h >? height top then Err ErrSubtreeTooLarge
      else Ok (joinAllSubTrees (mkSubTree h s) t)
  | [] => Ok (joinAllSubTrees (mkSubTree h s) t)
  end.

(** Modelled from the spec: [PushLeaf] inserts the hash of one leaf. *)
Definition PushLeaf (data : bytes) (t : Tree) : Tree :=
  joinAllSubTrees (mkSubTree 0 (leafTotal data)) t.

(** Modelled from the spec: [Root] joins the subtrees from the top
    down; [None] is the nil slice of an empty tree. *)
Definition Root (t : Tree) : option bytes :=
  match t with
  | [] => None
  | top :: rest => Some (fold_left (fun cur n => nodeTotal (sum n) cur) rest (sum top))
  end.

(** A [[]byte] result that may be nil. *)
Definition orNil (o : option bytes) : bytes :=
  match o with Some b => b | None => [] end.

(** ** Leaf sources for proof construction: interface [SubtreeRoot] *)

Class SubtreeRoot (S : Type) : Type := {
  (* GetSubtreeRoot get the root hash of the subtree of n leaf node combinations *)
  GetSubtreeRoot : Z -> S -> result bytes * S;
  (* Skip skip the subtree of n leaf node combinations *)
  Skip : Z -> S -> result unit * S
}.

(** *** CachedSubtreeRoot: precomputed leaf roots *)

Record CachedSubtreeRoot : Type := mkCached { leafRoots : list bytes }.

(** The loop [for i := 0; i < leafIndex && len(csh.leafRoots) > 0; i++]. *)
Fixpoint cachedLoop (i leafIndex : Z) (roots : list bytes) (tree : Tree)
  : result Tree * list bytes :=
  match roots with
  | [] => (Ok tree, roots)
  | r :: rest =>
      if i <? leafIndex then
        match PushSubTree 0 r tree with
        | Ok tree' => cachedLoop (i + 1) leafIndex rest tree'
        | Err e => (Err e, roots)
        | Panic => (Panic, roots)
        end
      else (Ok tree, roots)
  end.

Definition Cached_GetSubtreeRoot (leafIndex : Z) (csh : CachedSubtreeRoot)
  : result bytes * CachedSubtreeRoot :=
  match leafRoots csh with
  | [] => (Err EOF, csh)
  | _ =>
      match cachedLoop 0 leafIndex (leafRoots csh) NewTree with
      | (Ok tree, roots) => (Ok (orNil (Root tree)), mkCached roots)
      | (Err e, roots) => (Err e, mkCached roots)
      | (Panic, roots) => (Panic, mkCached roots)
      end
  end.

(** [csh.leafRoots[n:]] panics for a negative [n]. *)
Definition Cached_Skip (n : Z) (csh : CachedSubtreeRoot)
  : result unit * CachedSubtreeRoot :=
  if n >? Z.of_nat (length (leafRoots csh)) then (Err ErrUnexpectedEOF, csh)
  else if n <? 0 then (Panic, csh)
  else (Ok tt, mkCached (skipn (Z.to_nat n) (leafRoots csh))).

#[export] Instance CachedSubtreeRoot_SubtreeRoot : SubtreeRoot CachedSubtreeRoot := {
  GetSubtreeRoot := Cached_GetSubtreeRoot;
  Skip := Cached_Skip
}.

(** *** SubtreeRootReader: leaves read from a stream

    The reader [r] is an in-memory stream (the bytes not yet read), so
    the only errors it gives are [io.EOF] and [io.ErrUnexpectedEOF];
    [leafSize] is [len(rsh.leaf)]. *)

Record SubtreeRootReader : Type := mkReader { r : bytes; leafSize : nat }.

(** io.ReadFull(r, buf) with [len(buf) = size]: the bytes read, the
    error, and the rest of the stream. *)
Definition ReadFull (size : nat) (data : bytes) : bytes * option error * bytes :=
  let got := firstn size data in
  let rest := skipn size data in
  if (length got =? size)%nat then (got, None, rest)
  else if (length got =? 0)%nat then (got, Some EOF, rest)
  else (got, Some ErrUnexpectedEOF, rest).

(** The loop [for i := 0; i < leafIndex; i++] of the reader.  An
    iteration that does not break reads a whole leaf, so the loop takes
    at most one step more than there are bytes when [size > 0]; with
    [size = 0] every iteration reads nothing and changes nothing. *)
Fixpoint readerLoop (fuel : nat) (i leafIndex : Z) (size : nat) (data : bytes) (tree : Tree)
  : Tree * bytes :=
  match fuel with
  | O => (tree, data)
  | S f =>
      if i <? leafIndex then
        let '(got, err, rest) := ReadFull size data in
        let tree' := match got with [] => tree | _ => PushLeaf got tree end in
        match err with
        | Some _ => (tree', rest)
        | None => readerLoop f (i + 1) leafIndex size rest tree'
        end
      else (tree, data)
  end.

Definition Reader_GetSubtreeRoot (leafIndex : Z) (rsh : SubtreeRootReader)
  : result bytes * SubtreeRootReader :=
  let '(tree, rest) :=
    match leafSize rsh with
    | O => (NewTree, r rsh)
    | _ => readerLoop (S (length (r rsh))) 0 leafIndex (leafSize rsh) (r rsh) NewTree
    end in
  match Root tree with
  | None => (Err EOF, mkReader rest (leafSize rsh))
  | Some root => (Ok root, mkReader rest (leafSize rsh))
  end.

(** io.CopyN(ioutil.Discard, r, skipSize): a negative count copies
    nothing; a short stream is emptied and gives [io.EOF]. *)
Definition Reader_Skip (n : Z) (rsh : SubtreeRootReader)
  : result unit * SubtreeRootReader :=
  let skipSize := toInt64 (Z.of_nat (leafSize rsh) * n) in
  if skipSize <=? 0 then (Ok tt, rsh)
  else if skipSize <=? Z.of_nat (length (r rsh))
  then (Ok tt, mkReader (skipn (Z.to_nat skipSize) (r rsh)) (leafSize rsh))
  else (Err ErrUnexpectedEOF, mkReader [] (leafSize rsh)).

#[export] Instance SubtreeRootReader_SubtreeRoot : SubtreeRoot SubtreeRootReader := {
  GetSubtreeRoot := Reader_GetSubtreeRoot;
  Skip := Reader_Skip
}.

End MerkleTree.

(** ** Leaf sources for proof verification: interface [LeafRoot] *)

Class LeafRoot (L : Type) : Type := {
  (* GetLeafRoot get the hash of the leaf node *)
  GetLeafRoot : L -> result bytes * L
}.

(** LeafRootCached roots *)
Record LeafRootCached : Type := mkLeafCached { cachedLeafRoots : list bytes }.

Definition LeafCached_GetLeafRoot (clh : LeafRootCached) : result bytes * LeafRootCached :=
  match cachedLeafRoots clh with
  | [] => (Err EOF, clh)
  | h :: rest => (Ok h, mkLeafCached rest)
  end.

#[export] Instance LeafRootCached_LeafRoot : LeafRoot LeafRootCached := {
  GetLeafRoot := LeafCached_GetLeafRoot
}.

(** LeafRootReader read *)
Record LeafRootReader : Type := mkLeafReader { lr : bytes; lrLeafSize : nat }.

Section LeafReader.
Context {H : Hasher}.

Definition LeafReader_GetLeafRoot (rlh : LeafRootReader) : result bytes * LeafRootReader :=
  let '(got, _, rest) := ReadFull (lrLeafSize rlh) (lr rlh) in
  match got with
  | [] => (Err EOF, mkLeafReader rest (lrLeafSize rlh))
  | _ => (Ok (leafTotal got), mkLeafReader rest (lrLeafSize rlh))
  end.

#[export] Instance LeafRootReader_LeafRoot : LeafRoot LeafRootReader := {
  GetLeafRoot := LeafReader_GetLeafRoot
}.

End LeafReader.

(** ** Diff-proof construction and verification *)

Section DiffProof.
Context {H : Hasher}.

Section Construction.
Context {S : Type} {SR : SubtreeRoot S}.

(** The closure [consumeUntil] of [getLimitStorageProof]; it works on
    the captured [leafIndex] and [storageProofList] and on the source. *)
Fixpoint consumeUntil (fuel : nat) (end_ leafIndex : Z) (storageProofList : list bytes) (sr : S)
  : option (result unit * (Z * list bytes * S)) :=
  match fuel with
  | O => None
  | Datatypes.S f =>
      if leafIndex =? end_ then Some (Ok tt, (leafIndex, storageProofList, sr))
      else
        let subtreeSize := adjacentSubtreeSize leafIndex end_ in
        match GetSubtreeRoot subtreeSize sr with
        | (Ok root, sr') =>
            consumeUntil f end_ (wrap64 (leafIndex + wrap64 subtreeSize))
                         (storageProofList ++ [root]) sr'
        | (Err e, sr') => Some (Err e, (leafIndex, storageProofList, sr'))
        | (Panic, sr') => Some (Panic, (leafIndex, storageProofList, sr'))
        end
  end.

(** The loop [for _, r := range limits] of [getLimitStorageProof]. *)
Fixpoint proofOverLimits (fuel : nat) (limits : list SubTreeLimit)
         (leafIndex : Z) (storageProofList : list bytes) (sr : S)
  : option (result unit * (Z * list bytes * S)) :=
  match limits with
  | [] => Some (Ok tt, (leafIndex, storageProofList, sr))
  | r :: rest =>
      match consumeUntil fuel (Left r) leafIndex storageProofList sr with
      | None => None
      | Some (Ok _, (leafIndex1, proof1, sr1)) =>
          match Skip (toInt64 (wrap64 (Right r - Left r))) sr1 with
          | (Ok _, sr2) =>
              proofOverLimits fuel rest (wrap64 (leafIndex1 + wrap64 (Right r - Left r))) proof1 sr2
          | (Err e, sr2) => Some (Err e, (leafIndex1, proof1, sr2))
          | (Panic, sr2) => Some (Panic, (leafIndex1, proof1, sr2))
          end
      | Some (Err e, st) => Some (Err e, st)
      | Some (Panic, st) => Some (Panic, st)
      end
  end.

(** getLimitStorageProof get a proof of storage for a limit of subtrees.
    The result comes with the leaf source as the call leaves it. *)
Definition getLimitStorageProof (fuel : nat) (limits : list SubTreeLimit) (sr : S)
  : option (result (list bytes) * S) :=
  match limits with
  | [] => Some (Ok [], sr)
  | _ =>
      if negb (checkLimitList limits) then Some (Err ErrInvalidParameter, sr)
      else
        match proofOverLimits fuel limits 0 [] sr with
        | None => None
        | Some (Ok _, (leafIndex, proof, sr1)) =>
            (* always check the leafIndex of the tree *)
            match consumeUntil fuel MaxUint64 leafIndex proof sr1 with
            | None => None
            | Some (Ok _, (_, proof2, sr2)) => Some (Ok proof2, sr2)
            | Some (Err EOF, (_, proof2, sr2)) => Some (Ok proof2, sr2)
            | Some (Err e, (_, _, sr2)) => Some (Err e, sr2)
            | Some (Panic, (_, _, sr2)) => Some (Panic, sr2)
            end
        | Some (Err e, (_, _, sr1)) => Some (Err e, sr1)
        | Some (Panic, (_, _, sr1)) => Some (Panic, sr1)
        end
  end.

(** GetLimitStorageProof get a proof of storage for a limit of subtrees *)
Definition GetLimitStorageProof (fuel : nat) (left right : Z) (h : S)
  : option (result (list bytes) * S) :=
  if (left <? 0) || (left >? right) || (left =? right)
  then Some (Err ErrInvalidParameter, h)
  else getLimitStorageProof fuel [mkLimit (wrap64 left) (wrap64 right)] h.

End Construction.

Section Verification.
Context {L : Type} {LR : LeafRoot L}.

(** The closure [consumeUntil] of [checkLimitStorageProof]; every
    iteration takes one hash off [storageProofList]. *)
Fixpoint checkConsumeUntil (end_ leafIndex : Z) (tree : Tree) (storageProofList : list bytes)
  : result unit * (Z * Tree * list bytes) :=
  match storageProofList with
  | [] => (Ok tt, (leafIndex, tree, storageProofList))
  | p :: rest =>
      if leafIndex =? end_ then (Ok tt, (leafIndex, tree, storageProofList))
      else
        let subtreeSize := adjacentSubtreeSize leafIndex end_ in
        let i := TrailingZeros64 (wrap64 subtreeSize) in
        match PushSubTree i p tree with
        | Ok tree' =>
            checkConsumeUntil end_ (wrap64 (leafIndex + wrap64 subtreeSize)) tree' rest
        | Err e => (Err e, (leafIndex, tree, storageProofList))
        | Panic => (Panic, (leafIndex, tree, storageProofList))
        end
  end.

(** The loop [for i := r.Left; i < r.Right; i++], [count] iterations. *)
Fixpoint pushLeafHashes (count : nat) (lh : L) (tree : Tree) : result Tree * L :=
  match count with
  | O => (Ok tree, lh)
  | Datatypes.S c =>
      match GetLeafRoot lh with
      | (Ok leafHash, lh') =>
          match PushSubTree 0 leafHash tree with
          | Ok tree' => pushLeafHashes c lh' tree'
          | _ => (Panic, lh')
          end
      | (Err e, lh') => (Err e, lh')
      | (Panic, lh') => (Panic, lh')
      end
  end.

(** The loop [for _, r := range limits] of [checkLimitStorageProof]. *)
Fixpoint checkOverLimits (limits : list SubTreeLimit) (lh : L)
         (leafIndex : Z) (tree : Tree) (storageProofList : list bytes)
  : result (Z * Tree * list bytes) :=
  match limits with
  | [] => Ok (leafIndex, tree, storageProofList)
  | r :: rest =>
      match checkConsumeUntil (Left r) leafIndex tree storageProofList with
      | (Ok _, (leafIndex1, tree1, proof1)) =>
          match pushLeafHashes (Z.to_nat (Right r - Left r)) lh tree1 with
          | (Ok tree2, lh2) =>
              checkOverLimits rest lh2 (wrap64 (leafIndex1 + wrap64 (Right r - Left r))) tree2 proof1
          | (Err e, _) => Err e
          | (Panic, _) => Panic
          end
      | (Err e, _) => Err e
      | (Panic, _) => Panic
      end
  end.

(** checkLimitStorageProof; [Err e] stands for the pair [(false, e)]. *)
Definition checkLimitStorageProof (lh : L) (limits : list SubTreeLimit)
           (storageProofList : list bytes) (root : bytes) : result bool :=
  match limits with
  | [] => Ok true
  | _ =>
      if negb (checkLimitList limits) then Err ErrInvalidParameter
      else
        match checkOverLimits limits lh 0 NewTree storageProofList with
        | Ok (leafIndex, tree, proof) =>
            match checkConsumeUntil MaxUint64 leafIndex tree proof with
            | (Ok _, (_, tree', _)) => Ok (bytes_eqb (orNil (Root tree')) root)
            | (Err e, _) => Err e
            | (Panic, _) => Panic
            end
        | Err e => Err e
        | Panic => Panic
        end
  end.

(** CheckLimitStorageProof check the proof list *)
Definition CheckLimitStorageProof (lh : L) (left right : Z)
           (storageProofList : list bytes) (root : bytes) : result bool :=
  if (left <? 0) || (left >? right) || (left =? right)
  then Err ErrInvalidParameter
  else checkLimitStorageProof lh [mkLimit (wrap64 left) (wrap64 right)] storageProofList root.

End Verification.

(** The Merkle root of a whole leaf sequence: every leaf hash pushed
    as a subtree of height 0, as the cached source does. *)
Definition pushAll (t : Tree) (leaves : list bytes) : Tree :=
  fold_left (fun t l => joinAllSubTrees (mkSubTree 0 l) t) leaves t.

Definition merkleRoot (leaves : list bytes) : bytes :=
  orNil (Root (pushAll NewTree leaves)).

(** The leaf hashes of the excluded ranges, which the prover hands to
    the verifier next to the proof. *)
Definition claimedLeaves (limits : list SubTreeLimit) (leaves : list bytes) : list bytes :=
  flat_map (fun r => firstn (Z.to_nat (Right r - Left r)) (skipn (Z.to_nat (Left r)) leaves)) limits.

End DiffProof.

(** ** Package types: contracts and revisions *)

Definition Address : Type := Z.

Record DxcoinCharge : Type := mkCharge { Address_ : Address; Value : Z }.

Record StorageContractRevision : Type := mkRevision {
  ParentID : bytes;
  NewRevisionNumber : Z;
  NewFileSize : Z;
  NewFileMerkleRoot : bytes;
  NewWindowStart : Z;
  NewWindowEnd : Z;
  NewValidProofOutputs : list DxcoinCharge;
  NewMissedProofOutputs : list DxcoinCharge;
  NewUnlockHash : bytes;
  RevSignatures : list bytes
}.

Record StorageContract : Type := mkContract {
  FileSize : Z;
  FileMerkleRoot : bytes;
  WindowStart : Z;
  WindowEnd : Z;
  ValidProofOutputs : list DxcoinCharge;
  MissedProofOutputs : list DxcoinCharge;
  RevisionNumber : Z;
  Signatures : list bytes
}.

(** [s[i] = v] on a slice: out of range is a run-time panic. *)
Definition setIndex {A : Type} (s : list A) (i : nat) (v : A) : result (list A) :=
  if (i <? length s)%nat then Ok (firstn i s ++ v :: skipn (Datatypes.S i) s) else Panic.

(** [s[i]] on a slice. *)
Definition getIndex {A : Type} (s : list A) (i : nat) : result A :=
  match nth_error s i with Some v => Ok v | None => Panic end.

(** ** Package hostnegotiation: the upload handler *)

Inductive UploadActionType : Type :=
| UploadActionAppend
| UploadActionUnknown (name : Z).

Record UploadAction : Type := mkAction { Type_ : UploadActionType; Data : bytes }.

Record UploadRequest : Type := mkUploadRequest {
  StorageContractID : bytes;
  Actions : list UploadAction;
  ReqNewRevisionNumber : Z;
  NewValidProofValues : list Z;
  NewMissedProofValues : list Z
}.

Record StorageResponsibility : Type := mkSr {
  SectorRoots : list bytes;
  StorageContractRevisions : list StorageContractRevision
}.

Record uploadNegotiationData : Type := mkNd {
  newRoots : list bytes;
  sectorsChanged : list Z;       (* the keys of map[uint64]struct{} *)
  bandwidthRevenue : Z;
  sectorGained : list bytes;
  gainedSectorData : list bytes;
  newMerkleRoot : bytes
}.

(** var nd uploadNegotiationData *)
Definition zeroNd : uploadNegotiationData := mkNd [] [] 0 [] [] [].

(** m[k] = struct{}{} *)
Definition setKey (k : Z) (m : list Z) : list Z :=
  if existsb (Z.eqb k) m then m else m ++ [k].

Section UploadHandler.
Context {H : Hasher}.

(** storage.SectorSize, a [uint64] constant that is not among the sources. *)
Variable SectorSize : Z.

(** merkle.Sha256MerkleTreeRoot, the Merkle root of a sector's data;
    the function is not among the sources and is left open. *)
Variable Sha256MerkleTreeRoot : bytes -> bytes.

(** Modelled from the spec: merkle.Sha256CachedTreeRoot2 is not among
    the sources.  The spec's sector-root sequence "is the leaf set of
    the file's outer Merkle tree; its root is FileMerkleRoot": the root
    of the tree that has the given roots as its leaves. *)
Definition Sha256CachedTreeRoot2 (roots : list bytes) : bytes := merkleRoot roots.

(** calcHostRevenue and uploadRevisionValidation are called by
    [constructAndVerifyNewRevision] and are not among the sources. *)
Variable calcHostRevenue : uploadNegotiationData -> StorageResponsibility -> Z -> Z.
Variable uploadRevisionValidation :
  StorageResponsibility -> StorageContractRevision -> Z -> Z -> option error.

(** handleUploadAppendType will handle the upload action with the type UploadAppendAction *)
Definition handleUploadAppendType (action : UploadAction) (nd : uploadNegotiationData)
           (uploadBandwidthPrice : Z) : uploadNegotiationData :=
  let newRoot := Sha256MerkleTreeRoot (Data action) in
  let roots := newRoots nd ++ [newRoot] in
  mkNd roots
       (setKey (wrap64 (Z.of_nat (length roots) - 1)) (sectorsChanged nd))
       (bandwidthRevenue nd + uploadBandwidthPrice * SectorSize)
       (sectorGained nd ++ [newRoot])
       (gainedSectorData nd ++ [Data action])
       (newMerkleRoot nd).

(** The loop over the actions of [parseAndHandleUploadActions]. *)
Fixpoint handleActions (actions : list UploadAction) (nd : uploadNegotiationData)
         (uploadBandwidthPrice : Z) : result uploadNegotiationData :=
  match actions with
  | [] => Ok nd
  | action :: rest =>
      match Type_ action with
      | UploadActionAppend =>
          handleActions rest (handleUploadAppendType action nd uploadBandwidthPrice)
                        uploadBandwidthPrice
      | UploadActionUnknown _ => Err ErrUnknownAction
      end
  end.

(** parseAndHandleUploadActions *)
Definition parseAndHandleUploadActions (uploadReq : UploadRequest) (nd : uploadNegotiationData)
           (sr : StorageResponsibility) (uploadBandwidthPrice : Z) : result uploadNegotiationData :=
  let nd0 := mkNd (newRoots nd ++ SectorRoots sr) [] (bandwidthRevenue nd)
                  (sectorGained nd) (gainedSectorData nd) (newMerkleRoot nd) in
  handleActions (Actions uploadReq) nd0 uploadBandwidthPrice.

Definition setFileSize (rev : StorageContractRevision) (size : Z) : StorageContractRevision :=
  mkRevision (ParentID rev) (NewRevisionNumber rev) size (NewFileMerkleRoot rev)
             (NewWindowStart rev) (NewWindowEnd rev) (NewValidProofOutputs rev)
             (NewMissedProofOutputs rev) (NewUnlockHash rev) (RevSignatures rev).

Definition setRevisionNumber (rev : StorageContractRevision) (n : Z) : StorageContractRevision :=
  mkRevision (ParentID rev) n (NewFileSize rev) (NewFileMerkleRoot rev)
             (NewWindowStart rev) (NewWindowEnd rev) (NewValidProofOutputs rev)
             (NewMissedProofOutputs rev) (NewUnlockHash rev) (RevSignatures rev).

Definition setFileMerkleRoot (rev : StorageContractRevision) (root : bytes) : StorageContractRevision :=
  mkRevision (ParentID rev) (NewRevisionNumber rev) (NewFileSize rev) root
             (NewWindowStart rev) (NewWindowEnd rev) (NewValidProofOutputs rev)
             (NewMissedProofOutputs rev) (NewUnlockHash rev) (RevSignatures rev).

Definition setValidProofOutputs (rev : StorageContractRevision) (o : list DxcoinCharge)
  : StorageContractRevision :=
  mkRevision (ParentID rev) (NewRevisionNumber rev) (NewFileSize rev) (NewFileMerkleRoot rev)
             (NewWindowStart rev) (NewWindowEnd rev) o
             (NewMissedProofOutputs rev) (NewUnlockHash rev) (RevSignatures rev).

Definition setMissedProofOutputs (rev : StorageContractRevision) (o : list DxcoinCharge)
  : StorageContractRevision :=
  mkRevision (ParentID rev) (NewRevisionNumber rev) (NewFileSize rev) (NewFileMerkleRoot rev)
             (NewWindowStart rev) (NewWindowEnd rev) (NewValidProofOutputs rev)
             o (NewUnlockHash rev) (RevSignatures rev).

(** updateRevisionFileSize: one SectorSize per append action. *)
Fixpoint updateRevisionFileSizeLoop (actions : list UploadAction) (size : Z) : Z :=
  match actions with
  | [] => size
  | action :: rest =>
      match Type_ action with
      | UploadActionAppend => updateRevisionFileSizeLoop rest (wrap64 (size + SectorSize))
      | UploadActionUnknown _ => updateRevisionFileSizeLoop rest size
      end
  end.

Definition updateRevisionFileSize (newRev : StorageContractRevision) (uploadReq : UploadRequest)
  : StorageContractRevision :=
  setFileSize newRev (updateRevisionFileSizeLoop (Actions uploadReq) (NewFileSize newRev)).

(** calcAndUpdateRevisionMerkleRoot *)
Definition calcAndUpdateRevisionMerkleRoot (nd : uploadNegotiationData)
           (newRev : StorageContractRevision) : uploadNegotiationData * StorageContractRevision :=
  let root := Sha256CachedTreeRoot2 (newRoots nd) in
  (mkNd (newRoots nd) (sectorsChanged nd) (bandwidthRevenue nd) (sectorGained nd)
        (gainedSectorData nd) root,
   setFileMerkleRoot newRev root).

(** One loop of [updateRevisionMissedAndValidPayback]:
      [for i := range currentRev.NewValidProofOutputs {
         out = append(out, DxcoinCharge{Value: values[i], Address: addrs[i].Address}) }]
    [n] counts the iterations left, [i] is the index. *)
Fixpoint appendPaybacks (n : nat) (i : nat) (values : list Z) (addrs : list DxcoinCharge)
         (out : list DxcoinCharge) : result (list DxcoinCharge) :=
  match n with
  | O => Ok out
  | Datatypes.S m =>
      match getIndex values i, getIndex addrs i with
      | Ok v, Ok a => appendPaybacks m (Datatypes.S i) values addrs (out ++ [mkCharge (Address_ a) v])
      | _, _ => Panic
      end
  end.

(** updateRevisionMissedAndValidPayback will update the new contract
    revision missed and valid proof payback.  Both loops range over
    [currentRev.NewValidProofOutputs] and append to the slices [newRev]
    already holds. *)
Definition updateRevisionMissedAndValidPayback (newRev currentRev : StorageContractRevision)
           (uploadReq : UploadRequest) : result StorageContractRevision :=
  let n := length (NewValidProofOutputs currentRev) in
  match appendPaybacks n 0 (NewValidProofValues uploadReq) (NewValidProofOutputs currentRev)
                       (NewValidProofOutputs newRev) with
  | Ok valid =>
      match appendPaybacks n 0 (NewMissedProofValues uploadReq) (NewMissedProofOutputs currentRev)
                           (NewMissedProofOutputs newRev) with
      | Ok missed => Ok (setMissedProofOutputs (setValidProofOutputs newRev valid) missed)
      | Err e => Err e
      | Panic => Panic
      end
  | Err e => Err e
  | Panic => Panic
  end.

(** constructAndVerifyNewRevision will construct a new storage contract
    revision and verify the new revision. *)
Definition constructAndVerifyNewRevision (blockHeight : Z) (nd : uploadNegotiationData)
           (sr : StorageResponsibility) (uploadReq : UploadRequest)
  : result (StorageContractRevision * uploadNegotiationData) :=
  match getIndex (StorageContractRevisions sr) (length (StorageContractRevisions sr) - 1) with
  | Ok currentRev =>
      let newRev := setRevisionNumber currentRev (ReqNewRevisionNumber uploadReq) in
      let newRev := updateRevisionFileSize newRev uploadReq in
      let '(nd1, newRev) := calcAndUpdateRevisionMerkleRoot nd newRev in
      match updateRevisionMissedAndValidPayback newRev currentRev uploadReq with
      | Ok newRev =>
          let hostRevenue := calcHostRevenue nd1 sr blockHeight in
          (* sr.SectorRoots, nd.newRoots = nd.newRoots, sr.SectorRoots *)
          let srSwapped := mkSr (newRoots nd1) (StorageContractRevisions sr) in
          match uploadRevisionValidation srSwapped newRev blockHeight hostRevenue with
          | Some e => Err e
          | None => Ok (newRev, nd1)
          end
      | Err e => Err e
      | Panic => Panic
      end
  | Err e => Err e
  | Panic => Panic
  end.

End UploadHandler.

(** ** Package storageclient: contract creation *)

(** How a call of the flow ends: it returns (an error or nil), or a
    run-time panic unwinds it. *)
Inductive outcome : Type :=
| Returned (err : option error)
| Panicked.

(** What the collaborators answer during one run of [ContractCreate]:
    the payout computation, the wallet, the session and the ledger. *)
Record CreateEnv : Type := mkCreateEnv {
  renterPayoutsPreTax : result (Z * Z);     (* renterPayout, hostPayout *)
  findWallet : option error;                (* AccountManager().Find *)
  setupConnection : option error;           (* SetupConnection *)
  signContract : result bytes;              (* wallet.SignHash of the contract *)
  sendContractCreation : option error;      (* SendStorageContractCreation *)
  readHostSign : option error;              (* err of the first session.ReadMsg *)
  decodeHostSign : result bytes;            (* msg.Decode(&hostSign) *)
  signRevision : result bytes;              (* wallet.SignHash of the revision *)
  sendClientRevisionSign : option error;    (* SendStorageContractCreationClientRevisionSign *)
  readHostRevisionSign : option error;      (* err of the second session.ReadMsg *)
  decodeHostRevisionSign : result bytes;    (* msg.Decode(&hostRevisionSign) *)
  encodeContract : result bytes;            (* rlp.EncodeToBytes *)
  sendFormContractTX : option error         (* SendFormContractTX *)
}.

Record ContractParams : Type := mkParams {
  clientAddr : Address;
  hostAddr : Address;
  endHeight : Z;
  hostWindowSize : Z
}.

(** A message sent over the session or to the ledger. *)
Inductive sent : Type :=
| SentContractCreation (sign : bytes)
| SentClientRevisionSign (sign : bytes)
| SentContractTX (contract : StorageContract).

Definition setSignatures (c : StorageContract) (s : list bytes) : StorageContract :=
  mkContract (FileSize c) (FileMerkleRoot c) (WindowStart c) (WindowEnd c)
             (ValidProofOutputs c) (MissedProofOutputs c) (RevisionNumber c) s.

(** [return err] after a call that did not succeed: its error is
    returned; a panic in the call unwinds the flow. *)
Definition returnErr {A : Type} (r : result A) : outcome :=
  match r with
  | Err e => Returned (Some e)
  | _ => Panicked
  end.

(** StorageClient.ContractCreate.  The result is how the call ends, the
    messages sent, and the contract submitted as a transaction, if the
    flow got that far. *)
Definition ContractCreate (env : CreateEnv) (params : ContractParams)
  : outcome * list sent * option StorageContract :=
  match renterPayoutsPreTax env with
  | Ok (renterPayout, hostPayout) =>
      (* Create storage contract: the literal sets no Signatures *)
      let storageContract :=
        mkContract 0 [] (endHeight params) (wrap64 (endHeight params + hostWindowSize params))
                   [mkCharge (clientAddr params) renterPayout; mkCharge (hostAddr params) hostPayout]
                   [mkCharge (clientAddr params) renterPayout; mkCharge (hostAddr params) hostPayout]
                   0 [] in
      match findWallet env with
      | Some e => (Returned (Some e), [], None)
      | None =>
      match setupConnection env with
      | Some e => (Returned (Some e), [], None)
      | None =>
      match signContract env with
      | Ok clientContractSign =>
      match sendContractCreation env with
      | Some e => (Returned (Some e), [], None)
      | None =>
          let tr1 := [SentContractCreation clientContractSign] in
          (* if msg, err := session.ReadMsg(); err != nil { decode } else { return err } *)
          match readHostSign env with
          | None => (Returned None, tr1, None)
          | Some _ =>
          match decodeHostSign env with
          | Ok hostSign =>
          (* storageContract.Signatures[1] = hostSign *)
          match setIndex (Signatures storageContract) 1 hostSign with
          | Ok sigs1 =>
          (* storageContract.Signatures[0] = clientContractSign *)
          match setIndex sigs1 0 clientContractSign with
          | Ok sigs0 =>
          let storageContract := setSignatures storageContract sigs0 in
          match signRevision env with
          | Ok clientRevisionSign =>
          match sendClientRevisionSign env with
          | Some e => (Returned (Some e), tr1, None)
          | None =>
              let tr2 := tr1 ++ [SentClientRevisionSign clientRevisionSign] in
              match readHostRevisionSign env with
              | None => (Returned None, tr2, None)
              | Some _ =>
              match decodeHostRevisionSign env with
              | Ok _ =>
              match encodeContract env with
              | Ok _ =>
                  match sendFormContractTX env with
                  | Some e => (Returned (Some e), tr2 ++ [SentContractTX storageContract],
                               Some storageContract)
                  | None => (Returned None, tr2 ++ [SentContractTX storageContract],
                             Some storageContract)
                  end
              | r => (returnErr r, tr2, None)
              end
              | r => (returnErr r, tr2, None)
              end
              end
          end
          | r => (returnErr r, tr1, None)
          end
          | _ => (Panicked, tr1, None)
          end
          | _ => (Panicked, tr1, None)
          end
          | r => (returnErr r, tr1, None)
          end
          end
      end
      | r => (returnErr r, [], None)
      end
      end
      end
  | r => (returnErr r, [], None)
  end.

(** ** Package storageclient: download *)

Record DownloadRequestSection : Type := mkSection {
  MerkleRoot : bytes;
  Offset : Z;     (* uint32 *)
  Length : Z      (* uint32 *)
}.

Record DownloadRequest : Type := mkDownloadRequest {
  Sections : list DownloadRequestSection;
  MerkleProof : bool
}.

(** Offsets and lengths are [uint32] values. *)
Definition wellFormedSection (sec : DownloadRequestSection) : Prop :=
  0 <= Offset sec < 2 ^ 32 /\ 0 <= Length sec < 2 ^ 32.

Section Download.

(** storage.SectorSize and storage.SegmentSize are constants that are
    not among the sources. *)
Variable SectorSize : Z.
Variable SegmentSize : Z.

(** The sanity-check loop at the head of [Read]. *)
Fixpoint checkSections (sections : list DownloadRequestSection) (merkleProof : bool)
  : option error :=
  match sections with
  | [] => None
  | sec :: rest =>
      if wrap64 (Offset sec + Length sec) >? SectorSize then Some ErrIllegalOffsetLength
      else if merkleProof
              && (negb (Offset sec mod SegmentSize =? 0) || negb (Length sec mod SegmentSize =? 0))
      then Some ErrNotSegmentAligned
      else checkSections rest merkleProof
  end.

(** A message the client sends to the host during [Read]. *)
Inductive downloadSent : Type :=
| SentDownloadRequest (req : DownloadRequest).

(** The rest of [Read], from the price check on: it estimates the
    price, builds and signs the paying revision, sends the download
    request and reads the host's answers.  It is left open here. *)
Variable readFromPriceCheck : DownloadRequest -> DxcoinCharge -> outcome * list downloadSent.

(** StorageClient.Read: how the call ends and the messages it sent to
    the host before that.  After the sanity check the function takes
    the latest revision to be the zero [StorageContractRevision] (the
    lookup is still to be written) and evaluates
    [lastRevision.NewValidProofOutputs[0]] for the price check. *)
Definition Read (req : DownloadRequest) : outcome * list downloadSent :=
  match checkSections (Sections req) (MerkleProof req) with
  | Some e => (Returned (Some e), [])
  | None =>
      let lastRevision := mkRevision [] 0 0 [] 0 0 [] [] [] [] in
      match getIndex (NewValidProofOutputs lastRevision) 0 with
      | Ok clientOutput => readFromPriceCheck req clientOutput
      | _ => (Panicked, [])
      end
  end.

End Download.

(** ** Package dpos: the lucky wheel *)

Record randomSelectorEntry : Type := mkEntry { addr : Address; vote : Z }.

Record luckyWheel : Type := mkWheel {
  entries : list randomSelectorEntry;
  target : Z;
  results : list Address;
  sumVotes : Z
}.

(** randomBigInt return a random big integer between 0 and max;
    [draw] is what the random source yields, and [big.Int.Rand] gives 0
    for a [max] that is not positive. *)
Definition randomBigInt (draw : Z) (max : Z) : Z :=
  if max <=? 0 then 0 else draw mod max.

(** The loop [for i, entry := range lw.entries] of [selectSingleEntry];
    [last] is [len(lw.entries) - 1], returned when the loop ends. *)
Fixpoint selectLoop (i : Z) (selected : Z) (es : list randomSelectorEntry) (last : Z) : Z :=
  match es with
  | [] => last
  | entry :: rest =>
      (* vote.Cmp(selected) <= 0 *)
      if vote entry <=? selected then i
      else selectLoop (i + 1) (selected - vote entry) rest last
  end.

(** selectSingleEntry select a single entry from the lucky Wheel. *)
Definition selectSingleEntry (draw : Z) (lw : luckyWheel) : Z :=
  let selected := randomBigInt draw (sumVotes lw) in
  selectLoop 0 selected (entries lw) (Z.of_nat (length (entries lw)) - 1).

(** The scan of [selectSingleEntry] goes through all of [es] without
    selecting one. *)
Fixpoint scanExhausted (selected : Z) (es : list randomSelectorEntry) : Prop :=
  match es with
  | [] => True
  | entry :: rest => selected < vote entry /\ scanExhausted (selected - vote entry) rest
  end.

(** ** Package storagehost: ReadSector *)

Record StorageHost : Type := mkHost { blockHeight : Z }.

(** ReadSector fetches the data requested by the storage client; the
    body is the call [h.ReadSector(sectorRoot)] of the method itself.
    [fuel] bounds the depth of the calls. *)
Fixpoint ReadSector (fuel : nat) (h : StorageHost) (sectorRoot : bytes) : option (result bytes) :=
  match fuel with
  | O => None
  | S f => ReadSector f h sectorRoot
  end.

(** * Properties *)

(** ** Bit arithmetic *)

Module GoFacts.

Lemma two64_eq : two64 = 18446744073709551616.
Proof. reflexivity. Qed.

Lemma two63_eq : two63 = 9223372036854775808.
Proof. reflexivity. Qed.

Lemma wrap64_small z : 0 <= z < two64 -> wrap64 z = z.
Proof. intros Hz. unfold wrap64. apply Z.mod_small. assumption. Qed.

Lemma wrap64_range z : 0 <= wrap64 z < two64.
Proof. unfold wrap64. apply Z.mod_pos_bound. rewrite two64_eq. lia. Qed.

Lemma tz_pos_nonneg p : 0 <= tz_pos p.
Proof. induction p; cbn [tz_pos]; lia. Qed.

Lemma tz_pos_divide p : (2 ^ tz_pos p | Zpos p).
Proof.
  induction p as [q IH | q IH | ]; cbn [tz_pos].
  - apply Z.divide_1_l.
  - rewrite Z.pow_add_r by (pose proof (tz_pos_nonneg q); lia).
    change (Zpos q~0) with (2 * Zpos q).
    apply Z.mul_divide_mono_l. exact IH.
  - apply Z.divide_1_l.
Qed.

Lemma tz_pos_le p : 2 ^ tz_pos p <= Zpos p.
Proof. apply Z.divide_pos_le; [lia | apply tz_pos_divide]. Qed.

Lemma tz_pos_lt p k : 0 <= k -> Zpos p < 2 ^ k -> tz_pos p < k.
Proof.
  intros Hk Hp. pose proof (tz_pos_le p) as Hle.
  destruct (Z_lt_ge_dec (tz_pos p) k) as [Hlt | Hge]; [assumption |].
  assert (2 ^ k <= 2 ^ tz_pos p) by (apply Z.pow_le_mono_r; lia).
  lia.
Qed.

Lemma tz_pos_pow2 (n : nat) : TrailingZeros64 (2 ^ Z.of_nat n) = Z.of_nat n.
Proof.
  induction n as [| n IH].
  - reflexivity.
  - rewrite Nat2Z.inj_succ, Z.pow_succ_r by lia.
    assert (Hpos : 0 < 2 ^ Z.of_nat n) by (apply Z.pow_pos_nonneg; lia).
    destruct (2 ^ Z.of_nat n) as [| q | q] eqn:E; try lia.
    cbn [TrailingZeros64] in IH. change (2 * Zpos q) with (Zpos q~0).
    cbn [TrailingZeros64 tz_pos]. lia.
Qed.

Lemma TrailingZeros64_pow2 k : 0 <= k -> TrailingZeros64 (2 ^ k) = k.
Proof.
  intros Hk. rewrite <- (Z2Nat.id k) by assumption. apply tz_pos_pow2.
Qed.

Lemma TrailingZeros64_nonneg x : 0 <= TrailingZeros64 x.
Proof. destruct x; simpl; try lia. apply tz_pos_nonneg. Qed.

Lemma TrailingZeros64_divide x : 0 < x -> (2 ^ TrailingZeros64 x | x).
Proof. destruct x; try lia. intros _. apply tz_pos_divide. Qed.

Lemma TrailingZeros64_lt x k : 0 < x -> 0 <= k -> x < 2 ^ k -> TrailingZeros64 x < k.
Proof. destruct x; try lia. intros _. apply tz_pos_lt. Qed.

Lemma Len64_pos x : 0 < x -> Len64 x = Z.log2 x + 1.
Proof. destruct x; try lia. reflexivity. Qed.

Lemma shl1_small k : 0 <= k <= 62 -> shl1 k = 2 ^ k.
Proof.
  intros Hk. unfold shl1.
  replace ((0 <=? k) && (k <? 64)) with true
    by (symmetry; apply andb_true_iff; split; [apply Z.leb_le | apply Z.ltb_lt]; lia).
  unfold toInt64.
  assert (0 < 2 ^ k) by (apply Z.pow_pos_nonneg; lia).
  assert (2 ^ k <= 2 ^ 62) by (apply Z.pow_le_mono_r; lia).
  rewrite Z.mod_small; [lia |].
  rewrite two64_eq, two63_eq. change (2 ^ 62) with 4611686018427387904 in *. lia.
Qed.

Lemma shl1_63 : shl1 63 = - two63.
Proof. reflexivity. Qed.

Lemma wrap64_shl1 k : 0 <= k <= 63 -> wrap64 (shl1 k) = 2 ^ k.
Proof.
  intros Hk. destruct (Z.eq_dec k 63) as [-> | Hne].
  - reflexivity.
  - rewrite shl1_small by lia. apply wrap64_small.
    assert (0 < 2 ^ k) by (apply Z.pow_pos_nonneg; lia).
    assert (2 ^ k <= 2 ^ 62) by (apply Z.pow_le_mono_r; lia).
    rewrite two64_eq. change (2 ^ 62) with 4611686018427387904 in *. lia.
Qed.

(** The exponent [adjacentSubtreeSize] shifts by. *)
Definition adjacentExp (left right : Z) : Z :=
  Z.min (TrailingZeros64 left) (Z.log2 (right - left)).

Lemma adjacentSubtreeSize_shl1 left right :
  0 <= left < right -> right < two64 ->
  adjacentSubtreeSize left right = shl1 (adjacentExp left right).
Proof.
  intros Hl Hr. unfold adjacentSubtreeSize, adjacentExp.
  rewrite wrap64_small by lia.
  rewrite Len64_pos by lia.
  replace (Z.log2 (right - left) + 1 - 1) with (Z.log2 (right - left)) by lia.
  destruct (Z.gtb_spec (TrailingZeros64 left) (Z.log2 (right - left))).
  - rewrite Z.min_r by lia. reflexivity.
  - rewrite Z.min_l by lia. reflexivity.
Qed.

Lemma adjacentExp_range left right :
  0 <= left < right -> right < two64 -> 0 <= adjacentExp left right <= 63.
Proof.
  intros Hl Hr. unfold adjacentExp.
  pose proof (TrailingZeros64_nonneg left).
  pose proof (Z.log2_nonneg (right - left)).
  assert (Z.log2 (right - left) < 64).
  { apply Z.log2_lt_pow2; [lia |]. change (2 ^ 64) with two64. lia. }
  lia.
Qed.

Lemma adjacentExp_le_62 left right :
  0 <= left < right -> right < two64 -> ~ (left = 0 /\ two63 <= right) ->
  adjacentExp left right <= 62.
Proof.
  intros Hl Hr Hex. unfold adjacentExp.
  destruct (Z_lt_ge_dec (right - left) two63) as [Hd | Hd].
  - assert (Z.log2 (right - left) < 63) by (apply Z.log2_lt_pow2; [lia | exact Hd]).
    lia.
  - assert (0 < left) by lia.
    assert (TrailingZeros64 left < 63).
    { apply TrailingZeros64_lt; try lia. change (2 ^ 63) with two63.
      rewrite two64_eq, two63_eq in *. lia. }
    lia.
Qed.

Lemma adjacentExp_fits left right :
  0 <= left < right -> 2 ^ adjacentExp left right <= right - left.
Proof.
  intros Hl. unfold adjacentExp.
  pose proof (Z.log2_spec (right - left) ltac:(lia)) as [Hlo _].
  pose proof (TrailingZeros64_nonneg left).
  pose proof (Z.log2_nonneg (right - left)).
  assert (2 ^ Z.min (TrailingZeros64 left) (Z.log2 (right - left)) <= 2 ^ Z.log2 (right - left))
    by (apply Z.pow_le_mono_r; lia).
  lia.
Qed.

Lemma adjacentExp_divide left right :
  0 <= left < right -> (2 ^ adjacentExp left right | left).
Proof.
  intros Hl. destruct (Z.eq_dec left 0) as [-> | Hne].
  - apply Z.divide_0_r.
  - apply Z.divide_trans with (2 ^ TrailingZeros64 left).
    + unfold adjacentExp.
      pose proof (TrailingZeros64_nonneg left).
      pose proof (Z.log2_nonneg (right - left)).
      exists (2 ^ (TrailingZeros64 left - Z.min (TrailingZeros64 left) (Z.log2 (right - left)))).
      rewrite <- Z.pow_add_r by lia. f_equal. lia.
    + apply TrailingZeros64_divide. lia.
Qed.

Lemma adjacentExp_divide_tz left right :
  0 <= left < right -> (2 ^ adjacentExp left right | 2 ^ TrailingZeros64 left).
Proof.
  intros Hl. unfold adjacentExp.
  pose proof (TrailingZeros64_nonneg left).
  pose proof (Z.log2_nonneg (right - left)).
  exists (2 ^ (TrailingZeros64 left - Z.min (TrailingZeros64 left) (Z.log2 (right - left)))).
  rewrite <- Z.pow_add_r by lia. f_equal. lia.
Qed.

(** One step of the walk: the index moves on by the subtree size. *)
Lemma advance left right :
  0 <= left < right -> right < two64 ->
  wrap64 (left + wrap64 (adjacentSubtreeSize left right)) = left + 2 ^ adjacentExp left right.
Proof.
  intros Hl Hr.
  rewrite adjacentSubtreeSize_shl1, wrap64_shl1 by (auto using adjacentExp_range).
  pose proof (adjacentExp_fits left right Hl).
  pose proof (adjacentExp_range left right Hl Hr).
  assert (0 < 2 ^ adjacentExp left right) by (apply Z.pow_pos_nonneg; lia).
  apply wrap64_small. lia.
Qed.

Lemma height_of_size left right :
  0 <= left < right -> right < two64 ->
  TrailingZeros64 (wrap64 (adjacentSubtreeSize left right)) = adjacentExp left right.
Proof.
  intros Hl Hr.
  rewrite adjacentSubtreeSize_shl1, wrap64_shl1 by (auto using adjacentExp_range).
  apply TrailingZeros64_pow2. apply adjacentExp_range; assumption.
Qed.

End GoFacts.

Import GoFacts.

(** ** Subtree sizes and the cover of an interval *)

Definition isPow2 (z : Z) : Prop := exists k, 0 <= k /\ z = 2 ^ k.

(** [blocks] are consecutive subtrees [(start, size)] that go from
    [from] to [to]: each starts where the one before ends, its size (as
    the [uint64] the loop adds) is a power of two that divides its
    start, and it ends no later than [to]. *)
Fixpoint tiles (blocks : list (Z * Z)) (from to : Z) : Prop :=
  match blocks with
  | [] => from = to
  | (start, size) :: rest =>
      start = from /\ isPow2 (wrap64 size) /\ (wrap64 size | start) /\
      from + wrap64 size <= to /\ tiles rest (from + wrap64 size) to
  end.

Lemma subtreeCover_tiles (n : nat) : forall left right,
  0 <= left <= right -> right < two64 -> right - left <= Z.of_nat n ->
  exists blocks, subtreeCover (S n) left right = Some blocks /\ tiles blocks left right.
Proof.
  induction n as [| n IH]; intros left right Hl Hr Hn.
  - assert (left = right) by lia. subst right.
    exists []. simpl. rewrite Z.eqb_refl. split; reflexivity.
  - destruct (Z.eq_dec left right) as [-> | Hne].
    + exists []. cbn [subtreeCover]. rewrite Z.eqb_refl. split; reflexivity.
    + assert (Hlt : 0 <= left < right) by lia.
      pose proof (advance left right Hlt Hr) as Hadv.
      pose proof (adjacentExp_fits left right Hlt) as Hfit.
      pose proof (adjacentExp_range left right Hlt Hr) as Hrange.
      pose proof (adjacentExp_divide left right Hlt) as Hdiv.
      assert (Hpos : 0 < 2 ^ adjacentExp left right) by (apply Z.pow_pos_nonneg; lia).
      destruct (IH (left + 2 ^ adjacentExp left right) right) as [blocks [Hc Ht]]; try lia.
      exists ((left, adjacentSubtreeSize left right) :: blocks).
      split.
      * change (subtreeCover (S (S n)) left right) with
          (if left =? right then Some []
           else match subtreeCover (S n)
                        (wrap64 (left + wrap64 (adjacentSubtreeSize left right))) right with
                | Some l => Some ((left, adjacentSubtreeSize left right) :: l)
                | None => None
                end).
        replace (left =? right) with false by (symmetry; apply Z.eqb_neq; assumption).
        rewrite Hadv, Hc. reflexivity.
      * cbn [tiles].
        rewrite adjacentSubtreeSize_shl1, wrap64_shl1 by assumption.
        repeat split; try assumption; try lia.
        exists (adjacentExp left right). split; [lia | reflexivity].
Qed.

(** C2 (amended).  For leaf indices [left < right], the loop
    [leafIndex += adjacentSubtreeSize(leafIndex, right)] ends and covers
    [left, right) with aligned power-of-two subtrees; and unless
    [left = 0] with [right >= 2^63], where the [int] result overflows,
    [adjacentSubtreeSize(left, right)] is a power of two that is at most
    [right - left] and divides the largest power of two dividing
    [left] when [left > 0]. *)
Theorem adjacentSubtreeSize_covers left right :
  0 <= left < right -> right < two64 ->
  (~ (left = 0 /\ two63 <= right) ->
     isPow2 (adjacentSubtreeSize left right) /\
     adjacentSubtreeSize left right <= right - left /\
     (0 < left -> (adjacentSubtreeSize left right | 2 ^ TrailingZeros64 left))) /\
  (exists fuel blocks, subtreeCover fuel left right = Some blocks /\ tiles blocks left right).
Proof.
  intros Hl Hr. split.
  - intros Hex.
    pose proof (adjacentExp_le_62 left right Hl Hr Hex) as H62.
    pose proof (adjacentExp_range left right Hl Hr) as Hrange.
    rewrite adjacentSubtreeSize_shl1, shl1_small by (assumption || lia).
    split; [| split].
    + exists (adjacentExp left right). split; [lia | reflexivity].
    + apply adjacentExp_fits. assumption.
    + intros _. apply adjacentExp_divide_tz. assumption.
  - destruct (subtreeCover_tiles (Z.to_nat (right - left)) left right) as [blocks Hb];
      try lia.
    exists (S (Z.to_nat (right - left))), blocks. exact Hb.
Qed.

Lemma adjacentSubtreeSize_covers_witness :
  (isPow2 (adjacentSubtreeSize 3 17) /\
   adjacentSubtreeSize 3 17 <= 17 - 3 /\
   (0 < 3 -> (adjacentSubtreeSize 3 17 | 2 ^ TrailingZeros64 3))) /\
  (exists fuel blocks, subtreeCover fuel 3 17 = Some blocks /\ tiles blocks 3 17).
Proof.
  destruct (adjacentSubtreeSize_covers 3 17) as [Hsize Hcover].
  - lia.
  - reflexivity.
  - split; [apply Hsize | exact Hcover].
    intros [Hz _]. discriminate Hz.
Defined.

(** C2 as stated fails: [adjacentSubtreeSize(0, 2^63)] is [1 << 63] at
    type [int], which is [-2^63] and no power of two. *)
Lemma adjacentSubtreeSize_overflow :
  ~ (forall left right, 0 <= left < right -> right < two64 ->
       isPow2 (adjacentSubtreeSize left right) /\
       adjacentSubtreeSize left right <= right - left).
Proof.
  intros Hall.
  destruct (Hall 0 two63) as [[k [Hk Hpow]] _].
  - rewrite two63_eq. lia.
  - reflexivity.
  - assert (0 < 2 ^ k) by (apply Z.pow_pos_nonneg; lia).
    change (adjacentSubtreeSize 0 two63) with (- two63) in Hpow.
    rewrite two63_eq in Hpow. lia.
Qed.

(** ** Validation of the exclusion ranges *)

(** Some range is empty or reversed, or a range starts before the
    range ahead of it ends. *)
Definition unsortedOrOverlapping (limits : list SubTreeLimit) : Prop :=
  (exists r, In r limits /\ Left r >= Right r) \/
  (exists i p q, nth_error limits i = Some p /\ nth_error limits (S i) = Some q /\
                 Right p > Left q).

Lemma checkLimitListFrom_empty_range prev limits r :
  In r limits -> Left r >= Right r -> checkLimitListFrom prev limits = false.
Proof.
  revert prev. induction limits as [| q rest IH]; intros prev Hin Hbad.
  - destruct Hin.
  - cbn [checkLimitListFrom].
    destruct ((Left q <? 0) || (Left q >=? Right q)) eqn:Eq; [reflexivity |].
    destruct Hin as [-> | Hin].
    + apply orb_false_iff in Eq. destruct Eq as [_ Eq].
      destruct (Z.geb_spec (Left r) (Right r)); [discriminate | lia].
    + destruct prev as [p |].
      * destruct (Right p >? Left q); [reflexivity | apply IH; assumption].
      * apply IH; assumption.
Qed.

Lemma checkLimitListFrom_overlap prev limits i p q :
  nth_error limits i = Some p -> nth_error limits (S i) = Some q -> Right p > Left q ->
  checkLimitListFrom prev limits = false.
Proof.
  revert prev i. induction limits as [| a rest IH]; intros prev i Hp Hq Hbad.
  - destruct i; discriminate.
  - cbn [checkLimitListFrom].
    destruct ((Left a <? 0) || (Left a >=? Right a)); [reflexivity |].
    assert (Hrest : checkLimitListFrom (Some a) rest = false).
    { destruct i as [| i].
      - cbn in Hp, Hq. injection Hp as ->.
        destruct rest as [| b rest']; [discriminate |].
        cbn in Hq. injection Hq as ->.
        cbn [checkLimitListFrom].
        destruct ((Left q <? 0) || (Left q >=? Right q)); [reflexivity |].
        replace (Right p >? Left q) with true; [reflexivity |].
        symmetry. apply Z.gtb_lt. lia.
      - cbn in Hp, Hq. exact (IH (Some a) i Hp Hq Hbad). }
    destruct prev as [p0 |]; [destruct (Right p0 >? Left a) |]; auto.
Qed.

Lemma checkLimitList_invalid limits :
  unsortedOrOverlapping limits -> checkLimitList limits = false.
Proof.
  intros [[r [Hin Hbad]] | [i [p [q [Hp [Hq Hbad]]]]]].
  - exact (checkLimitListFrom_empty_range None limits r Hin Hbad).
  - exact (checkLimitListFrom_overlap None limits i p q Hp Hq Hbad).
Qed.

(** C4.  For a range list that is not sorted and non-overlapping,
    diff-proof construction returns the parameter error and leaves the
    leaf source as it was, whatever the source is. *)
Theorem getLimitStorageProof_invalid_untouched
        {S : Type} {SR : SubtreeRoot S}
        (fuel : nat) (limits : list SubTreeLimit) (sr : S) :
  unsortedOrOverlapping limits ->
  getLimitStorageProof fuel limits sr = Some (Err ErrInvalidParameter, sr).
Proof.
  intros Hbad. pose proof (checkLimitList_invalid limits Hbad) as Hc.
  unfold getLimitStorageProof.
  destruct limits as [| r rest].
  - destruct Hbad as [[r [[] _]] | [i [p [q [Hp _]]]]]. destruct i; discriminate.
  - rewrite Hc. reflexivity.
Qed.

(** ** The lucky wheel *)

Lemma selectLoop_range es : forall i selected last,
  let res := selectLoop i selected es last in
  i <= res < i + Z.of_nat (length es) \/ res = last.
Proof.
  induction es as [| e rest IH]; intros i selected last; cbn [selectLoop length].
  - right. reflexivity.
  - destruct (vote e <=? selected).
    + left. lia.
    + destruct (IH (i + 1) (selected - vote e) last) as [Hin | Hlast].
      * left. lia.
      * right. exact Hlast.
Qed.

Lemma selectLoop_exhausted es : forall i selected last,
  scanExhausted selected es -> selectLoop i selected es last = last.
Proof.
  induction es as [| e rest IH]; intros i selected last Hex; cbn [selectLoop].
  - reflexivity.
  - destruct Hex as [Hlt Hrest].
    replace (vote e <=? selected) with false by (symmetry; apply Z.leb_gt; exact Hlt).
    apply IH. exact Hrest.
Qed.

(** C9.  On a non-empty entry list the selected index is within the
    list, and a scan that goes through every entry without selecting
    one yields the index of the last entry. *)
Theorem selectSingleEntry_in_bounds (draw : Z) (lw : luckyWheel) :
  entries lw <> [] ->
  0 <= selectSingleEntry draw lw < Z.of_nat (length (entries lw)) /\
  (scanExhausted (randomBigInt draw (sumVotes lw)) (entries lw) ->
   selectSingleEntry draw lw = Z.of_nat (length (entries lw)) - 1).
Proof.
  intros Hne. unfold selectSingleEntry. split.
  - pose proof (selectLoop_range (entries lw) 0 (randomBigInt draw (sumVotes lw))
                                 (Z.of_nat (length (entries lw)) - 1)) as Hr.
    cbv zeta in Hr.
    assert (0 < Z.of_nat (length (entries lw))).
    { destruct (entries lw); [contradiction | cbn [length]; lia]. }
    lia.
  - apply selectLoop_exhausted.
Qed.

(** ** ReadSector *)

(** C10 fails on the code: [ReadSector] calls itself with the same
    arguments, so no depth of calls ever yields data or an error. *)
Theorem ReadSector_never_returns (fuel : nat) (h : StorageHost) (sectorRoot : bytes) :
  ReadSector fuel h sectorRoot = None.
Proof. induction fuel as [| f IH]; [reflexivity | exact IH]. Qed.

(** ** Download request validation *)

Section DownloadProps.
Variable SectorSize : Z.
Variable SegmentSize : Z.
Variable readFromPriceCheck : DownloadRequest -> DxcoinCharge -> outcome * list downloadSent.

(** The section reaches beyond the sector. *)
Definition exceedsSector (sec : DownloadRequestSection) : Prop :=
  Offset sec + Length sec > SectorSize.

(** The offset or the length is not a multiple of [SegmentSize]. *)
Definition misaligned (sec : DownloadRequestSection) : Prop :=
  ~ (SegmentSize | Offset sec) \/ ~ (SegmentSize | Length sec).

Lemma checkSections_rejects sections merkleProof :
  0 < SegmentSize ->
  Forall wellFormedSection sections ->
  (exists sec, In sec sections /\
               (exceedsSector sec \/ (merkleProof = true /\ misaligned sec))) ->
  exists e, checkSections SectorSize SegmentSize sections merkleProof = Some e.
Proof.
  intros Hseg Hwf [sec [Hin Hbad]].
  induction sections as [| s rest IH]; [destruct Hin |].
  cbn [checkSections].
  destruct (wrap64 (Offset s + Length s) >? SectorSize) eqn:E1; [eexists; reflexivity |].
  destruct (merkleProof &&
            (negb (Offset s mod SegmentSize =? 0) || negb (Length s mod SegmentSize =? 0)))
           eqn:E2; [eexists; reflexivity |].
  inversion Hwf as [| ? ? Hs Hrest]; subst.
  destruct Hin as [-> | Hin]; [| apply IH; assumption].
  exfalso. destruct Hs as [Ho Hl].
  rewrite wrap64_small in E1 by (rewrite two64_eq; change (2 ^ 32) with 4294967296 in *; lia).
  destruct Hbad as [Hbig | [-> Hmis]].
  - unfold exceedsSector in Hbig.
    destruct (Z.gtb_spec (Offset sec + Length sec) SectorSize); [discriminate | lia].
  - cbn [andb] in E2. apply orb_false_iff in E2. destruct E2 as [Eo El].
    apply negb_false_iff, Z.eqb_eq in Eo. apply negb_false_iff, Z.eqb_eq in El.
    apply Z.mod_divide in Eo; [| lia]. apply Z.mod_divide in El; [| lia].
    destruct Hmis as [Hm | Hm]; contradiction.
Qed.

(** C7.  A download request with a section that reaches beyond the
    sector, or one that asks for a Merkle proof and has a section
    whose offset or length is not a multiple of [SegmentSize], makes
    [Read] return an error with no message sent to the host. *)
Theorem Read_rejects_before_sending (req : DownloadRequest) :
  0 < SegmentSize ->
  Forall wellFormedSection (Sections req) ->
  (exists sec, In sec (Sections req) /\
               (exceedsSector sec \/ (MerkleProof req = true /\ misaligned sec))) ->
  exists e, Read SectorSize SegmentSize readFromPriceCheck req = (Returned (Some e), []).
Proof.
  intros Hseg Hwf Hbad.
  destruct (checkSections_rejects (Sections req) (MerkleProof req) Hseg Hwf Hbad) as [e He].
  exists e. unfold Read. rewrite He. reflexivity.
Qed.

End DownloadProps.

(** ** Concrete inputs *)

(** A hash that only tags and concatenates, to run the model on
    concrete inputs. *)
Definition tagHasher : Hasher :=
  {| leafTotal := fun data => x00 :: data;
     nodeTotal := fun a b => x01 :: a ++ b |}.

Lemma getLimitStorageProof_invalid_untouched_witness :
  unsortedOrOverlapping [mkLimit 0 2; mkLimit 1 3] /\
  getLimitStorageProof (SR := @CachedSubtreeRoot_SubtreeRoot tagHasher) 0
                       [mkLimit 0 2; mkLimit 1 3] (mkCached [[x01]; [x02]])
  = Some (Err ErrInvalidParameter, mkCached [[x01]; [x02]]).
Proof.
  assert (Hbad : unsortedOrOverlapping [mkLimit 0 2; mkLimit 1 3]).
  { right. exists 0%nat, (mkLimit 0 2), (mkLimit 1 3).
    split; [reflexivity | split; [reflexivity | simpl; lia]]. }
  split; [exact Hbad |].
  apply (getLimitStorageProof_invalid_untouched
           (SR := @CachedSubtreeRoot_SubtreeRoot tagHasher) 0
           [mkLimit 0 2; mkLimit 1 3] (mkCached [[x01]; [x02]]) Hbad).
Defined.

Lemma selectSingleEntry_in_bounds_witness :
  let lw := mkWheel [mkEntry 1 5; mkEntry 2 7] 1 [] 12 in
  0 <= selectSingleEntry 3 lw < 2 /\
  (scanExhausted (randomBigInt 3 12) (entries lw) -> selectSingleEntry 3 lw = 2 - 1).
Proof.
  intro lw.
  apply (selectSingleEntry_in_bounds 3 lw). discriminate.
Defined.

Lemma Read_rejects_before_sending_witness :
  exists e, Read 4194304 64 (fun req _ => (Returned None, [SentDownloadRequest req]))
                 (mkDownloadRequest [mkSection [] 1 64] true) = (Returned (Some e), []).
Proof.
  apply (Read_rejects_before_sending 4194304 64
           (fun req _ => (Returned None, [SentDownloadRequest req]))
           (mkDownloadRequest [mkSection [] 1 64] true)).
  - lia.
  - repeat constructor; simpl; lia.
  - exists (mkSection [] 1 64). split; [left; reflexivity |].
    right. split; [reflexivity |]. left. simpl.
    intros [k Hk]. lia.
Defined.

(** ** Contract creation *)

(** Whatever the collaborators answer, [ContractCreate] never gets to
    submit a contract. *)
Lemma ContractCreate_never_submits (env : CreateEnv) (params : ContractParams) :
  snd (ContractCreate env params) = None.
Proof.
  destruct env as [pay fw sc sg sd rh dh sr sc2 rr dr ec st].
  unfold ContractCreate; cbn.
  destruct pay as [[rp hp] | e |]; cbn; try reflexivity.
  destruct fw; cbn; try reflexivity.
  destruct sc; cbn; try reflexivity.
  destruct sg; cbn; try reflexivity.
  destruct sd; cbn; try reflexivity.
  destruct rh; cbn; try reflexivity.
  destruct dh; cbn; reflexivity.
Qed.

(** C6 fails on the code.  When the host's contract signature is
    received (the request went out, and the read that [ContractCreate]
    lets through has a message that decodes), the assignment
    [storageContract.Signatures[1] = hostSign] indexes a slice that was
    never allocated and the call panics. *)
Theorem ContractCreate_signature_assignment_panics
        (env : CreateEnv) (params : ContractParams)
        (renterPayout hostPayout : Z) (clientContractSign hostSign : bytes) (e : error) :
  renterPayoutsPreTax env = Ok (renterPayout, hostPayout) ->
  findWallet env = None ->
  setupConnection env = None ->
  signContract env = Ok clientContractSign ->
  sendContractCreation env = None ->
  readHostSign env = Some e ->
  decodeHostSign env = Ok hostSign ->
  ContractCreate env params = (Panicked, [SentContractCreation clientContractSign], None).
Proof.
  intros Hpay Hfw Hsc Hsg Hsd Hrh Hdh.
  unfold ContractCreate. rewrite Hpay, Hfw, Hsc, Hsg, Hsd, Hrh, Hdh. reflexivity.
Qed.

Lemma ContractCreate_signature_assignment_panics_witness :
  let env := mkCreateEnv (Ok (10, 20)) None None (Ok [x01]) None (Some EOF) (Ok [x02])
                         (Ok [x03]) None (Some EOF) (Ok [x04]) (Ok [x05]) None in
  ContractCreate env (mkParams 1 2 100 10) = (Panicked, [SentContractCreation [x01]], None).
Proof.
  intro env.
  apply (ContractCreate_signature_assignment_panics env (mkParams 1 2 100 10)
           10 20 [x01] [x02] EOF); reflexivity.
Defined.

(** ** The upload handler *)

Section UploadProps.
Context {H : Hasher}.
Variable SectorSize : Z.
Variable Sha256MerkleTreeRoot : bytes -> bytes.
Variable calcHostRevenue : uploadNegotiationData -> StorageResponsibility -> Z -> Z.
Variable uploadRevisionValidation :
  StorageResponsibility -> StorageContractRevision -> Z -> Z -> option error.

Lemma appendPaybacks_appends n : forall i values addrs out res,
  appendPaybacks n i values addrs out = Ok res ->
  length res = (length out + n)%nat /\ firstn (length out) res = out.
Proof.
  induction n as [| n IH]; intros i values addrs out res Hres; cbn [appendPaybacks] in Hres.
  - injection Hres as <-. split; [lia | apply firstn_all].
  - destruct (getIndex values i) as [v | |]; try discriminate.
    destruct (getIndex addrs i) as [a | |]; try discriminate.
    apply IH in Hres. destruct Hres as [Hlen Hpre].
    rewrite length_app in Hlen, Hpre. cbn [length] in Hlen, Hpre.
    split; [lia |].
    replace (length out) with (Nat.min (length out) (length out + 1)) by lia.
    rewrite <- firstn_firstn, Hpre.
    rewrite firstn_app, Nat.sub_diag, firstn_all. cbn. apply app_nil_r.
Qed.

(** C5 fails on the code.  From a predecessor with two valid-proof and
    two missed-proof outputs, every revision that
    [constructAndVerifyNewRevision] hands back has four of each: the
    predecessor's two, kept by the copy [newRev := currentRev], and
    behind them the two appended from the request. *)
Theorem constructAndVerifyNewRevision_four_outputs
        (blockHeight : Z) (nd nd' : uploadNegotiationData) (sr : StorageResponsibility)
        (uploadReq : UploadRequest) (currentRev newRev : StorageContractRevision) :
  getIndex (StorageContractRevisions sr) (length (StorageContractRevisions sr) - 1)
  = Ok currentRev ->
  length (NewValidProofOutputs currentRev) = 2%nat ->
  length (NewMissedProofOutputs currentRev) = 2%nat ->
  constructAndVerifyNewRevision SectorSize calcHostRevenue uploadRevisionValidation
                                blockHeight nd sr uploadReq = Ok (newRev, nd') ->
  length (NewValidProofOutputs newRev) = 4%nat /\
  length (NewMissedProofOutputs newRev) = 4%nat /\
  firstn 2 (NewValidProofOutputs newRev) = NewValidProofOutputs currentRev /\
  firstn 2 (NewMissedProofOutputs newRev) = NewMissedProofOutputs currentRev.
Proof.
  intros Hcur Hv Hm Hres.
  unfold constructAndVerifyNewRevision in Hres. rewrite Hcur in Hres.
  cbn [calcAndUpdateRevisionMerkleRoot] in Hres.
  unfold updateRevisionMissedAndValidPayback in Hres.
  cbn [NewValidProofOutputs NewMissedProofOutputs setFileMerkleRoot updateRevisionFileSize
       setFileSize setRevisionNumber] in Hres.
  destruct (appendPaybacks _ 0 (NewValidProofValues uploadReq) _ _) as [valid | |] eqn:Ev;
    try discriminate.
  destruct (appendPaybacks _ 0 (NewMissedProofValues uploadReq) _ _) as [missed | |] eqn:Em;
    try discriminate.
  destruct (uploadRevisionValidation _ _ _ _); try discriminate.
  injection Hres as <- _. cbn.
  apply appendPaybacks_appends in Ev. apply appendPaybacks_appends in Em.
  rewrite Hv in Ev. rewrite Hv, Hm in Em.
  destruct Ev as [Ev1 Ev2]. destruct Em as [Em1 Em2]. auto.
Qed.

(** C8.  From a responsibility with no sector roots and a latest
    revision of file size 0, one append action gives the tentative
    sector roots [[root of the data]], and the new revision has that
    root as its file Merkle root and one [SectorSize] as its file
    size. *)
Theorem append_to_empty_file
        (data : bytes) (uploadBandwidthPrice blockHeight : Z) (sr : StorageResponsibility)
        (uploadReq : UploadRequest) (currentRev : StorageContractRevision) :
  0 <= SectorSize < two64 ->
  SectorRoots sr = [] ->
  Actions uploadReq = [mkAction UploadActionAppend data] ->
  getIndex (StorageContractRevisions sr) (length (StorageContractRevisions sr) - 1)
  = Ok currentRev ->
  NewFileSize currentRev = 0 ->
  exists nd,
    parseAndHandleUploadActions SectorSize Sha256MerkleTreeRoot uploadReq zeroNd sr
                                uploadBandwidthPrice = Ok nd /\
    newRoots nd = [Sha256MerkleTreeRoot data] /\
    NewFileSize (updateRevisionFileSize SectorSize currentRev uploadReq) = SectorSize /\
    NewFileMerkleRoot (snd (calcAndUpdateRevisionMerkleRoot nd currentRev))
    = Sha256MerkleTreeRoot data /\
    (forall newRev nd',
        constructAndVerifyNewRevision SectorSize calcHostRevenue uploadRevisionValidation
                                      blockHeight nd sr uploadReq = Ok (newRev, nd') ->
        NewFileMerkleRoot newRev = Sha256MerkleTreeRoot data /\
        NewFileSize newRev = SectorSize).
Proof.
  intros Hsz Hroots Hact Hcur Hzero.
  assert (Hw : wrap64 (0 + SectorSize) = SectorSize) by (apply wrap64_small; lia).
  eexists. split; [| split; [| split; [| split]]].
  - unfold parseAndHandleUploadActions. rewrite Hact, Hroots. cbn. reflexivity.
  - reflexivity.
  - unfold updateRevisionFileSize. rewrite Hact, Hzero. cbn. exact Hw.
  - reflexivity.
  - intros newRev nd' Hres.
    unfold constructAndVerifyNewRevision in Hres. rewrite Hcur in Hres.
    cbn [calcAndUpdateRevisionMerkleRoot] in Hres.
    destruct (updateRevisionMissedAndValidPayback _ _ _) as [rev | |] eqn:Eu; try discriminate.
    destruct (uploadRevisionValidation _ _ _ _); try discriminate.
    injection Hres as <- _.
    unfold updateRevisionMissedAndValidPayback in Eu.
    destruct (appendPaybacks _ _ (NewValidProofValues uploadReq) _ _); try discriminate.
    destruct (appendPaybacks _ _ (NewMissedProofValues uploadReq) _ _); try discriminate.
    injection Eu as <-. cbn.
    unfold updateRevisionFileSize. rewrite Hact. cbn. rewrite Hzero.
    split; [reflexivity | exact Hw].
Qed.

End UploadProps.

(** ** The stack of subtrees *)

Section MerkleFacts.
Context {H : Hasher}.

(** A stack has the shape of [n] leaves: heights are not negative,
    grow strictly from the top down, and the subtrees hold [n] leaves
    in all. *)
Fixpoint shape (st : Tree) (n : Z) : Prop :=
  match st with
  | [] => n = 0
  | top :: rest =>
      0 <= height top /\
      Forall (fun s => height top < height s) rest /\
      shape rest (n - 2 ^ height top)
  end.

Lemma pushAll_app st a b : pushAll (pushAll st a) b = pushAll st (a ++ b).
Proof. unfold pushAll. symmetry. apply fold_left_app. Qed.

Lemma shape_nonneg st : forall n, shape st n -> Forall (fun s => 0 <= height s) st.
Proof.
  induction st as [| a rest IH]; intros n Hs; [constructor |].
  destruct Hs as [Ha [_ Hrest]]. constructor; [exact Ha | eapply IH; exact Hrest].
Qed.

Lemma shape_size st : forall n,
  shape st n -> 0 <= n /\ Forall (fun s => 2 ^ height s <= n) st.
Proof.
  induction st as [| a rest IH]; intros n Hs.
  - cbn in Hs. subst n. split; [lia | constructor].
  - destruct Hs as [Ha [_ Hrest]]. apply IH in Hrest. destruct Hrest as [Hm Hall].
    assert (0 < 2 ^ height a) by (apply Z.pow_pos_nonneg; lia).
    split; [lia |]. constructor; [lia |].
    eapply Forall_impl; [| exact Hall]. cbn. intros s Hs. lia.
Qed.

Lemma shape_multiple st : forall n j,
  shape st n -> 0 <= j -> Forall (fun s => j <= height s) st -> (2 ^ j | n).
Proof.
  induction st as [| a rest IH]; intros n j Hs Hj Hall.
  - cbn in Hs. subst n. apply Z.divide_0_r.
  - destruct Hs as [Ha [Hinc Hrest]].
    inversion Hall as [| ? ? Hja Hjrest]; subst.
    replace n with (2 ^ height a + (n - 2 ^ height a)) by lia.
    apply Z.divide_add_r.
    + exists (2 ^ (height a - j)). rewrite <- Z.pow_add_r by lia. f_equal. lia.
    + eapply IH; [exact Hrest | exact Hj | exact Hjrest].
Qed.

(** If [2^k] divides the number of leaves, every subtree on the stack
    has height [k] at least. *)
Lemma shape_divide st n k :
  shape st n -> 0 <= k -> (2 ^ k | n) -> Forall (fun s => k <= height s) st.
Proof.
  intros Hs Hk Hdiv. destruct st as [| a rest]; [constructor |].
  destruct Hs as [Ha [Hinc Hrest]].
  assert (Hka : k <= height a).
  { destruct (Z_le_gt_dec k (height a)) as [Hle | Hgt]; [exact Hle | exfalso].
    assert (Hm : (2 ^ (height a + 1) | n - 2 ^ height a)).
    { eapply shape_multiple; [exact Hrest | lia |].
      eapply Forall_impl; [| exact Hinc]. cbn. intros s Hs. lia. }
    assert (Hn : (2 ^ (height a + 1) | n)).
    { apply Z.divide_trans with (2 ^ k); [| exact Hdiv].
      exists (2 ^ (k - (height a + 1))). rewrite <- Z.pow_add_r by lia. f_equal. lia. }
    assert (Hd : (2 ^ (height a + 1) | 2 ^ height a)).
    { replace (2 ^ height a) with (n - (n - 2 ^ height a)) by lia.
      apply Z.divide_sub_r; assumption. }
    assert (0 < 2 ^ height a) by (apply Z.pow_pos_nonneg; lia).
    apply Z.divide_pos_le in Hd; [| lia].
    rewrite Z.pow_add_r in Hd by lia. lia. }
  constructor; [exact Hka |].
  eapply Forall_impl; [| exact Hinc]. cbn. intros s Hs. lia.
Qed.

Lemma joinAllSubTrees_apart top st :
  Forall (fun s => height top < height s) st -> joinAllSubTrees top st = top :: st.
Proof.
  intros Hall. destruct st as [| a rest]; [reflexivity |].
  inversion Hall; subst. cbn [joinAllSubTrees].
  replace (height top =? height a) with false by (symmetry; apply Z.eqb_neq; lia).
  reflexivity.
Qed.

Lemma joinAllSubTrees_shape st : forall top n,
  shape st n -> 0 <= height top -> Forall (fun s => height top <= height s) st ->
  shape (joinAllSubTrees top st) (n + 2 ^ height top).
Proof.
  induction st as [| a rest IH]; intros top n Hs Htop Hall.
  - cbn in Hs. subst n. cbn. split; [exact Htop | split; [constructor | lia]].
  - destruct Hs as [Ha [Hinc Hrest]].
    inversion Hall as [| ? ? Hta Htrest]; subst.
    cbn [joinAllSubTrees].
    destruct (Z.eqb_spec (height top) (height a)) as [Heq | Hne].
    + replace (n + 2 ^ height top)
        with ((n - 2 ^ height a) + 2 ^ height (joinSubTrees a top)).
      * apply IH; [exact Hrest | cbn; lia |].
        eapply Forall_impl; [| exact Hinc]. cbn. intros s Hs. lia.
      * cbn [joinSubTrees height]. rewrite Z.pow_add_r by lia. rewrite Heq. lia.
    + cbn [shape]. split; [exact Htop |]. split.
      * constructor; [lia |].
        eapply Forall_impl; [| exact Hinc]. cbn. intros s Hs. lia.
      * replace (n + 2 ^ height top - 2 ^ height top) with n by lia.
        cbn [shape]. auto.
Qed.

Lemma joinAllSubTrees_nonempty top st : joinAllSubTrees top st <> [].
Proof.
  revert top. induction st as [| a rest IH]; intros top; cbn [joinAllSubTrees].
  - discriminate.
  - destruct (height top =? height a); [apply IH | discriminate].
Qed.

Lemma pushAll_shape leaves : forall st n,
  shape st n -> shape (pushAll st leaves) (n + Z.of_nat (length leaves)).
Proof.
  induction leaves as [| l rest IH]; intros st n Hs.
  - cbn. replace (n + 0) with n by lia. exact Hs.
  - change (pushAll st (l :: rest)) with (pushAll (joinAllSubTrees (mkSubTree 0 l) st) rest).
    replace (n + Z.of_nat (length (l :: rest)))
      with ((n + 2 ^ height (mkSubTree 0 l)) + Z.of_nat (length rest))
      by (cbn [length height]; lia).
    apply IH. apply joinAllSubTrees_shape; [exact Hs | cbn; lia |].
    cbn [height]. eapply shape_nonneg; exact Hs.
Qed.

Lemma pushAll_nil_shape leaves : shape (pushAll [] leaves) (Z.of_nat (length leaves)).
Proof. apply (pushAll_shape leaves [] 0). reflexivity. Qed.

(** The root of a complete subtree of height [h] over [2^h] leaves. *)
Fixpoint perfectRoot (h : nat) (b : list bytes) : bytes :=
  match h with
  | O => hd [] b
  | S h' => nodeTotal (perfectRoot h' (firstn (2 ^ h') b)) (perfectRoot h' (skipn (2 ^ h') b))
  end.

(** Pushing the [2^h] leaves of an aligned block one at a time is
    pushing the block's root as one subtree of height [h]. *)
Lemma pushAll_block (h : nat) : forall st b,
  length b = (2 ^ h)%nat ->
  Forall (fun s => Z.of_nat h <= height s) st ->
  pushAll st b = joinAllSubTrees (mkSubTree (Z.of_nat h) (perfectRoot h b)) st.
Proof.
  induction h as [| h IH]; intros st b Hlen Hall.
  - destruct b as [| x [| y b']]; try discriminate. reflexivity.
  - cbn [Nat.pow] in Hlen.
    rewrite <- (firstn_skipn (2 ^ h) b) at 1. rewrite <- pushAll_app.
    assert (Hl1 : length (firstn (2 ^ h) b) = (2 ^ h)%nat) by (rewrite length_firstn; lia).
    assert (Hl2 : length (skipn (2 ^ h) b) = (2 ^ h)%nat) by (rewrite length_skipn; lia).
    rewrite (IH st (firstn (2 ^ h) b) Hl1)
      by (eapply Forall_impl; [| exact Hall]; cbn; intros s Hs; lia).
    rewrite joinAllSubTrees_apart
      by (eapply Forall_impl; [| exact Hall]; cbn; intros s Hs; lia).
    rewrite (IH _ (skipn (2 ^ h) b) Hl2)
      by (constructor; [cbn; lia | eapply Forall_impl; [| exact Hall]; cbn; intros s Hs; lia]).
    cbn [joinAllSubTrees height]. rewrite Z.eqb_refl.
    unfold joinSubTrees. cbn [height sum perfectRoot].
    rewrite Nat2Z.inj_succ. unfold Z.succ. reflexivity.
Qed.

Lemma Root_joinAllSubTrees st : forall top, Root (joinAllSubTrees top st) = Root (top :: st).
Proof.
  induction st as [| a rest IH]; intros top; cbn [joinAllSubTrees]; [reflexivity |].
  destruct (height top =? height a); [| reflexivity].
  rewrite IH. reflexivity.
Qed.

Lemma joinAllSubTrees_app s1 : forall top s2 k,
  Forall (fun s => height s < k) (joinAllSubTrees top s1) ->
  Forall (fun s => k <= height s) s2 ->
  joinAllSubTrees top (s1 ++ s2) = joinAllSubTrees top s1 ++ s2.
Proof.
  induction s1 as [| a rest IH]; intros top s2 k Hlow Hhigh.
  - cbn [app joinAllSubTrees] in *. inversion Hlow; subst.
    apply joinAllSubTrees_apart.
    eapply Forall_impl; [| exact Hhigh]. cbn. intros s Hs. lia.
  - cbn [app joinAllSubTrees] in *.
    destruct (height top =? height a); [| reflexivity].
    eapply IH; eassumption.
Qed.

(** Fewer than [2^k] leaves pushed on a stack whose subtrees all have
    height [k] or more stay on top of it. *)
Lemma pushAll_small b : forall st k,
  0 <= k -> Z.of_nat (length b) < 2 ^ k ->
  Forall (fun s => k <= height s) st ->
  pushAll st b = pushAll [] b ++ st.
Proof.
  induction b as [| x b IH] using rev_ind; intros st k Hk Hlen Hall; [reflexivity |].
  rewrite length_app in Hlen. cbn [length] in Hlen.
  rewrite <- !pushAll_app.
  rewrite (IH st k) by (assumption || lia).
  change (pushAll (pushAll [] b ++ st) [x])
    with (joinAllSubTrees (mkSubTree 0 x) (pushAll [] b ++ st)).
  change (pushAll (pushAll [] b) [x]) with (joinAllSubTrees (mkSubTree 0 x) (pushAll [] b)).
  apply joinAllSubTrees_app with (k := k); [| exact Hall].
  pose proof (pushAll_nil_shape (b ++ [x])) as Hs.
  rewrite <- pushAll_app in Hs.
  change (pushAll (pushAll [] b) [x])
    with (joinAllSubTrees (mkSubTree 0 x) (pushAll [] b)) in Hs.
  apply shape_size in Hs. destruct Hs as [_ Hs].
  eapply Forall_impl; [| exact Hs]. cbn. intros s Hsz.
  rewrite length_app in Hsz. cbn [length] in Hsz.
  destruct (Z_lt_ge_dec (height s) k) as [Hlt | Hge]; [exact Hlt | exfalso].
  assert (2 ^ k <= 2 ^ height s) by (apply Z.pow_le_mono_r; lia).
  lia.
Qed.

Lemma Root_app s1 s2 :
  s1 <> [] ->
  Root (s1 ++ s2) = Some (fold_left (fun cur n => nodeTotal (sum n) cur) s2 (orNil (Root s1))).
Proof.
  intros Hne. destruct s1 as [| a rest]; [contradiction |].
  cbn [app Root orNil]. rewrite fold_left_app. reflexivity.
Qed.

End MerkleFacts.

(** ** The leaf sources *)

(** The leaves of a stream: consecutive pieces of [size] bytes, the
    last one shorter when the bytes run out.  [fuel] bounds the number
    of pieces. *)
Fixpoint chunks (fuel size : nat) (data : bytes) : list bytes :=
  match fuel with
  | O => []
  | S f =>
      match data with
      | [] => []
      | _ => firstn size data :: chunks f size (skipn size data)
      end
  end.

Definition streamLeaves (rsh : SubtreeRootReader) : list bytes :=
  chunks (length (r rsh)) (leafSize rsh) (r rsh).

Section SourceFacts.
Context {H : Hasher}.

Lemma PushSubTree_ok h s t :
  Forall (fun x => h <= height x) t ->
  PushSubTree h s t = Ok (joinAllSubTrees (mkSubTree h s) t).
Proof.
  intros Hall. destruct t as [| top rest]; [reflexivity |].
  inversion Hall; subst. cbn [PushSubTree].
  destruct (Z.gtb_spec h (height top)); [lia | reflexivity].
Qed.

Lemma cachedLoop_spec roots : forall i n tree m,
  shape tree m ->
  cachedLoop i n roots tree
  = (Ok (pushAll tree (firstn (Z.to_nat (n - i)) roots)), skipn (Z.to_nat (n - i)) roots).
Proof.
  induction roots as [| x rest IH]; intros i n tree m Hs; cbn [cachedLoop].
  - rewrite firstn_nil, skipn_nil. reflexivity.
  - destruct (Z.ltb_spec i n) as [Hlt | Hge].
    + rewrite PushSubTree_ok by (eapply shape_nonneg; exact Hs).
      rewrite (IH (i + 1) n _ (m + 2 ^ height (mkSubTree 0 x))).
      * replace (Z.to_nat (n - i)) with (S (Z.to_nat (n - (i + 1)))) by lia.
        reflexivity.
      * apply joinAllSubTrees_shape; [exact Hs | cbn; lia |].
        cbn [height]. eapply shape_nonneg; exact Hs.
    + replace (Z.to_nat (n - i)) with O by lia. reflexivity.
Qed.

(** With leaves left, the cached source gives the root of the next
    [n] of them, or of all that are left, and moves past them. *)
Lemma Cached_GetSubtreeRoot_spec n leaves :
  leaves <> [] ->
  Cached_GetSubtreeRoot n (mkCached leaves)
  = (Ok (merkleRoot (firstn (Z.to_nat n) leaves)), mkCached (skipn (Z.to_nat n) leaves)).
Proof.
  intros Hne. unfold Cached_GetSubtreeRoot. cbn [leafRoots].
  destruct leaves as [| x rest]; [contradiction |].
  rewrite (cachedLoop_spec (x :: rest) 0 n NewTree 0) by reflexivity.
  replace (n - 0) with n by lia. reflexivity.
Qed.

Lemma chunks_nil fuel size : chunks fuel size [] = [].
Proof. destruct fuel; reflexivity. Qed.

Lemma chunks_enough size : forall f g data,
  (1 <= size)%nat -> (length data <= f)%nat -> (length data <= g)%nat ->
  chunks f size data = chunks g size data.
Proof.
  induction f as [| f IH]; intros g data Hsz Hf Hg.
  - destruct data; [| cbn in Hf; lia]. rewrite !chunks_nil. reflexivity.
  - destruct data as [| d ds]; [rewrite !chunks_nil; reflexivity |].
    destruct g as [| g]; [cbn in Hg; lia |].
    cbn [chunks]. f_equal.
    apply IH; try assumption; rewrite length_skipn; cbn [length] in *; lia.
Qed.

Lemma ReadFull_full size data :
  (size <= length data)%nat ->
  ReadFull size data = (firstn size data, None, skipn size data).
Proof.
  intros Hle. unfold ReadFull. rewrite length_firstn.
  replace (Nat.min size (length data) =? size)%nat with true
    by (symmetry; apply Nat.eqb_eq; lia).
  reflexivity.
Qed.

Lemma ReadFull_short size data :
  (length data < size)%nat ->
  ReadFull size data
  = (data, Some (match data with [] => EOF | _ => ErrUnexpectedEOF end), []).
Proof.
  intros Hlt. unfold ReadFull.
  rewrite firstn_all2 by lia. rewrite skipn_all2 by lia.
  replace (length data =? size)%nat with false by (symmetry; apply Nat.eqb_neq; lia).
  destruct data; reflexivity.
Qed.

(** When the stream holds no more leaves than are asked for, the
    reader's loop pushes every one of them and empties the stream. *)
Lemma readerLoop_all size : forall fuel i n data tree,
  (1 <= size)%nat -> (length data < fuel)%nat ->
  Z.of_nat (length (chunks fuel size data)) <= n - i ->
  readerLoop fuel i n size data tree
  = (pushAll tree (map leafTotal (chunks fuel size data)), []).
Proof.
  induction fuel as [| fuel IH]; intros i n data tree Hsz Hfuel Hcount; [lia |].
  cbn [readerLoop].
  destruct data as [| d ds].
  - rewrite chunks_nil. cbn [map pushAll fold_left].
    destruct (i <? n); [| reflexivity].
    rewrite ReadFull_short by (cbn; lia). reflexivity.
  - cbn [chunks] in *. cbn [length] in Hcount.
    replace (i <? n) with true by (symmetry; apply Z.ltb_lt; lia).
    destruct (Nat.le_gt_cases size (length (d :: ds))) as [Hfull | Hshort].
    + rewrite ReadFull_full by exact Hfull.
      assert (Hgot : firstn size (d :: ds) = d :: firstn (size - 1) ds).
      { destruct size; [lia |]. cbn. rewrite Nat.sub_0_r. reflexivity. }
      rewrite Hgot at 1.
      rewrite IH.
      * cbn [map]. rewrite Hgot. reflexivity.
      * exact Hsz.
      * rewrite length_skipn. cbn [length] in *. lia.
      * lia.
    + rewrite ReadFull_short by exact Hshort.
      rewrite firstn_all2 by lia. rewrite skipn_all2 by lia.
      rewrite chunks_nil. reflexivity.
Qed.

Lemma readerLoop_nonempty size : forall fuel i n data tree,
  tree <> [] -> fst (readerLoop fuel i n size data tree) <> [].
Proof.
  induction fuel as [| fuel IH]; intros i n data tree Hne; cbn [readerLoop]; [exact Hne |].
  destruct (i <? n); [| exact Hne].
  destruct (ReadFull size data) as [[got err] rest].
  assert (Hne' : match got with [] => tree | _ => PushLeaf got tree end <> []).
  { destruct got; [exact Hne | apply joinAllSubTrees_nonempty]. }
  destruct err; [exact Hne' | apply IH; exact Hne'].
Qed.

Lemma Root_nonempty t : t <> [] -> exists root, Root t = Some root.
Proof. destruct t; [contradiction | intros _; eexists; reflexivity]. Qed.

Lemma pushAll_keeps_nonempty leaves : forall st, st <> [] -> pushAll st leaves <> [].
Proof.
  induction leaves as [| x rest IH]; intros st Hne; [exact Hne |].
  change (pushAll st (x :: rest)) with (pushAll (joinAllSubTrees (mkSubTree 0 x) st) rest).
  apply IH. apply joinAllSubTrees_nonempty.
Qed.

Lemma pushAll_nonempty leaves st : leaves <> [] -> pushAll st leaves <> [].
Proof.
  destruct leaves as [| x rest]; [contradiction | intros _].
  change (pushAll st (x :: rest)) with (pushAll (joinAllSubTrees (mkSubTree 0 x) st) rest).
  apply pushAll_keeps_nonempty. apply joinAllSubTrees_nonempty.
Qed.

Lemma readerLoop_first size : forall f i n data,
  (1 <= size)%nat -> data <> [] -> i < n ->
  fst (readerLoop (S f) i n size data NewTree) <> [].
Proof.
  intros f i n data Hsz Hdata Hlt. cbn [readerLoop].
  replace (i <? n) with true by (symmetry; apply Z.ltb_lt; lia).
  destruct (ReadFull size data) as [[got err] rest] eqn:ER.
  assert (Hgot : got <> []).
  { destruct data as [| d ds]; [contradiction |].
    destruct size as [| size]; [lia |].
    unfold ReadFull in ER. cbn [firstn] in ER.
    destruct (length (d :: firstn size ds) =? S size)%nat;
      [| destruct (length (d :: firstn size ds) =? 0)%nat];
      injection ER as <- _ _; discriminate. }
  assert (Hne : match got with [] => NewTree | _ => PushLeaf got NewTree end <> []).
  { destruct got; [contradiction | apply joinAllSubTrees_nonempty]. }
  destruct err as [e |]; [exact Hne | apply readerLoop_nonempty; exact Hne].
Qed.

(** The reader's answer is an error only for an empty stream. *)
Lemma Reader_GetSubtreeRoot_EOF n rsh :
  1 <= n -> (1 <= leafSize rsh)%nat ->
  (fst (Reader_GetSubtreeRoot n rsh) = Err EOF <-> r rsh = []).
Proof.
  intros Hn Hsz. destruct rsh as [data size]. cbn [r leafSize] in *.
  unfold Reader_GetSubtreeRoot. cbn [r leafSize].
  destruct size as [| size]; [lia |].
  split.
  - intros Herr. destruct data as [| d ds]; [reflexivity | exfalso].
    pose proof (readerLoop_first (S size) (length (d :: ds)) 0 n (d :: ds)
                                 ltac:(lia) ltac:(discriminate) ltac:(lia)) as Hne.
    destruct (readerLoop (S (length (d :: ds))) 0 n (S size) (d :: ds) NewTree)
      as [tree rest].
    cbn [fst] in Hne. destruct (Root_nonempty _ Hne) as [root Hroot].
    rewrite Hroot in Herr. discriminate.
  - intros ->. cbn [readerLoop length].
    replace (0 <? n) with true by (symmetry; apply Z.ltb_lt; lia).
    rewrite ReadFull_short by (cbn; lia). reflexivity.
Qed.

(** With fewer leaves in the stream than asked for, the reader gives
    the root of all of them. *)
Lemma Reader_short_stream_root n rsh :
  (1 <= leafSize rsh)%nat -> r rsh <> [] ->
  Z.of_nat (length (streamLeaves rsh)) < n ->
  Reader_GetSubtreeRoot n rsh
  = (Ok (merkleRoot (map leafTotal (streamLeaves rsh))), mkReader [] (leafSize rsh)).
Proof.
  intros Hsz Hne Hcount. destruct rsh as [data size].
  unfold streamLeaves in *. cbn [r leafSize] in *.
  unfold Reader_GetSubtreeRoot. cbn [r leafSize].
  destruct size as [| size]; [lia |].
  rewrite (chunks_enough (S size) (length data) (S (length data)) data) in * by lia.
  rewrite readerLoop_all by lia.
  unfold merkleRoot.
  destruct data as [| d ds]; [contradiction |].
  assert (Hst : pushAll NewTree (map leafTotal (chunks (S (length (d :: ds))) (S size) (d :: ds)))
                <> []).
  { apply pushAll_nonempty. cbn [chunks map]. discriminate. }
  destruct (Root_nonempty _ Hst) as [root Hroot]. rewrite Hroot. reflexivity.
Qed.

(** The fuel [Reader_GetSubtreeRoot] gives its loop is enough: more
    fuel than there are bytes never changes the result. *)
Lemma readerLoop_fuel size : forall f g i n data tree,
  (1 <= size)%nat -> (length data < f)%nat -> (length data < g)%nat ->
  readerLoop f i n size data tree = readerLoop g i n size data tree.
Proof.
  induction f as [| f IH]; intros g i n data tree Hsz Hf Hg; [lia |].
  destruct g as [| g]; [lia |].
  cbn [readerLoop]. destruct (i <? n); [| reflexivity].
  destruct (Nat.le_gt_cases size (length data)) as [Hfull | Hshort].
  - rewrite ReadFull_full by exact Hfull.
    apply IH; try assumption; rewrite length_skipn; lia.
  - rewrite ReadFull_short by exact Hshort. reflexivity.
Qed.

End SourceFacts.

Lemma Reader_GetSubtreeRoot_form {H : Hasher} n rsh :
  fst (Reader_GetSubtreeRoot n rsh) = Err EOF \/
  exists root, fst (Reader_GetSubtreeRoot n rsh) = Ok root.
Proof.
  unfold Reader_GetSubtreeRoot.
  destruct (match leafSize rsh with
            | O => (NewTree, r rsh)
            | S _ => readerLoop (S (length (r rsh))) 0 n (leafSize rsh) (r rsh) NewTree
            end) as [tree rest].
  destruct (Root tree) as [root |]; [right; exists root; reflexivity | left; reflexivity].
Qed.

(** C3 (amended).  For a request of [n >= 1] leaves, and a positive
    leaf size for the stream: both sources fail with [io.EOF] when no
    leaf is left and succeed when one is, and with some but fewer than
    [n] leaves left they return the root of the tree of all the leaves
    that are left and leave the source empty. *)
Theorem GetSubtreeRoot_boundary {H : Hasher}
        (n : Z) (csh : CachedSubtreeRoot) (rsh : SubtreeRootReader) :
  1 <= n -> (1 <= leafSize rsh)%nat ->
  ((leafRoots csh = [] -> fst (GetSubtreeRoot n csh) = Err EOF) /\
   (leafRoots csh <> [] -> exists root, fst (GetSubtreeRoot n csh) = Ok root) /\
   (leafRoots csh <> [] -> Z.of_nat (length (leafRoots csh)) < n ->
    GetSubtreeRoot n csh = (Ok (merkleRoot (leafRoots csh)), mkCached []))) /\
  ((r rsh = [] -> fst (GetSubtreeRoot n rsh) = Err EOF) /\
   (r rsh <> [] -> exists root, fst (GetSubtreeRoot n rsh) = Ok root) /\
   (r rsh <> [] -> Z.of_nat (length (streamLeaves rsh)) < n ->
    GetSubtreeRoot n rsh
    = (Ok (merkleRoot (map leafTotal (streamLeaves rsh))), mkReader [] (leafSize rsh)))).
Proof.
  intros Hn Hsz. split; [split; [| split] | split; [| split]].
  - intros Hnil. cbn [GetSubtreeRoot CachedSubtreeRoot_SubtreeRoot].
    unfold Cached_GetSubtreeRoot. rewrite Hnil. reflexivity.
  - intros Hne. destruct csh as [leaves]. cbn [leafRoots] in Hne.
    cbn [GetSubtreeRoot CachedSubtreeRoot_SubtreeRoot].
    rewrite Cached_GetSubtreeRoot_spec by exact Hne. eexists. reflexivity.
  - intros Hne Hlen. destruct csh as [leaves]. cbn [leafRoots] in *.
    cbn [GetSubtreeRoot CachedSubtreeRoot_SubtreeRoot].
    rewrite Cached_GetSubtreeRoot_spec by exact Hne.
    rewrite firstn_all2 by lia. rewrite skipn_all2 by lia. reflexivity.
  - intros Hnil. apply (Reader_GetSubtreeRoot_EOF n rsh Hn Hsz). exact Hnil.
  - intros Hne. cbn [GetSubtreeRoot SubtreeRootReader_SubtreeRoot].
    destruct (Reader_GetSubtreeRoot_form n rsh) as [Herr | Hok]; [| exact Hok].
    apply (Reader_GetSubtreeRoot_EOF n rsh Hn Hsz) in Herr. contradiction.
  - intros Hne Hlen. apply Reader_short_stream_root; assumption.
Qed.

Lemma GetSubtreeRoot_boundary_witness :
  let csh := mkCached [[x01]; [x02]; [x03]] in
  let rsh := mkReader [x01; x02; x03; x04; x05] 2 in
  GetSubtreeRoot (SubtreeRoot := @CachedSubtreeRoot_SubtreeRoot tagHasher) 4 csh
  = (Ok (merkleRoot (H := tagHasher) (leafRoots csh)), mkCached []) /\
  GetSubtreeRoot (SubtreeRoot := @SubtreeRootReader_SubtreeRoot tagHasher) 4 rsh
  = (Ok (merkleRoot (H := tagHasher) (map (leafTotal (Hasher := tagHasher)) (streamLeaves rsh))),
     mkReader [] 2).
Proof.
  intros csh rsh.
  destruct (GetSubtreeRoot_boundary (H := tagHasher) 4 csh rsh) as [[_ [_ Hc]] [_ [_ Hr]]].
  - lia.
  - simpl. lia.
  - split.
    + apply Hc; [discriminate | simpl; lia].
    + apply Hr; [discriminate | simpl; lia].
Defined.

(** C3 as stated fails for a request of no leaves: the stream source
    answers [io.EOF] although a leaf is left. *)
Lemma GetSubtreeRoot_zero_request :
  ~ (forall (n : Z) (rsh : SubtreeRootReader),
        fst (GetSubtreeRoot (SubtreeRoot := @SubtreeRootReader_SubtreeRoot tagHasher) n rsh)
        = Err EOF <-> r rsh = []).
Proof.
  intros Hall. destruct (Hall 0 (mkReader [x01] 1)) as [Hl _].
  specialize (Hl eq_refl). discriminate Hl.
Qed.

(** Concrete runs of the upload handler. *)

Definition demoRevision : StorageContractRevision :=
  mkRevision [x09] 1 0 [] 10 20 [mkCharge 1 100; mkCharge 2 50]
             [mkCharge 1 100; mkCharge 2 40] [] [].

Definition demoResponsibility : StorageResponsibility := mkSr [] [demoRevision].

Definition demoUploadRequest : UploadRequest :=
  mkUploadRequest [x09] [mkAction UploadActionAppend [x07; x08]] 2 [90; 60] [90; 30].

Lemma constructAndVerifyNewRevision_four_outputs_witness :
  exists newRev nd',
    constructAndVerifyNewRevision (H := tagHasher) 4194304 (fun _ _ _ => 0)
                                  (fun _ _ _ _ => None) 7 zeroNd
                                  demoResponsibility demoUploadRequest = Ok (newRev, nd') /\
    length (NewValidProofOutputs newRev) = 4%nat /\
    length (NewMissedProofOutputs newRev) = 4%nat /\
    firstn 2 (NewValidProofOutputs newRev) = NewValidProofOutputs demoRevision /\
    firstn 2 (NewMissedProofOutputs newRev) = NewMissedProofOutputs demoRevision.
Proof.
  eexists. eexists. split; [reflexivity |].
  eapply (constructAndVerifyNewRevision_four_outputs (H := tagHasher) 4194304
            (fun _ _ _ => 0) (fun _ _ _ _ => None) 7 zeroNd _
            demoResponsibility demoUploadRequest demoRevision);
    reflexivity.
Defined.

Lemma append_to_empty_file_witness :
  exists nd,
    parseAndHandleUploadActions 4194304 (fun data => x00 :: data) demoUploadRequest zeroNd
                                demoResponsibility 3 = Ok nd /\
    newRoots nd = [[x00; x07; x08]] /\
    NewFileSize (updateRevisionFileSize 4194304 demoRevision demoUploadRequest) = 4194304 /\
    NewFileMerkleRoot (snd (calcAndUpdateRevisionMerkleRoot (H := tagHasher) nd demoRevision))
    = [x00; x07; x08] /\
    (forall newRev nd',
        constructAndVerifyNewRevision (H := tagHasher) 4194304 (fun _ _ _ => 0)
                                      (fun _ _ _ _ => None) 7 nd
                                      demoResponsibility demoUploadRequest = Ok (newRev, nd') ->
        NewFileMerkleRoot newRev = [x00; x07; x08] /\ NewFileSize newRev = 4194304).
Proof.
  apply (append_to_empty_file (H := tagHasher) 4194304 (fun data => x00 :: data)
           (fun _ _ _ => 0) (fun _ _ _ _ => None) [x07; x08] 3 7
           demoResponsibility demoUploadRequest demoRevision);
    try reflexivity.
  rewrite two64_eq. lia.
Defined.

(** ** The round trip of the diff proof *)

Lemma firstn_sum {A : Type} (a b : nat) : forall l : list A,
  firstn (a + b) l = firstn a l ++ firstn b (skipn a l).
Proof.
  induction a as [| a IH]; intros l; [reflexivity |].
  destruct l as [| x l]; [cbn; rewrite firstn_nil; reflexivity |].
  cbn. rewrite IH. reflexivity.
Qed.

Lemma bytes_eqb_refl (a : bytes) : bytes_eqb a a = true.
Proof. unfold bytes_eqb. destruct (list_eq_dec byte_eq_dec a a); [reflexivity | contradiction]. Qed.

(** Ranges in order from [lo] on: each is non-empty and starts no
    earlier than the one before it ends. *)
Fixpoint sortedFrom (lo : Z) (limits : list SubTreeLimit) : Prop :=
  match limits with
  | [] => True
  | r :: rest => lo <= Left r /\ Left r < Right r /\ sortedFrom (Right r) rest
  end.

(** Where the walk over the ranges ends. *)
Fixpoint lastRight (lo : Z) (limits : list SubTreeLimit) : Z :=
  match limits with
  | [] => lo
  | r :: rest => lastRight (Right r) rest
  end.

Lemma checkLimitListFrom_sorted limits : forall prev,
  checkLimitListFrom prev limits = true ->
  sortedFrom (match prev with Some p => Right p | None => 0 end) limits.
Proof.
  induction limits as [| r rest IH]; intros prev Hc; [exact I |].
  cbn [checkLimitListFrom] in Hc.
  destruct ((Left r <? 0) || (Left r >=? Right r)) eqn:E; [discriminate |].
  apply orb_false_iff in E. destruct E as [E1 E2].
  apply Z.ltb_ge in E1.
  assert (Hlt : Left r < Right r) by (destruct (Z.geb_spec (Left r) (Right r)); [discriminate | lia]).
  destruct prev as [p |].
  - destruct (Z.gtb_spec (Right p) (Left r)) as [| Hle]; [discriminate |].
    cbn [sortedFrom]. split; [exact Hle | split; [exact Hlt |]].
    apply (IH (Some r)). exact Hc.
  - cbn [sortedFrom]. split; [exact E1 | split; [exact Hlt |]].
    apply (IH (Some r)). exact Hc.
Qed.

Lemma lastRight_bounds limits : forall lo n,
  sortedFrom lo limits -> Forall (fun r => Right r <= n) limits -> lo <= n ->
  lo <= lastRight lo limits <= n.
Proof.
  induction limits as [| r rest IH]; intros lo n Hs Hb Hlo; cbn [lastRight]; [lia |].
  destruct Hs as [H1 [H2 H3]]. inversion Hb; subst.
  specialize (IH (Right r) n H3 ltac:(assumption) ltac:(assumption)). lia.
Qed.

Lemma lastRight_positive limits lo :
  limits <> [] -> 0 <= lo -> sortedFrom lo limits -> 1 <= lastRight lo limits.
Proof.
  destruct limits as [| r rest]; [contradiction | intros _ Hlo [H1 [H2 H3]]].
  cbn [lastRight].
  assert (Hmono : forall l a, sortedFrom a l -> a <= lastRight a l).
  { induction l as [| x l IHl]; intros a Hs; cbn [lastRight]; [lia |].
    destruct Hs as [Ha [Hb Hc]]. specialize (IHl _ Hc). lia. }
  specialize (Hmono rest (Right r) H3). lia.
Qed.

Section RoundTrip.
Context {H : Hasher}.
Variable leaves : list bytes.

Let n : Z := Z.of_nat (length leaves).

(** The verifier's tree after the leaves below [idx]. *)
Definition stackAt (idx : Z) : Tree := pushAll NewTree (firstn (Z.to_nat idx) leaves).

(** The prover's source at leaf [idx]. *)
Definition sourceAt (idx : Z) : CachedSubtreeRoot := mkCached (skipn (Z.to_nat idx) leaves).

(** The leaves from [a] up to [b]. *)
Definition segment (a b : Z) : list bytes :=
  firstn (Z.to_nat (b - a)) (skipn (Z.to_nat a) leaves).

Lemma stackAt_shape idx : 0 <= idx <= n -> shape (stackAt idx) idx.
Proof.
  intros Hidx. unfold stackAt.
  pose proof (pushAll_nil_shape (firstn (Z.to_nat idx) leaves)) as Hs.
  rewrite length_firstn in Hs. unfold n in Hidx.
  replace (Z.of_nat (Nat.min (Z.to_nat idx) (length leaves))) with idx in Hs by lia.
  exact Hs.
Qed.

Lemma segment_length a b : 0 <= a <= b -> b <= n -> length (segment a b) = Z.to_nat (b - a).
Proof.
  intros Ha Hb. unfold segment, n in *. rewrite length_firstn, length_skipn. lia.
Qed.

Lemma stackAt_segment a b :
  0 <= a <= b -> stackAt b = pushAll (stackAt a) (segment a b).
Proof.
  intros Hab. unfold stackAt, segment. rewrite pushAll_app.
  rewrite <- firstn_sum. f_equal. f_equal. lia.
Qed.

Lemma sourceAt_skip a b :
  0 <= a <= b ->
  skipn (Z.to_nat (b - a)) (skipn (Z.to_nat a) leaves) = skipn (Z.to_nat b) leaves.
Proof.
  intros Hab. rewrite skipn_skipn. f_equal. lia.
Qed.

Lemma sourceAt_nonempty idx : 0 <= idx < n -> skipn (Z.to_nat idx) leaves <> [].
Proof.
  intros Hidx Hnil. apply (f_equal (@length bytes)) in Hnil.
  rewrite length_skipn in Hnil. cbn in Hnil. unfold n in Hidx. lia.
Qed.

(** One aligned block that lies within the leaves: the source yields
    its root, and the verifier's tree takes that root as one subtree. *)
Lemma block_step idx k :
  0 <= idx -> 0 <= k -> idx + 2 ^ k <= n -> (2 ^ k | idx) ->
  Cached_GetSubtreeRoot (2 ^ k) (sourceAt idx)
  = (Ok (merkleRoot (segment idx (idx + 2 ^ k))), sourceAt (idx + 2 ^ k)) /\
  PushSubTree k (merkleRoot (segment idx (idx + 2 ^ k))) (stackAt idx)
  = Ok (stackAt (idx + 2 ^ k)).
Proof.
  intros Hidx Hk Hfit Hdiv.
  assert (Hpos : 0 < 2 ^ k) by (apply Z.pow_pos_nonneg; lia).
  split.
  - unfold sourceAt. rewrite Cached_GetSubtreeRoot_spec by (apply sourceAt_nonempty; lia).
    unfold segment. replace (idx + 2 ^ k - idx) with (2 ^ k) by lia.
    rewrite <- (sourceAt_skip idx (idx + 2 ^ k)) by lia.
    replace (idx + 2 ^ k - idx) with (2 ^ k) by lia. reflexivity.
  - assert (Hlen : length (segment idx (idx + 2 ^ k)) = (2 ^ Z.to_nat k)%nat).
    { rewrite segment_length by lia.
      replace (idx + 2 ^ k - idx) with (2 ^ k) by lia.
      rewrite Z2Nat.inj_pow by lia. reflexivity. }
    assert (Hall : Forall (fun s => k <= height s) (stackAt idx)).
    { apply shape_divide with (n := idx); [apply stackAt_shape; lia | exact Hk | exact Hdiv]. }
    assert (Hroot : merkleRoot (segment idx (idx + 2 ^ k))
                    = perfectRoot (Z.to_nat k) (segment idx (idx + 2 ^ k))).
    { unfold merkleRoot. rewrite (pushAll_block (Z.to_nat k)) by (exact Hlen || constructor).
      reflexivity. }
    rewrite PushSubTree_ok by exact Hall.
    rewrite (stackAt_segment idx (idx + 2 ^ k)) by lia.
    rewrite (pushAll_block (Z.to_nat k)).
    + rewrite Hroot, Z2Nat.id by lia. reflexivity.
    + exact Hlen.
    + rewrite Z2Nat.id by lia. exact Hall.
Qed.

Hypothesis leaves_fit : n < two63.

(** A gap between excluded ranges: the prover walks it in aligned
    blocks and the verifier, fed the hashes of those blocks, rebuilds
    the tree over the same leaves. *)
Lemma gap_roundtrip (m : nat) : forall idx e fuel,
  0 <= idx <= e -> e <= n -> e - idx <= Z.of_nat m -> (m < fuel)%nat ->
  exists P,
    (forall acc,
        consumeUntil (SR := CachedSubtreeRoot_SubtreeRoot) fuel e idx acc (sourceAt idx)
        = Some (Ok tt, (e, acc ++ P, sourceAt e))) /\
    (forall rest,
        checkConsumeUntil e idx (stackAt idx) (P ++ rest) = (Ok tt, (e, stackAt e, rest))).
Proof.
  induction m as [| m IH]; intros idx e fuel Hidx He Hm Hfuel;
    (destruct fuel as [| fuel]; [lia |]).
  - assert (idx = e) by lia. subst e. exists []. split.
    + intros acc. cbn [consumeUntil]. rewrite Z.eqb_refl, app_nil_r. reflexivity.
    + intros rest. cbn [app]. destruct rest; cbn [checkConsumeUntil]; [reflexivity |].
      rewrite Z.eqb_refl. reflexivity.
  - destruct (Z.eq_dec idx e) as [-> | Hne].
    + exists []. split.
      * intros acc. cbn [consumeUntil]. rewrite Z.eqb_refl, app_nil_r. reflexivity.
      * intros rest. cbn [app]. destruct rest; cbn [checkConsumeUntil]; [reflexivity |].
        rewrite Z.eqb_refl. reflexivity.
    + assert (Hlt : 0 <= idx < e) by lia.
      assert (He64 : e < two64) by (rewrite two64_eq; rewrite two63_eq in leaves_fit; lia).
      assert (Hex : ~ (idx = 0 /\ two63 <= e)) by lia.
      pose proof (adjacentExp_range idx e Hlt He64) as Hrange.
      pose proof (adjacentExp_le_62 idx e Hlt He64 Hex) as H62.
      pose proof (adjacentExp_fits idx e Hlt) as Hfit.
      pose proof (adjacentExp_divide idx e Hlt) as Hdiv.
      pose proof (advance idx e Hlt He64) as Hadv.
      pose proof (height_of_size idx e Hlt He64) as Hheight.
      assert (Hsize : adjacentSubtreeSize idx e = 2 ^ adjacentExp idx e).
      { rewrite adjacentSubtreeSize_shl1 by assumption. apply shl1_small. lia. }
      assert (Hpos : 0 < 2 ^ adjacentExp idx e) by (apply Z.pow_pos_nonneg; lia).
      destruct (block_step idx (adjacentExp idx e)) as [Hget Hpush]; try lia; try assumption.
      destruct (IH (idx + 2 ^ adjacentExp idx e) e fuel) as [P [Hc Hv]]; try lia.
      exists (merkleRoot (segment idx (idx + 2 ^ adjacentExp idx e)) :: P). split.
      * intros acc. cbn [consumeUntil].
        replace (idx =? e) with false by (symmetry; apply Z.eqb_neq; exact Hne).
        cbn [GetSubtreeRoot CachedSubtreeRoot_SubtreeRoot].
        rewrite Hadv. rewrite Hsize at 1. rewrite Hget. rewrite Hc.
        rewrite <- app_assoc. reflexivity.
      * intros rest. cbn [app checkConsumeUntil].
        replace (idx =? e) with false by (symmetry; apply Z.eqb_neq; exact Hne).
        rewrite Hheight, Hadv, Hpush. apply Hv.
Qed.

(** The last stretch, from the end of the last range to the end of
    the leaves: the prover stops at [io.EOF], and the verifier's tree
    has the root of the whole leaf sequence. *)
Lemma drain_roundtrip (m : nat) : forall idx fuel,
  1 <= idx <= n -> n - idx <= Z.of_nat m -> (m + 1 < fuel)%nat ->
  exists P,
    (forall acc, exists idx' sr',
        consumeUntil (SR := CachedSubtreeRoot_SubtreeRoot) fuel MaxUint64 idx acc (sourceAt idx)
        = Some (Err EOF, (idx', acc ++ P, sr'))) /\
    (exists idx' tree',
        checkConsumeUntil MaxUint64 idx (stackAt idx) P = (Ok tt, (idx', tree', [])) /\
        orNil (Root tree') = merkleRoot leaves).
Proof.
  assert (Hend : forall idx fuel, idx = n -> 1 <= idx ->
            exists P,
              (forall acc, exists idx' sr',
                  consumeUntil (SR := CachedSubtreeRoot_SubtreeRoot) (S fuel) MaxUint64 idx acc
                               (sourceAt idx)
                  = Some (Err EOF, (idx', acc ++ P, sr'))) /\
              (exists idx' tree',
                  checkConsumeUntil MaxUint64 idx (stackAt idx) P = (Ok tt, (idx', tree', [])) /\
                  orNil (Root tree') = merkleRoot leaves)).
  { intros idx fuel -> Hn1. exists []. split.
    - intros acc. exists n, (sourceAt n). cbn [consumeUntil].
      replace (n =? MaxUint64) with false
        by (symmetry; apply Z.eqb_neq; unfold MaxUint64;
            rewrite two64_eq; rewrite two63_eq in leaves_fit; lia).
      cbn [GetSubtreeRoot CachedSubtreeRoot_SubtreeRoot].
      unfold sourceAt, Cached_GetSubtreeRoot. cbn [leafRoots].
      unfold n. rewrite Nat2Z.id, skipn_all, app_nil_r. reflexivity.
    - exists n, (stackAt n). split; [reflexivity |].
      unfold stackAt, merkleRoot, n. rewrite Nat2Z.id, firstn_all. reflexivity. }
  induction m as [| m IH]; intros idx fuel Hidx Hm Hfuel;
    (destruct fuel as [| fuel]; [lia |]).
  - apply Hend; lia.
  - destruct (Z.eq_dec idx n) as [Heq | Hne]; [apply Hend; lia |].
    assert (Hlt : 0 <= idx < MaxUint64)
      by (unfold MaxUint64; rewrite two64_eq; rewrite two63_eq in leaves_fit; lia).
    assert (He64 : MaxUint64 < two64) by (unfold MaxUint64; lia).
    assert (Hex : ~ (idx = 0 /\ two63 <= MaxUint64)) by lia.
    pose proof (adjacentExp_range idx MaxUint64 Hlt He64) as Hrange.
    pose proof (adjacentExp_le_62 idx MaxUint64 Hlt He64 Hex) as H62.
    pose proof (adjacentExp_divide idx MaxUint64 Hlt) as Hdiv.
    pose proof (advance idx MaxUint64 Hlt He64) as Hadv.
    pose proof (height_of_size idx MaxUint64 Hlt He64) as Hheight.
    set (k := adjacentExp idx MaxUint64) in *.
    assert (Hsize : adjacentSubtreeSize idx MaxUint64 = 2 ^ k).
    { rewrite adjacentSubtreeSize_shl1 by assumption. apply shl1_small. lia. }
    assert (Hpos : 0 < 2 ^ k) by (apply Z.pow_pos_nonneg; lia).
    assert (Hne64 : (idx =? MaxUint64) = false) by (apply Z.eqb_neq; lia).
    destruct (Z_le_gt_dec (idx + 2 ^ k) n) as [Hin | Hout].
    + destruct (block_step idx k) as [Hget Hpush]; try lia; try assumption.
      destruct (IH (idx + 2 ^ k) fuel) as [P [Hc Hv]]; try lia.
      exists (merkleRoot (segment idx (idx + 2 ^ k)) :: P). split.
      * intros acc.
        destruct (Hc (acc ++ [merkleRoot (segment idx (idx + 2 ^ k))])) as [idx' [sr' Hc']].
        exists idx', sr'. cbn [consumeUntil]. rewrite Hne64.
        cbn [GetSubtreeRoot CachedSubtreeRoot_SubtreeRoot].
        rewrite Hadv. rewrite Hsize at 1. rewrite Hget.
        rewrite Hc', <- app_assoc. reflexivity.
      * destruct Hv as [idx' [tree' [Hv Hroot]]].
        exists idx', tree'. split; [| exact Hroot].
        cbn [checkConsumeUntil]. rewrite Hne64, Hheight, Hadv, Hpush. exact Hv.
    + (* the short block at the end *)
      set (rest := skipn (Z.to_nat idx) leaves).
      assert (Hrest_len : Z.of_nat (length rest) = n - idx)
        by (unfold rest, n in *; rewrite length_skipn; lia).
      assert (Hrest_ne : rest <> []) by (apply sourceAt_nonempty; lia).
      assert (Hall : Forall (fun s => k <= height s) (stackAt idx)).
      { apply shape_divide with (n := idx); [apply stackAt_shape; lia | lia | exact Hdiv]. }
      assert (Hget : Cached_GetSubtreeRoot (2 ^ k) (sourceAt idx)
                     = (Ok (merkleRoot rest), mkCached [])).
      { unfold sourceAt. fold rest. rewrite Cached_GetSubtreeRoot_spec by exact Hrest_ne.
        rewrite firstn_all2 by lia. rewrite skipn_all2 by lia. reflexivity. }
      exists [merkleRoot rest]. split.
      * intros acc. exists (idx + 2 ^ k), (mkCached []).
        destruct fuel as [| fuel]; [lia |].
        cbn [consumeUntil]. rewrite Hne64.
        cbn [GetSubtreeRoot CachedSubtreeRoot_SubtreeRoot].
        rewrite Hadv. rewrite Hsize at 1. rewrite Hget.
        replace (idx + 2 ^ k =? MaxUint64) with false.
        -- reflexivity.
        -- symmetry. apply Z.eqb_neq.
           assert (2 ^ k <= 2 ^ 62) by (apply Z.pow_le_mono_r; lia).
           unfold MaxUint64. rewrite two64_eq. rewrite two63_eq in leaves_fit.
           change (2 ^ 62) with 4611686018427387904 in *. lia.
      * exists (idx + 2 ^ k), (joinAllSubTrees (mkSubTree k (merkleRoot rest)) (stackAt idx)).
        split.
        -- cbn [checkConsumeUntil]. rewrite Hne64, Hheight, Hadv.
           rewrite PushSubTree_ok by exact Hall. reflexivity.
        -- assert (Hsplit : pushAll NewTree leaves = pushAll [] rest ++ stackAt idx).
           { rewrite <- (pushAll_small rest (stackAt idx) k) by (lia || exact Hall).
             unfold stackAt, rest. rewrite pushAll_app, firstn_skipn. reflexivity. }
           rewrite Root_joinAllSubTrees.
           change (merkleRoot leaves) with (orNil (Root (pushAll NewTree leaves))).
           rewrite Hsplit.
           rewrite Root_app by (apply pushAll_nonempty; exact Hrest_ne).
           reflexivity.
Qed.

Lemma toInt64_small z : - two63 <= z < two63 -> toInt64 z = z.
Proof.
  intros Hz. unfold toInt64. rewrite Z.mod_small; [lia |].
  rewrite two64_eq. rewrite two63_eq in *. lia.
Qed.

Lemma pushLeafHashes_cached seg : forall tree m others,
  shape tree m ->
  pushLeafHashes (length seg) (mkLeafCached (seg ++ others)) tree
  = (Ok (pushAll tree seg), mkLeafCached others).
Proof.
  induction seg as [| x seg IH]; intros tree m others Hs; [reflexivity |].
  cbn [length app pushLeafHashes GetLeafRoot LeafRootCached_LeafRoot].
  unfold LeafCached_GetLeafRoot. cbn [cachedLeafRoots].
  rewrite PushSubTree_ok by (eapply shape_nonneg; exact Hs).
  rewrite (IH _ (m + 2 ^ height (mkSubTree 0 x))); [reflexivity |].
  apply joinAllSubTrees_shape; [exact Hs | cbn; lia |].
  cbn [height]. eapply shape_nonneg; exact Hs.
Qed.

(** The walk over the ranges: gaps are proved block by block, the
    ranges themselves are skipped by the prover and filled in by the
    verifier from the claimed leaves. *)
Lemma limits_roundtrip limits : forall idx fuel,
  0 <= idx <= n -> sortedFrom idx limits -> Forall (fun r => Right r <= n) limits ->
  (length leaves < fuel)%nat ->
  exists P,
    (forall acc,
        proofOverLimits (SR := CachedSubtreeRoot_SubtreeRoot) fuel limits idx acc (sourceAt idx)
        = Some (Ok tt, (lastRight idx limits, acc ++ P, sourceAt (lastRight idx limits)))) /\
    (forall rest others,
        checkOverLimits limits (mkLeafCached (claimedLeaves limits leaves ++ others))
                        idx (stackAt idx) (P ++ rest)
        = Ok (lastRight idx limits, stackAt (lastRight idx limits), rest)).
Proof.
  induction limits as [| r limits IH]; intros idx fuel Hidx Hsorted Hbound Hfuel.
  - exists []. split.
    + intros acc. cbn. rewrite app_nil_r. reflexivity.
    + intros rest others. reflexivity.
  - destruct Hsorted as [Hlo [Hlr Hsorted]].
    inversion Hbound as [| ? ? Hr Hbound']; subst.
    destruct (gap_roundtrip (Z.to_nat (Left r - idx)) idx (Left r) fuel) as [P1 [Hc1 Hv1]];
      try (unfold n in *; lia).
    destruct (IH (Right r) fuel) as [P2 [Hc2 Hv2]]; try assumption; try lia.
    assert (Hd : toInt64 (wrap64 (Right r - Left r)) = Right r - Left r).
    { rewrite wrap64_small by (rewrite two64_eq; rewrite two63_eq in leaves_fit; lia).
      apply toInt64_small. rewrite two63_eq in *. lia. }
    assert (Hw : wrap64 (Left r + wrap64 (Right r - Left r)) = Right r).
    { rewrite (wrap64_small (Right r - Left r))
        by (rewrite two64_eq; rewrite two63_eq in leaves_fit; lia).
      replace (Left r + (Right r - Left r)) with (Right r) by lia.
      apply wrap64_small. rewrite two64_eq; rewrite two63_eq in leaves_fit; lia. }
    exists (P1 ++ P2). split.
    + intros acc. cbn [proofOverLimits lastRight]. rewrite Hc1.
      cbn [Skip CachedSubtreeRoot_SubtreeRoot]. unfold Cached_Skip.
      rewrite Hd, Hw. unfold sourceAt at 1 2 3. cbn [leafRoots].
      replace (Right r - Left r >? Z.of_nat (length (skipn (Z.to_nat (Left r)) leaves)))
        with false
        by (symmetry; rewrite length_skipn; unfold n in *;
            destruct (Z.gtb_spec (Right r - Left r)
                                 (Z.of_nat (length leaves - Z.to_nat (Left r))));
            [lia | reflexivity]).
      replace (Right r - Left r <? 0) with false by (symmetry; apply Z.ltb_ge; lia).
      rewrite sourceAt_skip by lia. fold (sourceAt (Right r)).
      rewrite Hc2, app_assoc. reflexivity.
    + intros rest others. cbn [checkOverLimits lastRight].
      rewrite <- app_assoc, Hv1, Hw.
      change (claimedLeaves (r :: limits) leaves)
        with (segment (Left r) (Right r) ++ claimedLeaves limits leaves).
      rewrite <- (segment_length (Left r) (Right r)) by lia.
      rewrite <- app_assoc.
      rewrite (pushLeafHashes_cached _ _ (Left r)) by (apply stackAt_shape; lia).
      rewrite <- (stackAt_segment (Left r) (Right r)) by lia.
      apply Hv2.
Qed.

End RoundTrip.

(** C1 (amended).  For a sequence of fewer than 2^63 leaf hashes held
    by the cached source [CachedSubtreeRoot] and a valid list of
    exclusion ranges that lie within it, construction over that source
    gives a proof, and verifying that proof with the leaf hashes of the
    excluded ranges, read from the cached source [LeafRootCached],
    against the Merkle root of the whole sequence gives [true]. *)
Theorem diff_proof_roundtrip {H : Hasher}
        (leaves : list bytes) (limits : list SubTreeLimit) (fuel : nat) :
  Z.of_nat (length leaves) < two63 ->
  checkLimitList limits = true ->
  Forall (fun r => Right r <= Z.of_nat (length leaves)) limits ->
  (length leaves + 2 <= fuel)%nat ->
  exists proof sr',
    getLimitStorageProof fuel limits (mkCached leaves) = Some (Ok proof, sr') /\
    checkLimitStorageProof (mkLeafCached (claimedLeaves limits leaves)) limits proof
                           (merkleRoot leaves) = Ok true.
Proof.
  intros Hfit Hvalid Hbound Hfuel.
  destruct limits as [| r0 limits0] eqn:El.
  - exists [], (mkCached leaves). split; reflexivity.
  - rewrite <- El in *. assert (Hne : limits <> []) by (rewrite El; discriminate).
    pose proof (checkLimitListFrom_sorted limits None Hvalid) as Hsorted.
    cbn beta iota in Hsorted.
    assert (Hn0 : 0 <= 0 <= Z.of_nat (length leaves)) by lia.
    destruct (limits_roundtrip leaves Hfit limits 0 fuel Hn0 Hsorted Hbound ltac:(lia))
      as [P1 [Hc1 Hv1]].
    pose proof (lastRight_bounds limits 0 _ Hsorted Hbound ltac:(lia)) as Hlast.
    pose proof (lastRight_positive limits 0 Hne ltac:(lia) Hsorted) as Hpos.
    destruct (drain_roundtrip leaves Hfit (length leaves) (lastRight 0 limits) fuel)
      as [P2 [Hc2 [idx' [tree' [Hv2 Hroot]]]]]; try lia.
    destruct (Hc2 ([] ++ P1)) as [idx2 [sr2 Hc2']].
    exists (P1 ++ P2), sr2. split.
    + unfold getLimitStorageProof. rewrite El at 1. cbv iota. rewrite Hvalid.
      cbn [negb].
      change (mkCached leaves) with (sourceAt leaves 0).
      rewrite Hc1, Hc2'. reflexivity.
    + unfold checkLimitStorageProof. rewrite El at 1. cbv iota. rewrite Hvalid.
      cbn [negb].
      specialize (Hv1 P2 []). rewrite app_nil_r in Hv1.
      change NewTree with (stackAt leaves 0).
      rewrite Hv1, Hv2, Hroot, bytes_eqb_refl. reflexivity.
Qed.

Definition demoLeaves : list bytes :=
  [[x10]; [x11]; [x12]; [x13]; [x14]; [x15]; [x16]].

Definition demoLimits : list SubTreeLimit := [mkLimit 2 3; mkLimit 5 7].

Lemma diff_proof_roundtrip_witness :
  exists proof sr',
    getLimitStorageProof (SR := @CachedSubtreeRoot_SubtreeRoot tagHasher) 9 demoLimits
                         (mkCached demoLeaves) = Some (Ok proof, sr') /\
    checkLimitStorageProof (H := tagHasher) (mkLeafCached (claimedLeaves demoLimits demoLeaves))
                           demoLimits proof (merkleRoot (H := tagHasher) demoLeaves) = Ok true.
Proof.
  apply (diff_proof_roundtrip (H := tagHasher) demoLeaves demoLimits 9).
  - reflexivity.
  - reflexivity.
  - repeat constructor; simpl; lia.
  - simpl. lia.
Defined.

(** C1 as stated fails for a range that reaches beyond the leaves:
    with one leaf and the range [0, 2), [Skip] finds too few leaves and
    construction ends with [io.ErrUnexpectedEOF]; there is no proof to
    verify. *)
Lemma diff_proof_range_beyond_leaves :
  ~ (forall (leaves : list bytes) (limits : list SubTreeLimit),
        checkLimitList limits = true ->
        exists fuel proof sr',
          getLimitStorageProof (SR := @CachedSubtreeRoot_SubtreeRoot tagHasher) fuel limits
                               (mkCached leaves) = Some (Ok proof, sr') /\
          checkLimitStorageProof (H := tagHasher) (mkLeafCached (claimedLeaves limits leaves))
                                 limits proof (merkleRoot (H := tagHasher) leaves) = Ok true).
Proof.
  intros Hall.
  destruct (Hall [[x10]] [mkLimit 0 2] eq_refl) as [fuel [proof [sr' [Hc _]]]].
  destruct fuel as [| fuel]; vm_compute in Hc; discriminate Hc.
Qed.

(** The cached leaves matter.  Over the stream source a short last
    leaf cannot be skipped: with the stream 01 02 03, leaves of two
    bytes and the range [1, 2), [Skip] reads one byte where it asks for
    two and construction ends with [io.ErrUnexpectedEOF], while over
    the cached hashes of the same two leaves it gives a proof. *)
Lemma diff_proof_stream_short_last_leaf :
  (exists sr',
      getLimitStorageProof (SR := @SubtreeRootReader_SubtreeRoot tagHasher) 9 [mkLimit 1 2]
                           (mkReader [x01; x02; x03] 2)
      = Some (Err ErrUnexpectedEOF, sr'))
  /\ (exists proof sr',
         getLimitStorageProof (SR := @CachedSubtreeRoot_SubtreeRoot tagHasher) 9 [mkLimit 1 2]
                              (mkCached [[x00; x01; x02]; [x00; x03]])
         = Some (Ok proof, sr')).
Proof.
  split.
  - eexists. vm_compute. reflexivity.
  - eexists. eexists. vm_compute. reflexivity.
Qed.

(** * Further properties of the code *)

(** ** Range lists *)

Lemma sorted_checkLimitListFrom limits : forall prev,
  0 <= match prev with Some p => Right p | None => 0 end ->
  sortedFrom (match prev with Some p => Right p | None => 0 end) limits ->
  checkLimitListFrom prev limits = true.
Proof.
  induction limits as [| r rest IH]; intros prev Hprev Hs; [reflexivity |].
  destruct Hs as [Hlo [Hlr Hrest]]. cbn [checkLimitListFrom].
  replace (Left r <? 0) with false by (symmetry; apply Z.ltb_ge; lia).
  replace (Left r >=? Right r) with false
    by (destruct (Z.geb_spec (Left r) (Right r)); [lia | reflexivity]).
  cbn [orb].
  assert (Hnext : checkLimitListFrom (Some r) rest = true) by (apply (IH (Some r)); [lia | exact Hrest]).
  destruct prev as [p |]; [| exact Hnext].
  destruct (Z.gtb_spec (Right p) (Left r)); [lia | exact Hnext].
Qed.

(** [checkLimitList] accepts exactly the lists of non-empty ranges
    that start at 0 or later and come in order, each starting no
    earlier than the one before it ends. *)
Theorem checkLimitList_accepts_sorted (limits : list SubTreeLimit) :
  checkLimitList limits = true <-> sortedFrom 0 limits.
Proof.
  split.
  - intros Hc. exact (checkLimitListFrom_sorted limits None Hc).
  - intros Hs. apply (sorted_checkLimitListFrom limits None); [lia | exact Hs].
Qed.

(** ** The size of the adjacent subtree *)

Lemma tz_pos_divide_le p : forall k, 0 <= k -> (2 ^ k | Zpos p) -> k <= tz_pos p.
Proof.
  induction p as [q IH | q IH | ]; intros k Hk Hdiv; cbn [tz_pos].
  - destruct (Z.eq_dec k 0) as [-> | Hne]; [lia | exfalso].
    destruct Hdiv as [c Hc].
    replace (2 ^ k) with (2 * 2 ^ (k - 1)) in Hc
      by (rewrite <- Z.pow_succ_r by lia; f_equal; lia).
    change (Zpos q~1) with (2 * Zpos q + 1) in Hc. lia.
  - destruct (Z.eq_dec k 0) as [-> | Hne]; [pose proof (tz_pos_nonneg q); lia |].
    assert (Hq : (2 ^ (k - 1) | Zpos q)).
    { destruct Hdiv as [c Hc]. exists c.
      replace (2 ^ k) with (2 * 2 ^ (k - 1)) in Hc
        by (rewrite <- Z.pow_succ_r by lia; f_equal; lia).
      change (Zpos q~0) with (2 * Zpos q) in Hc. lia. }
    specialize (IH (k - 1) ltac:(lia) Hq). lia.
  - destruct (Z.eq_dec k 0) as [-> | Hne]; [lia | exfalso].
    destruct Hdiv as [c Hc].
    replace (2 ^ k) with (2 * 2 ^ (k - 1)) in Hc
      by (rewrite <- Z.pow_succ_r by lia; f_equal; lia).
    lia.
Qed.

Lemma adjacentExp_largest left right j :
  0 <= left < right -> right < two64 -> 0 <= j -> (2 ^ j | left) -> left + 2 ^ j <= right ->
  j <= adjacentExp left right.
Proof.
  intros Hl Hr Hj Hdiv Hfit. unfold adjacentExp.
  assert (Hlog : j <= Z.log2 (right - left)) by (apply Z.log2_le_pow2; lia).
  assert (Hlog64 : Z.log2 (right - left) < 64).
  { apply Z.log2_lt_pow2; [lia |]. change (2 ^ 64) with two64. lia. }
  assert (Htz : j <= TrailingZeros64 left).
  { destruct left as [| p | p]; cbn [TrailingZeros64]; try lia.
    apply tz_pos_divide_le; assumption. }
  lia.
Qed.

(** [adjacentSubtreeSize] is greedy: no aligned power-of-two subtree
    that starts at [left] and ends at or before [right] is larger than
    the one it picks; so an aligned span of [2^k] leaves is taken in
    one step. *)
Theorem adjacentSubtreeSize_largest (left right j : Z) :
  0 <= left < right -> right < two64 ->
  0 <= j -> (2 ^ j | left) -> left + 2 ^ j <= right ->
  2 ^ j <= wrap64 (adjacentSubtreeSize left right) /\
  (left + 2 ^ j = right -> wrap64 (adjacentSubtreeSize left right) = 2 ^ j).
Proof.
  intros Hl Hr Hj Hdiv Hfit.
  pose proof (adjacentExp_largest left right j Hl Hr Hj Hdiv Hfit) as Hle.
  pose proof (adjacentExp_range left right Hl Hr) as Hrange.
  pose proof (adjacentExp_fits left right Hl) as Hmax.
  rewrite adjacentSubtreeSize_shl1, wrap64_shl1 by assumption.
  assert (Hpow : 2 ^ j <= 2 ^ adjacentExp left right) by (apply Z.pow_le_mono_r; lia).
  split; [exact Hpow | intros Heq; lia].
Qed.

Lemma adjacentSubtreeSize_largest_witness :
  2 ^ 2 <= wrap64 (adjacentSubtreeSize 8 12) /\
  (8 + 2 ^ 2 = 12 -> wrap64 (adjacentSubtreeSize 8 12) = 2 ^ 2).
Proof.
  apply (adjacentSubtreeSize_largest 8 12 2).
  - lia.
  - reflexivity.
  - lia.
  - exists 2. reflexivity.
  - simpl. lia.
Defined.

(** ** Moving along the leaf sources *)

(** Two skips on the cached source are one skip of the sum, and a
    skip beyond the leaves that are left fails and leaves the source
    where it was. *)
Theorem Cached_Skip_composes {H : Hasher} (a b : Z) (csh : CachedSubtreeRoot) :
  0 <= a -> 0 <= b ->
  (a + b <= Z.of_nat (length (leafRoots csh)) ->
   Skip b (snd (Skip a csh)) = Skip (a + b) csh /\ fst (Skip (a + b) csh) = Ok tt) /\
  (a > Z.of_nat (length (leafRoots csh)) -> Skip a csh = (Err ErrUnexpectedEOF, csh)).
Proof.
  intros Ha Hb. destruct csh as [leaves]. cbn [leafRoots Skip CachedSubtreeRoot_SubtreeRoot].
  unfold Cached_Skip. cbn [leafRoots]. split.
  - intros Hfit.
    replace (a >? Z.of_nat (length leaves)) with false
      by (destruct (Z.gtb_spec a (Z.of_nat (length leaves))); [lia | reflexivity]).
    replace (a <? 0) with false by (symmetry; apply Z.ltb_ge; lia).
    replace (a + b >? Z.of_nat (length leaves)) with false
      by (destruct (Z.gtb_spec (a + b) (Z.of_nat (length leaves))); [lia | reflexivity]).
    replace (a + b <? 0) with false by (symmetry; apply Z.ltb_ge; lia).
    cbn [snd leafRoots fst]. rewrite length_skipn.
    replace (b >? Z.of_nat (length leaves - Z.to_nat a)) with false
      by (destruct (Z.gtb_spec b (Z.of_nat (length leaves - Z.to_nat a))); [lia | reflexivity]).
    replace (b <? 0) with false by (symmetry; apply Z.ltb_ge; lia).
    rewrite skipn_skipn. split; [| reflexivity].
    replace (Z.to_nat b + Z.to_nat a)%nat with (Z.to_nat (a + b)) by lia.
    reflexivity.
  - intros Hbig.
    replace (a >? Z.of_nat (length leaves)) with true
      by (destruct (Z.gtb_spec a (Z.of_nat (length leaves))); [reflexivity | lia]).
    reflexivity.
Qed.

Lemma Cached_Skip_composes_witness :
  let csh := mkCached [[x01]; [x02]; [x03]] in
  (Skip (SubtreeRoot := @CachedSubtreeRoot_SubtreeRoot tagHasher) 2
        (snd (Skip (SubtreeRoot := @CachedSubtreeRoot_SubtreeRoot tagHasher) 1 csh))
   = Skip (SubtreeRoot := @CachedSubtreeRoot_SubtreeRoot tagHasher) (1 + 2) csh /\
   fst (Skip (SubtreeRoot := @CachedSubtreeRoot_SubtreeRoot tagHasher) (1 + 2) csh) = Ok tt).
Proof.
  intro csh.
  destruct (Cached_Skip_composes (H := tagHasher) 1 2 csh) as [Hok _]; try lia.
  apply Hok. simpl. lia.
Defined.

(** Asking the cached source for the root of [n] leaves moves it as
    far as skipping [n] leaves does, when that many are left; when
    fewer (but some) are left, the request empties the source where the
    skip fails and leaves it. *)
Theorem Cached_GetSubtreeRoot_moves_like_Skip {H : Hasher} (n : Z) (csh : CachedSubtreeRoot) :
  1 <= n -> leafRoots csh <> [] ->
  (n <= Z.of_nat (length (leafRoots csh)) ->
   snd (GetSubtreeRoot n csh) = snd (Skip n csh)) /\
  (n > Z.of_nat (length (leafRoots csh)) ->
   snd (GetSubtreeRoot n csh) = mkCached [] /\ snd (Skip n csh) = csh).
Proof.
  intros Hn Hne. destruct csh as [leaves]. cbn [leafRoots] in *.
  cbn [GetSubtreeRoot Skip CachedSubtreeRoot_SubtreeRoot].
  rewrite Cached_GetSubtreeRoot_spec by exact Hne.
  unfold Cached_Skip. cbn [leafRoots snd]. split.
  - intros Hfit.
    replace (n >? Z.of_nat (length leaves)) with false
      by (destruct (Z.gtb_spec n (Z.of_nat (length leaves))); [lia | reflexivity]).
    replace (n <? 0) with false by (symmetry; apply Z.ltb_ge; lia).
    reflexivity.
  - intros Hbig.
    replace (n >? Z.of_nat (length leaves)) with true
      by (destruct (Z.gtb_spec n (Z.of_nat (length leaves))); [reflexivity | lia]).
    rewrite skipn_all2 by lia. split; reflexivity.
Qed.

Lemma Cached_GetSubtreeRoot_moves_like_Skip_witness :
  let csh := mkCached [[x01]; [x02]; [x03]] in
  snd (GetSubtreeRoot (SubtreeRoot := @CachedSubtreeRoot_SubtreeRoot tagHasher) 2 csh)
  = snd (Skip (SubtreeRoot := @CachedSubtreeRoot_SubtreeRoot tagHasher) 2 csh).
Proof.
  intro csh.
  destruct (Cached_GetSubtreeRoot_moves_like_Skip (H := tagHasher) 2 csh) as [Hok _].
  - lia.
  - discriminate.
  - apply Hok. simpl. lia.
Defined.

(** ** The stream source against the cached source *)

Section StreamFacts.
Context {H : Hasher}.

Lemma chunks_skipn size : forall k f g data,
  (1 <= size)%nat -> (length (skipn (k * size) data) <= f)%nat -> (length data <= g)%nat ->
  chunks f size (skipn (k * size) data) = skipn k (chunks g size data).
Proof.
  induction k as [| k IH]; intros f g data Hsz Hf Hg.
  - cbn [Nat.mul skipn] in *. apply chunks_enough; assumption.
  - destruct data as [| d ds].
    + rewrite skipn_nil, !chunks_nil. rewrite skipn_nil. reflexivity.
    + destruct g as [| g]; [cbn in Hg; lia |].
      cbn [chunks skipn].
      replace (S k * size)%nat with (k * size + size)%nat in * by lia.
      rewrite <- skipn_skipn in *.
      apply IH; try assumption. rewrite length_skipn; cbn [length] in *; lia.
Qed.

(** The reader's loop pushes the hashes of the next leaves, as many
    as are asked for or as are left, and moves past their bytes. *)
Lemma readerLoop_prefix size : forall fuel i n data tree,
  (1 <= size)%nat -> (length data < fuel)%nat ->
  readerLoop fuel i n size data tree
  = (pushAll tree (map leafTotal (firstn (Z.to_nat (n - i)) (chunks fuel size data))),
     skipn (Z.to_nat (n - i) * size) data).
Proof.
  induction fuel as [| fuel IH]; intros i n data tree Hsz Hfuel; [lia |].
  cbn [readerLoop].
  destruct (Z.ltb_spec i n) as [Hlt | Hge].
  - replace (Z.to_nat (n - i)) with (S (Z.to_nat (n - (i + 1)))) by lia.
    destruct data as [| d ds].
    + rewrite chunks_nil, skipn_nil. cbn [firstn map pushAll fold_left].
      rewrite ReadFull_short by (cbn; lia). reflexivity.
    + cbn [chunks firstn map].
      destruct (Nat.le_gt_cases size (length (d :: ds))) as [Hfull | Hshort].
      * rewrite ReadFull_full by exact Hfull.
        assert (Hgot : firstn size (d :: ds) = d :: firstn (size - 1) ds).
        { destruct size; [lia |]. cbn. rewrite Nat.sub_0_r. reflexivity. }
        rewrite Hgot at 1.
        rewrite IH by (try assumption; rewrite length_skipn; cbn [length] in *; lia).
        rewrite Hgot. f_equal.
        rewrite skipn_skipn. f_equal. lia.
      * rewrite ReadFull_short by exact Hshort.
        rewrite (skipn_all2 (n := size)) by lia.
        rewrite chunks_nil, firstn_nil. rewrite firstn_all2 by lia.
        rewrite skipn_all2 by (cbn [length] in *; nia).
        reflexivity.
  - replace (Z.to_nat (n - i)) with O by lia. reflexivity.
Qed.

(** For a request of at least one leaf, the stream source behaves as
    the cached source over the hashes of the leaves of the stream: the
    same root or error comes back, and the leaves left in the stream
    are the leaves left in the cached source. *)
Theorem Reader_GetSubtreeRoot_as_Cached (n : Z) (rsh : SubtreeRootReader) :
  1 <= n -> (1 <= leafSize rsh)%nat ->
  let csh := mkCached (map leafTotal (streamLeaves rsh)) in
  fst (GetSubtreeRoot n rsh) = fst (GetSubtreeRoot n csh) /\
  map leafTotal (streamLeaves (snd (GetSubtreeRoot n rsh)))
  = leafRoots (snd (GetSubtreeRoot n csh)) /\
  leafSize (snd (GetSubtreeRoot n rsh)) = leafSize rsh.
Proof.
  intros Hn Hsz csh. subst csh. destruct rsh as [data size]. cbn [leafSize] in Hsz.
  cbn [GetSubtreeRoot CachedSubtreeRoot_SubtreeRoot SubtreeRootReader_SubtreeRoot].
  unfold streamLeaves at 1 3. cbn [r leafSize].
  destruct data as [| d ds].
  - unfold Reader_GetSubtreeRoot, Cached_GetSubtreeRoot. cbn [r leafSize leafRoots length chunks map].
    destruct size as [| size]; [lia |].
    cbn [readerLoop]. replace (0 <? n) with true by (symmetry; apply Z.ltb_lt; lia).
    rewrite ReadFull_short by (cbn; lia). cbn. repeat split; reflexivity.
  - assert (Hleaves : map leafTotal (chunks (length (d :: ds)) size (d :: ds)) <> []).
    { cbn [length chunks map]. discriminate. }
    rewrite Cached_GetSubtreeRoot_spec by exact Hleaves.
    unfold Reader_GetSubtreeRoot. cbn [r leafSize].
    destruct size as [| size]; [lia |].
    rewrite readerLoop_prefix by (cbn [length]; lia).
    replace (n - 0) with n by lia.
    rewrite (chunks_enough (S size) (S (length (d :: ds))) (length (d :: ds))) by lia.
    rewrite <- firstn_map.
    assert (Hst : pushAll NewTree
                    (firstn (Z.to_nat n)
                       (map leafTotal (chunks (length (d :: ds)) (S size) (d :: ds)))) <> []).
    { apply pushAll_nonempty.
      replace (Z.to_nat n) with (S (Z.to_nat (n - 1))) by lia.
      cbn [length chunks map firstn]. discriminate. }
    destruct (Root_nonempty _ Hst) as [root Hroot].
    unfold merkleRoot. rewrite Hroot. cbn [fst snd orNil leafRoots leafSize].
    split; [reflexivity | split; [| reflexivity]].
    unfold streamLeaves. cbn [r leafSize].
    rewrite skipn_map. f_equal.
    apply chunks_skipn; lia.
Qed.

End StreamFacts.

Lemma Reader_GetSubtreeRoot_as_Cached_witness :
  let rsh := mkReader [x01; x02; x03; x04; x05] 2 in
  let csh := mkCached (map (leafTotal (Hasher := tagHasher)) (streamLeaves rsh)) in
  fst (GetSubtreeRoot (SubtreeRoot := @SubtreeRootReader_SubtreeRoot tagHasher) 2 rsh)
  = fst (GetSubtreeRoot (SubtreeRoot := @CachedSubtreeRoot_SubtreeRoot tagHasher) 2 csh) /\
  map (leafTotal (Hasher := tagHasher))
      (streamLeaves (snd (GetSubtreeRoot (SubtreeRoot := @SubtreeRootReader_SubtreeRoot tagHasher)
                                         2 rsh)))
  = leafRoots (snd (GetSubtreeRoot (SubtreeRoot := @CachedSubtreeRoot_SubtreeRoot tagHasher)
                                   2 csh)) /\
  leafSize (snd (GetSubtreeRoot (SubtreeRoot := @SubtreeRootReader_SubtreeRoot tagHasher) 2 rsh))
  = 2%nat.
Proof.
  intros rsh csh.
  apply (Reader_GetSubtreeRoot_as_Cached (H := tagHasher) 2 rsh).
  - lia.
  - simpl. lia.
Defined.

Lemma toInt64_id z : - two63 <= z < two63 -> toInt64 z = z.
Proof.
  intros Hz. unfold toInt64. rewrite Z.mod_small; [lia |].
  rewrite two64_eq. rewrite two63_eq in Hz. rewrite two63_eq. lia.
Qed.

Section StreamSkip.
Context {H : Hasher}.

(** Skipping [n] leaves of the stream source: with that many whole
    leaves ahead the stream moves past exactly those leaves; with fewer
    bytes than [n] whole leaves, as when the last leaf is short, and a
    byte count [leafSize * n] below 2^63, the skip fails with
    [io.ErrUnexpectedEOF] and the stream is used up; and when the byte
    count wraps around to an [int64] that is not positive, the skip
    returns nil and the stream is left as it was. *)
Theorem Reader_Skip_whole_leaves (n : Z) (rsh : SubtreeRootReader) :
  (1 <= leafSize rsh)%nat -> 0 <= n ->
  Z.of_nat (length (r rsh)) < two63 ->
  (Z.of_nat (leafSize rsh) * n <= Z.of_nat (length (r rsh)) ->
   fst (Skip n rsh) = Ok tt /\
   streamLeaves (snd (Skip n rsh)) = skipn (Z.to_nat n) (streamLeaves rsh)) /\
  (Z.of_nat (length (r rsh)) < Z.of_nat (leafSize rsh) * n < two63 ->
   Skip n rsh = (Err ErrUnexpectedEOF, mkReader [] (leafSize rsh))) /\
  (toInt64 (Z.of_nat (leafSize rsh) * n) <= 0 ->
   Skip n rsh = (Ok tt, rsh)).
Proof.
  intros Hsz Hn Hlen. destruct rsh as [data size]. cbn [r leafSize] in *.
  cbn [Skip SubtreeRootReader_SubtreeRoot]. unfold Reader_Skip. cbn [r leafSize].
  split; [| split].
  - intros Hfit.
    rewrite toInt64_id by (rewrite two63_eq in *; nia).
    destruct (Z.leb_spec (Z.of_nat size * n) 0) as [Hz | Hpos].
    + assert (n = 0) by nia. subst n. cbn [fst snd]. split; reflexivity.
    + replace (Z.of_nat size * n <=? Z.of_nat (length data)) with true
        by (symmetry; apply Z.leb_le; lia).
      cbn [fst snd]. split; [reflexivity |].
      unfold streamLeaves. cbn [r leafSize].
      replace (Z.to_nat (Z.of_nat size * n)) with (Z.to_nat n * size)%nat by nia.
      apply chunks_skipn; lia.
  - intros [Hshort Hbound].
    rewrite toInt64_id by (rewrite two63_eq in *; nia).
    replace (Z.of_nat size * n <=? 0) with false by (symmetry; apply Z.leb_gt; lia).
    replace (Z.of_nat size * n <=? Z.of_nat (length data)) with false
      by (symmetry; apply Z.leb_gt; lia).
    reflexivity.
  - intros Hwrap.
    replace (toInt64 (Z.of_nat size * n) <=? 0) with true
      by (symmetry; apply Z.leb_le; exact Hwrap).
    reflexivity.
Qed.

End StreamSkip.

Lemma Reader_Skip_whole_leaves_witness :
  let rsh := mkReader [x01; x02; x03; x04; x05] 2 in
  (fst (Skip (SubtreeRoot := @SubtreeRootReader_SubtreeRoot tagHasher) 2 rsh) = Ok tt /\
   streamLeaves (snd (Skip (SubtreeRoot := @SubtreeRootReader_SubtreeRoot tagHasher) 2 rsh))
   = skipn 2 (streamLeaves rsh)) /\
  Skip (SubtreeRoot := @SubtreeRootReader_SubtreeRoot tagHasher) 3 rsh
  = (Err ErrUnexpectedEOF, mkReader [] 2) /\
  Skip (SubtreeRoot := @SubtreeRootReader_SubtreeRoot tagHasher) (2 ^ 62) rsh
  = (Ok tt, rsh).
Proof.
  intro rsh. split; [| split].
  - destruct (Reader_Skip_whole_leaves (H := tagHasher) 2 rsh) as [Hok _];
      [simpl; lia | lia | reflexivity |].
    apply Hok. simpl. lia.
  - destruct (Reader_Skip_whole_leaves (H := tagHasher) 3 rsh) as [_ [Hfail _]];
      [simpl; lia | lia | reflexivity |].
    apply Hfail. split; [simpl; lia | reflexivity].
  - destruct (Reader_Skip_whole_leaves (H := tagHasher) (2 ^ 62) rsh) as [_ [_ Hwrap]];
      [simpl; lia | lia | reflexivity |].
    apply Hwrap. vm_compute. discriminate.
Defined.

(** ** Leaf hashes for verification *)

Section LeafRootFacts.
Context {H : Hasher}.

(** The leaves of the stream of a [LeafRootReader]. *)
Definition leafStream (rlh : LeafRootReader) : list bytes :=
  chunks (length (lr rlh)) (lrLeafSize rlh) (lr rlh).

(** With a positive leaf size, the stream reader of leaf hashes
    behaves as the cached reader over the hashes of the leaves of its
    stream: [GetLeafRoot] gives the hash of the next leaf, a short last
    leaf included, and [io.EOF] when the stream is used up. *)
Theorem LeafReader_GetLeafRoot_as_Cached (rlh : LeafRootReader) :
  (1 <= lrLeafSize rlh)%nat ->
  let clh := mkLeafCached (map leafTotal (leafStream rlh)) in
  fst (GetLeafRoot rlh) = fst (GetLeafRoot clh) /\
  map leafTotal (leafStream (snd (GetLeafRoot rlh))) = cachedLeafRoots (snd (GetLeafRoot clh)) /\
  lrLeafSize (snd (GetLeafRoot rlh)) = lrLeafSize rlh.
Proof.
  intros Hsz clh. subst clh. destruct rlh as [data size]. cbn [lrLeafSize] in Hsz.
  cbn [GetLeafRoot LeafRootReader_LeafRoot LeafRootCached_LeafRoot].
  unfold LeafReader_GetLeafRoot, LeafCached_GetLeafRoot, leafStream.
  cbn [lr lrLeafSize cachedLeafRoots].
  destruct data as [| d ds].
  - rewrite ReadFull_short by (cbn; lia). cbn. repeat split; reflexivity.
  - cbn [length chunks map].
    assert (Hgot : firstn size (d :: ds) = d :: firstn (size - 1) ds).
    { destruct size; [lia |]. cbn. rewrite Nat.sub_0_r. reflexivity. }
    destruct (Nat.le_gt_cases size (length (d :: ds))) as [Hfull | Hshort].
    + rewrite ReadFull_full by exact Hfull. rewrite Hgot at 1.
      cbn [fst snd lr lrLeafSize cachedLeafRoots]. rewrite Hgot.
      split; [reflexivity | split; [| reflexivity]].
      cbn [fst snd lr lrLeafSize cachedLeafRoots]. f_equal.
      apply chunks_enough; cbn [snd lr]; try (rewrite length_skipn; cbn [length]); lia.
    + rewrite ReadFull_short by exact Hshort.
      cbn [fst snd lr lrLeafSize cachedLeafRoots length chunks map].
      rewrite firstn_all2 by lia. rewrite skipn_all2 by lia. rewrite chunks_nil.
      repeat split; reflexivity.
Qed.

End LeafRootFacts.

Lemma LeafReader_GetLeafRoot_as_Cached_witness :
  let rlh := mkLeafReader [x01; x02; x03] 2 in
  let clh := mkLeafCached (map (leafTotal (Hasher := tagHasher)) (leafStream rlh)) in
  fst (GetLeafRoot (LeafRoot := @LeafRootReader_LeafRoot tagHasher) rlh) = fst (GetLeafRoot clh) /\
  map (leafTotal (Hasher := tagHasher))
      (leafStream (snd (GetLeafRoot (LeafRoot := @LeafRootReader_LeafRoot tagHasher) rlh)))
  = cachedLeafRoots (snd (GetLeafRoot clh)) /\
  lrLeafSize (snd (GetLeafRoot (LeafRoot := @LeafRootReader_LeafRoot tagHasher) rlh)) = 2%nat.
Proof.
  intros rlh clh.
  apply (LeafReader_GetLeafRoot_as_Cached (H := tagHasher) rlh). simpl. lia.
Defined.

(** ** Verification against any root *)

Lemma bytes_eqb_neq (a b : bytes) : a <> b -> bytes_eqb a b = false.
Proof.
  intros Hne. unfold bytes_eqb. destruct (list_eq_dec byte_eq_dec a b); [contradiction | reflexivity].
Qed.

(** With ranges that are valid, not empty as a list and within the
    leaves, construction yields a proof, and what the verifier answers
    for a root is whether that root is the Merkle root of the leaves. *)
Lemma roundtrip_any_root {H : Hasher}
      (leaves : list bytes) (limits : list SubTreeLimit) (fuel : nat) :
  Z.of_nat (length leaves) < two63 ->
  limits <> [] ->
  checkLimitList limits = true ->
  Forall (fun r => Right r <= Z.of_nat (length leaves)) limits ->
  (length leaves + 2 <= fuel)%nat ->
  exists proof sr',
    getLimitStorageProof fuel limits (mkCached leaves) = Some (Ok proof, sr') /\
    forall root,
      checkLimitStorageProof (mkLeafCached (claimedLeaves limits leaves)) limits proof root
      = Ok (bytes_eqb (merkleRoot leaves) root).
Proof.
  intros Hfit Hne Hvalid Hbound Hfuel.
  pose proof (checkLimitListFrom_sorted limits None Hvalid) as Hsorted.
  cbn beta iota in Hsorted.
  assert (Hn0 : 0 <= 0 <= Z.of_nat (length leaves)) by lia.
  destruct (limits_roundtrip leaves Hfit limits 0 fuel Hn0 Hsorted Hbound ltac:(lia))
    as [P1 [Hc1 Hv1]].
  pose proof (lastRight_bounds limits 0 _ Hsorted Hbound ltac:(lia)) as Hlast.
  pose proof (lastRight_positive limits 0 Hne ltac:(lia) Hsorted) as Hpos.
  destruct (drain_roundtrip leaves Hfit (length leaves) (lastRight 0 limits) fuel)
    as [P2 [Hc2 [idx' [tree' [Hv2 Hroot]]]]]; try lia.
  destruct (Hc2 ([] ++ P1)) as [idx2 [sr2 Hc2']].
  exists (P1 ++ P2), sr2.
  destruct limits as [| r0 limits0] eqn:El; [contradiction |]. rewrite <- El in *.
  split.
  - unfold getLimitStorageProof. rewrite El at 1. cbv iota. rewrite Hvalid.
    cbn [negb]. change (mkCached leaves) with (sourceAt leaves 0).
    rewrite Hc1, Hc2'. reflexivity.
  - intros root. unfold checkLimitStorageProof. rewrite El at 1. cbv iota. rewrite Hvalid.
    cbn [negb]. specialize (Hv1 P2 []). rewrite app_nil_r in Hv1.
    change NewTree with (stackAt leaves 0).
    rewrite Hv1, Hv2, Hroot. reflexivity.
Qed.

(** Verifying the constructed proof against a root other than the
    Merkle root of the leaves answers [false]. *)
Theorem diff_proof_rejects_other_root {H : Hasher}
        (leaves : list bytes) (limits : list SubTreeLimit) (fuel : nat) :
  Z.of_nat (length leaves) < two63 ->
  limits <> [] ->
  checkLimitList limits = true ->
  Forall (fun r => Right r <= Z.of_nat (length leaves)) limits ->
  (length leaves + 2 <= fuel)%nat ->
  exists proof sr',
    getLimitStorageProof fuel limits (mkCached leaves) = Some (Ok proof, sr') /\
    forall root,
      root <> merkleRoot leaves ->
      checkLimitStorageProof (mkLeafCached (claimedLeaves limits leaves)) limits proof root
      = Ok false.
Proof.
  intros Hfit Hne Hvalid Hbound Hfuel.
  destruct (roundtrip_any_root leaves limits fuel Hfit Hne Hvalid Hbound Hfuel)
    as [proof [sr' [Hc Hv]]].
  exists proof, sr'. split; [exact Hc |].
  intros root Hroot. rewrite Hv, bytes_eqb_neq; [reflexivity |].
  intros Heq. apply Hroot. symmetry. exact Heq.
Qed.

Lemma diff_proof_rejects_other_root_witness :
  exists proof sr',
    getLimitStorageProof (SR := @CachedSubtreeRoot_SubtreeRoot tagHasher) 9 demoLimits
                         (mkCached demoLeaves) = Some (Ok proof, sr') /\
    forall root,
      root <> merkleRoot (H := tagHasher) demoLeaves ->
      checkLimitStorageProof (H := tagHasher) (mkLeafCached (claimedLeaves demoLimits demoLeaves))
                             demoLimits proof root = Ok false.
Proof.
  apply (diff_proof_rejects_other_root (H := tagHasher) demoLeaves demoLimits 9).
  - reflexivity.
  - discriminate.
  - reflexivity.
  - repeat constructor; simpl; lia.
  - simpl. lia.
Defined.

Lemma checkLimitList_sorted_one left right :
  0 <= left < right -> checkLimitList [mkLimit left right] = true.
Proof.
  intros Hlr. apply (sorted_checkLimitListFrom [mkLimit left right] None); [lia |].
  cbn [sortedFrom Left Right]. lia.
Qed.

(** The single-range entry points: for [0 <= left < right] within the
    leaves, [GetLimitStorageProof] yields a proof that
    [CheckLimitStorageProof] accepts, given the leaf hashes from [left]
    up to [right] and the Merkle root of the leaves. *)
Theorem single_range_roundtrip {H : Hasher}
        (leaves : list bytes) (left right : Z) (fuel : nat) :
  Z.of_nat (length leaves) < two63 ->
  0 <= left < right -> right <= Z.of_nat (length leaves) ->
  (length leaves + 2 <= fuel)%nat ->
  exists proof sr',
    GetLimitStorageProof fuel left right (mkCached leaves) = Some (Ok proof, sr') /\
    CheckLimitStorageProof
      (mkLeafCached (firstn (Z.to_nat (right - left)) (skipn (Z.to_nat left) leaves)))
      left right proof (merkleRoot leaves) = Ok true.
Proof.
  intros Hfit Hlr Hr Hfuel.
  assert (Hwl : wrap64 left = left)
    by (apply wrap64_small; rewrite two64_eq; rewrite two63_eq in Hfit; lia).
  assert (Hwr : wrap64 right = right)
    by (apply wrap64_small; rewrite two64_eq; rewrite two63_eq in Hfit; lia).
  assert (Hvalid : checkLimitList [mkLimit left right] = true).
  { apply checkLimitList_sorted_one. exact Hlr. }
  destruct (roundtrip_any_root leaves [mkLimit left right] fuel Hfit ltac:(discriminate) Hvalid)
    as [proof [sr' [Hc Hv]]]; [repeat constructor; exact Hr | exact Hfuel |].
  exists proof, sr'. unfold GetLimitStorageProof, CheckLimitStorageProof.
  replace ((left <? 0) || (left >? right) || (left =? right)) with false.
  - rewrite Hwl, Hwr. split; [exact Hc |].
    specialize (Hv (merkleRoot leaves)).
    cbn [claimedLeaves flat_map Left Right] in Hv. rewrite app_nil_r in Hv.
    rewrite Hv, bytes_eqb_refl. reflexivity.
  - symmetry. apply orb_false_iff. split; [apply orb_false_iff; split |].
    + apply Z.ltb_ge. lia.
    + destruct (Z.gtb_spec left right); [lia | reflexivity].
    + apply Z.eqb_neq. lia.
Qed.

Lemma single_range_roundtrip_witness :
  exists proof sr',
    GetLimitStorageProof (SR := @CachedSubtreeRoot_SubtreeRoot tagHasher) 9 2 5
                         (mkCached demoLeaves) = Some (Ok proof, sr') /\
    CheckLimitStorageProof (H := tagHasher)
      (mkLeafCached (firstn (Z.to_nat (5 - 2)) (skipn (Z.to_nat 2) demoLeaves)))
      2 5 proof (merkleRoot (H := tagHasher) demoLeaves) = Ok true.
Proof.
  apply (single_range_roundtrip (H := tagHasher) demoLeaves 2 5 9).
  - reflexivity.
  - lia.
  - simpl. lia.
  - simpl. lia.
Defined.

(** ** The lucky wheel: selecting several entries *)

From Stdlib Require Import Sorting.Permutation.

(** errRandomSelectNotEnoughEntries *)
Definition errRandomSelectNotEnoughEntries : error := ErrOther 1.

(** common.Address{} *)
Definition zeroAddress : Address := 0.

(** newLuckyWheel create a lucky wheel for random selection.  The
    random source made from the seed is not part of the record: the
    numbers it yields are handed to the selection.  [make] panics for a
    negative length. *)
Definition newLuckyWheel (es : list randomSelectorEntry) (target : Z) : result luckyWheel :=
  if Z.of_nat (length es) <? target then Err errRandomSelectNotEnoughEntries
  else if target <? 0 then Panic
  else Ok (mkWheel es target (repeat zeroAddress (Z.to_nat target))
                   (fold_left (fun sumVotes entry => sumVotes + vote entry) es 0)).

(** The removal of the selected entry in [randomSelect]: the last
    entry is cut off, any other one is cut out. *)
Definition removeSelected (es : list randomSelectorEntry) (selectedIndex : Z)
  : list randomSelectorEntry :=
  if selectedIndex =? Z.of_nat (length es) - 1
  then firstn (length es - 1) es
  else firstn (Z.to_nat selectedIndex) es ++ skipn (Z.to_nat selectedIndex + 1) es.

(** The loop of [randomSelect], [count] iterations from iteration [i];
    [draws k] is what the random source yields in iteration [k].  The
    value of [lw.sumVotes.Sub(selectedEntry.vote)] is dropped in the
    source, so [sumVotes] stays as it is. *)
Fixpoint randomSelectLoop (count i : nat) (draws : nat -> Z) (lw : luckyWheel)
  : result luckyWheel :=
  match count with
  | O => Ok lw
  | S c =>
      let selectedIndex := selectSingleEntry (draws i) lw in
      if selectedIndex <? 0 then Panic
      else
        match getIndex (entries lw) (Z.to_nat selectedIndex) with
        | Ok selectedEntry =>
            randomSelectLoop c (S i) draws
              (mkWheel (removeSelected (entries lw) selectedIndex) (target lw)
                       (results lw ++ [addr selectedEntry]) (sumVotes lw))
        | _ => Panic
        end
  end.

(** randomSelect: [for i := 0; i < lw.target; i++]. *)
Definition randomSelect (draws : nat -> Z) (lw : luckyWheel) : result luckyWheel :=
  randomSelectLoop (Z.to_nat (target lw)) 0 draws lw.

(** listAddresses return the list of addresses of the entries *)
Definition listAddresses (es : list randomSelectorEntry) : list Address := map addr es.

Lemma removeSelected_cut es (i : nat) :
  (i < length es)%nat ->
  removeSelected es (Z.of_nat i) = firstn i es ++ skipn (S i) es.
Proof.
  intros Hi. unfold removeSelected.
  destruct (Z.eqb_spec (Z.of_nat i) (Z.of_nat (length es) - 1)) as [Heq | Hne].
  - assert (i = (length es - 1)%nat) by lia. subst i.
    rewrite (skipn_all2 (n := S (length es - 1))) by lia. rewrite app_nil_r. reflexivity.
  - rewrite Nat2Z.id. replace (i + 1)%nat with (S i) by lia. reflexivity.
Qed.

Lemma cut_permutation {A : Type} (l : list A) : forall i x,
  nth_error l i = Some x -> Permutation (x :: firstn i l ++ skipn (S i) l) l.
Proof.
  induction l as [| a l IH]; intros i x Hx; [destruct i; discriminate |].
  destruct i as [| i].
  - cbn in Hx. injection Hx as ->. cbn. apply Permutation_refl.
  - cbn in Hx. cbn [firstn skipn app].
    apply Permutation_trans with (a :: x :: firstn i l ++ skipn (S i) l).
    + apply perm_swap.
    + apply perm_skip. apply IH. exact Hx.
Qed.

Lemma randomSelectLoop_selects (draws : nat -> Z) : forall count i lw,
  (count <= length (entries lw))%nat ->
  exists lw' selected,
    randomSelectLoop count i draws lw = Ok lw' /\
    results lw' = results lw ++ selected /\
    length selected = count /\
    length (entries lw') = (length (entries lw) - count)%nat /\
    target lw' = target lw /\
    Permutation (selected ++ listAddresses (entries lw')) (listAddresses (entries lw)).
Proof.
  induction count as [| count IH]; intros i lw Hcount.
  - exists lw, []. cbn [randomSelectLoop]. rewrite app_nil_r, Nat.sub_0_r.
    repeat split; reflexivity.
  - cbn [randomSelectLoop].
    pose proof (selectLoop_range (entries lw) 0 (randomBigInt (draws i) (sumVotes lw))
                                 (Z.of_nat (length (entries lw)) - 1)) as Hrange.
    cbv zeta in Hrange. fold (selectSingleEntry (draws i) lw) in Hrange.
    set (selectedIndex := selectSingleEntry (draws i) lw) in *.
    assert (Hidx : 0 <= selectedIndex < Z.of_nat (length (entries lw))) by lia.
    replace (selectedIndex <? 0) with false by (symmetry; apply Z.ltb_ge; lia).
    unfold getIndex.
    destruct (nth_error (entries lw) (Z.to_nat selectedIndex)) as [selectedEntry |] eqn:En.
    + assert (Hcut : removeSelected (entries lw) selectedIndex
                     = firstn (Z.to_nat selectedIndex) (entries lw)
                       ++ skipn (S (Z.to_nat selectedIndex)) (entries lw)).
      { rewrite <- (Z2Nat.id selectedIndex) at 1 by lia. apply removeSelected_cut. lia. }
      destruct (IH (S i) (mkWheel (removeSelected (entries lw) selectedIndex) (target lw)
                                  (results lw ++ [addr selectedEntry]) (sumVotes lw)))
        as [lw' [selected [Hrun [Hres [Hlen [Hleft [Htarget Hperm]]]]]]].
      { cbn [entries]. rewrite Hcut, length_app, length_firstn, length_skipn. lia. }
      cbn [entries results target] in *.
      exists lw', (addr selectedEntry :: selected).
      split; [exact Hrun |]. split; [rewrite Hres, <- app_assoc; reflexivity |].
      split; [cbn [length]; lia |].
      split; [rewrite Hleft, Hcut, length_app, length_firstn, length_skipn; lia |].
      split; [exact Htarget |].
      cbn [app]. apply Permutation_trans
        with (addr selectedEntry :: listAddresses (removeSelected (entries lw) selectedIndex)).
      * apply perm_skip. exact Hperm.
      * rewrite Hcut. unfold listAddresses. rewrite map_app, <- firstn_map, <- skipn_map.
        apply cut_permutation. apply map_nth_error. exact En.
    + apply nth_error_None in En. lia.
Qed.

(** A wheel made by [newLuckyWheel] and run by [randomSelect] ends
    with [2 * target] results: [target] zero addresses, left there by
    [make], and behind them the [target] selected addresses.  No entry
    is selected twice: the selected addresses and the addresses of the
    entries left over are, together, the addresses put in. *)
Theorem randomSelect_appends_selection
        (es : list randomSelectorEntry) (tgt : Z) (draws : nat -> Z) (lw : luckyWheel) :
  newLuckyWheel es tgt = Ok lw ->
  exists lw' selected,
    randomSelect draws lw = Ok lw' /\
    results lw' = repeat zeroAddress (Z.to_nat tgt) ++ selected /\
    Z.of_nat (length selected) = tgt /\
    Z.of_nat (length (entries lw')) = Z.of_nat (length es) - tgt /\
    Permutation (selected ++ listAddresses (entries lw')) (listAddresses es).
Proof.
  intros Hnew. unfold newLuckyWheel in Hnew.
  destruct (Z.ltb_spec (Z.of_nat (length es)) tgt) as [| Hle]; [discriminate |].
  destruct (Z.ltb_spec tgt 0) as [| Hpos]; [discriminate |].
  injection Hnew as <-. unfold randomSelect. cbn [target].
  destruct (randomSelectLoop_selects draws (Z.to_nat tgt) 0
              (mkWheel es tgt (repeat zeroAddress (Z.to_nat tgt))
                       (fold_left (fun sumVotes entry => sumVotes + vote entry) es 0)))
    as [lw' [selected [Hrun [Hres [Hlen [Hleft [_ Hperm]]]]]]].
  { cbn [entries]. lia. }
  cbn [entries results] in *.
  exists lw', selected. repeat split; try assumption; lia.
Qed.

Lemma randomSelect_appends_selection_witness :
  let es := [mkEntry 11 5; mkEntry 12 7; mkEntry 13 2] in
  exists lw lw' selected,
    newLuckyWheel es 2 = Ok lw /\
    randomSelect (fun _ => 6) lw = Ok lw' /\
    results lw' = repeat zeroAddress (Z.to_nat 2) ++ selected /\
    Z.of_nat (length selected) = 2 /\
    Z.of_nat (length (entries lw')) = Z.of_nat (length es) - 2 /\
    Permutation (selected ++ listAddresses (entries lw')) (listAddresses es).
Proof.
  intro es.
  destruct (randomSelect_appends_selection es 2 (fun _ => 6)
              (mkWheel es 2 (repeat zeroAddress (Z.to_nat 2)) 14) eq_refl)
    as [lw' [selected Hall]].
  exists (mkWheel es 2 (repeat zeroAddress (Z.to_nat 2)) 14), lw', selected.
  split; [reflexivity | exact Hall].
Defined.

(** [newLuckyWheel] refuses a target above the number of entries, and
    otherwise keeps the entries and sums their votes. *)
Theorem newLuckyWheel_checks_target (es : list randomSelectorEntry) (tgt : Z) :
  (Z.of_nat (length es) < tgt -> newLuckyWheel es tgt = Err errRandomSelectNotEnoughEntries) /\
  (0 <= tgt <= Z.of_nat (length es) ->
   exists lw, newLuckyWheel es tgt = Ok lw /\ entries lw = es /\ target lw = tgt /\
              sumVotes lw = fold_right Z.add 0 (map vote es)).
Proof.
  unfold newLuckyWheel. split.
  - intros Hlt. replace (Z.of_nat (length es) <? tgt) with true
      by (symmetry; apply Z.ltb_lt; exact Hlt). reflexivity.
  - intros Hok.
    replace (Z.of_nat (length es) <? tgt) with false by (symmetry; apply Z.ltb_ge; lia).
    replace (tgt <? 0) with false by (symmetry; apply Z.ltb_ge; lia).
    eexists. split; [reflexivity |]. cbn [entries target sumVotes].
    repeat split.
    assert (Hgen : forall l acc,
               fold_left (fun sumVotes entry => sumVotes + vote entry) l acc
               = acc + fold_right Z.add 0 (map vote l)).
    { induction l as [| e l IHl]; intros acc; cbn; [lia | rewrite IHl; lia]. }
    rewrite Hgen. lia.
Qed.

(** ** The upload handler: actions, proof ranges, revision *)

(** sort.Slice(proofRanges, by Left).  The ranges come from the keys
    of a map, which are distinct, so the sorted slice does not depend
    on how the library sorts; insertion into a sorted list stands for
    it. *)
Fixpoint insertByLeft (r : SubTreeLimit) (sorted : list SubTreeLimit) : list SubTreeLimit :=
  match sorted with
  | [] => [r]
  | x :: rest => if Left r <? Left x then r :: sorted else x :: insertByLeft r rest
  end.

Definition sortByLeft (ranges : list SubTreeLimit) : list SubTreeLimit :=
  fold_right insertByLeft [] ranges.

(** calcAndSortProofRanges: a range [[i, i+1)] for every changed sector
    below the old number of sectors, sorted.  The keys of
    [nd.sectorsChanged] are taken in the order the list has them, which
    stands for the order the map is ranged over. *)
Definition calcAndSortProofRanges (sr : StorageResponsibility) (nd : uploadNegotiationData)
  : list SubTreeLimit :=
  let oldNumSectors := Z.of_nat (length (SectorRoots sr)) in
  sortByLeft
    (flat_map (fun i => if i <? oldNumSectors then [mkLimit i (wrap64 (i + 1))] else [])
              (sectorsChanged nd)).

(** calcLeafHashes: [sr.SectorRoots[proofRange.Left]] for every range;
    an index beyond the roots panics. *)
Fixpoint calcLeafHashes (proofRanges : list SubTreeLimit) (sr : StorageResponsibility)
  : result (list bytes) :=
  match proofRanges with
  | [] => Ok []
  | proofRange :: rest =>
      match getIndex (SectorRoots sr) (Z.to_nat (Left proofRange)) with
      | Ok root =>
          match calcLeafHashes rest sr with
          | Ok hashes => Ok (root :: hashes)
          | Err e => Err e
          | Panic => Panic
          end
      | _ => Panic
      end
  end.

Definition isAppend (action : UploadAction) : Prop := Type_ action = UploadActionAppend.

(** Every range is one sector wide, ends within the first [n] sectors,
    and starts no earlier than [lo] or than the end of the range
    before it. *)
Fixpoint unitSorted (n lo : Z) (ranges : list SubTreeLimit) : Prop :=
  match ranges with
  | [] => True
  | r :: rest =>
      lo <= Left r /\ Right r = Left r + 1 /\ Right r <= n /\ unitSorted n (Right r) rest
  end.

Lemma unitSorted_sortedFrom n : forall ranges lo,
  unitSorted n lo ranges ->
  sortedFrom lo ranges /\ Forall (fun r => Right r = Left r + 1 /\ Right r <= n) ranges.
Proof.
  induction ranges as [| r rest IH]; intros lo Hu; [split; [exact I | constructor] |].
  destruct Hu as [Hlo [Hr [Hn Hrest]]]. destruct (IH _ Hrest) as [Hs Hall].
  split.
  - cbn [sortedFrom]. split; [exact Hlo | split; [lia | exact Hs]].
  - constructor; [split; assumption | exact Hall].
Qed.

Lemma insertByLeft_unitSorted n i : forall ranges lo lo',
  unitSorted n lo ranges -> lo' <= lo -> lo' <= i -> i + 1 <= n ->
  ~ In i (map Left ranges) ->
  unitSorted n lo' (insertByLeft (mkLimit i (i + 1)) ranges).
Proof.
  induction ranges as [| x rest IH]; intros lo lo' Hu Hlo Hi Hn Hnot.
  - cbn. repeat split; try lia.
  - destruct Hu as [Hx [Hxr [Hxn Hrest]]].
    cbn [insertByLeft Left]. destruct (Z.ltb_spec i (Left x)) as [Hlt | Hge].
    + cbn [unitSorted Left Right]. repeat split; try lia. exact Hrest.
    + assert (Hne : Left x <> i) by (intros Heq; apply Hnot; left; exact Heq).
      cbn [unitSorted]. repeat split; try lia.
      apply (IH (Right x) (Right x)); try lia; [exact Hrest |].
      intros Hin. apply Hnot. right. exact Hin.
Qed.

Lemma insertByLeft_In r x : forall ranges,
  In x (insertByLeft r ranges) <-> x = r \/ In x ranges.
Proof.
  induction ranges as [| y rest IH]; [cbn; intuition congruence |].
  cbn [insertByLeft]. destruct (Left r <? Left y).
  - cbn [In]. intuition congruence.
  - cbn [In]. rewrite IH. intuition congruence.
Qed.

Lemma sortByLeft_units n : forall keys,
  NoDup keys -> Forall (fun k => 0 <= k /\ k + 1 <= n) keys ->
  unitSorted n 0 (sortByLeft (map (fun i => mkLimit i (i + 1)) keys))
  /\ (forall i, In i (map Left (sortByLeft (map (fun i => mkLimit i (i + 1)) keys)))
                <-> In i keys).
Proof.
  induction keys as [| k keys IH]; intros Hnd Hall.
  - split; [exact I | cbn; tauto].
  - inversion Hnd as [| ? ? Hnotin Hnd']; subst.
    inversion Hall as [| ? ? [Hk0 Hkn] Hall']; subst.
    destruct (IH Hnd' Hall') as [Hu Hmem].
    assert (Hin : forall i,
              In i (map Left (insertByLeft (mkLimit k (k + 1))
                                (sortByLeft (map (fun i => mkLimit i (i + 1)) keys))))
              <-> k = i \/ In i keys).
    { intros i. rewrite <- Hmem. rewrite !in_map_iff. split.
      - intros [x [Hx Hxin]]. apply insertByLeft_In in Hxin.
        destruct Hxin as [-> | Hxin]; [left; exact Hx | right; exists x; split; assumption].
      - intros [<- | [x [Hx Hxin]]].
        + exists (mkLimit k (k + 1)). split; [reflexivity |].
          apply insertByLeft_In. left. reflexivity.
        + exists x. split; [exact Hx |]. apply insertByLeft_In. right. exact Hxin. }
    cbn [map sortByLeft fold_right]. split; [| exact Hin].
    apply (insertByLeft_unitSorted n k _ 0 0); try lia; [exact Hu |].
    intros Hbad. apply Hmem in Hbad. contradiction.
Qed.

Lemma changed_below (n : Z) : forall keys,
  n < two64 -> Forall (fun k => 0 <= k) keys ->
  flat_map (fun i => if i <? n then [mkLimit i (wrap64 (i + 1))] else []) keys
  = map (fun i => mkLimit i (i + 1)) (filter (fun i => i <? n) keys).
Proof.
  induction keys as [| k keys IH]; intros Hn Hall; [reflexivity |].
  inversion Hall as [| ? ? Hk Hall']; subst.
  cbn [flat_map filter]. rewrite (IH Hn Hall').
  destruct (Z.ltb_spec k n) as [Hlt | Hge]; [| reflexivity].
  cbn [app map]. rewrite wrap64_small by lia. reflexivity.
Qed.

Lemma calcAndSortProofRanges_units (sr : StorageResponsibility) (nd : uploadNegotiationData) :
  NoDup (sectorsChanged nd) ->
  Forall (fun k => 0 <= k) (sectorsChanged nd) ->
  Z.of_nat (length (SectorRoots sr)) < two64 ->
  unitSorted (Z.of_nat (length (SectorRoots sr))) 0 (calcAndSortProofRanges sr nd)
  /\ (forall i, In i (map Left (calcAndSortProofRanges sr nd))
                <-> In i (sectorsChanged nd) /\ i < Z.of_nat (length (SectorRoots sr))).
Proof.
  intros Hnd Hall Hlen. unfold calcAndSortProofRanges. cbv zeta.
  rewrite (changed_below _ _ Hlen Hall).
  destruct (sortByLeft_units (Z.of_nat (length (SectorRoots sr)))
              (filter (fun i => i <? Z.of_nat (length (SectorRoots sr))) (sectorsChanged nd)))
    as [Hu Hmem].
  - apply NoDup_filter. exact Hnd.
  - apply Forall_forall. intros k Hk. apply filter_In in Hk. destruct Hk as [Hk Hlt].
    rewrite Forall_forall in Hall. specialize (Hall k Hk).
    apply Z.ltb_lt in Hlt. lia.
  - split; [exact Hu |]. intros i. rewrite Hmem, filter_In, Z.ltb_lt. tauto.
Qed.

(** The proof ranges of an upload.  For changed sectors held as
    distinct keys, [calcAndSortProofRanges] gives a list that
    [checkLimitList] accepts; each range is one sector wide and ends
    within the old sectors; and the ranges start exactly at the changed
    sectors below the old number of sectors. *)
Theorem calcAndSortProofRanges_valid (sr : StorageResponsibility) (nd : uploadNegotiationData) :
  NoDup (sectorsChanged nd) ->
  Forall (fun k => 0 <= k) (sectorsChanged nd) ->
  Z.of_nat (length (SectorRoots sr)) < two64 ->
  checkLimitList (calcAndSortProofRanges sr nd) = true
  /\ Forall (fun r => Right r = Left r + 1 /\ Right r <= Z.of_nat (length (SectorRoots sr)))
            (calcAndSortProofRanges sr nd)
  /\ (forall i, In i (map Left (calcAndSortProofRanges sr nd))
                <-> In i (sectorsChanged nd) /\ i < Z.of_nat (length (SectorRoots sr))).
Proof.
  intros Hnd Hall Hlen.
  destruct (calcAndSortProofRanges_units sr nd Hnd Hall Hlen) as [Hu Hmem].
  destruct (unitSorted_sortedFrom _ _ _ Hu) as [Hs Hunit].
  split; [| split; [exact Hunit | exact Hmem]].
  apply (sorted_checkLimitListFrom _ None); [lia | exact Hs].
Qed.

Lemma calcLeafHashes_units (sr : StorageResponsibility) : forall ranges lo,
  0 <= lo ->
  unitSorted (Z.of_nat (length (SectorRoots sr))) lo ranges ->
  calcLeafHashes ranges sr = Ok (claimedLeaves ranges (SectorRoots sr)).
Proof.
  induction ranges as [| r rest IH]; intros lo Hlo Hu; [reflexivity |].
  destruct Hu as [Hl [Hr [Hn Hrest]]].
  cbn [calcLeafHashes]. unfold getIndex.
  destruct (nth_error (SectorRoots sr) (Z.to_nat (Left r))) as [root |] eqn:En.
  - rewrite (IH (Right r)) by (try lia; exact Hrest).
    unfold claimedLeaves. cbn [flat_map].
    replace (Z.to_nat (Right r - Left r)) with 1%nat by lia.
    apply nth_error_split in En. destruct En as [before [after [Hsplit Hbefore]]].
    rewrite Hsplit at 1. rewrite <- Hbefore.
    rewrite skipn_app, skipn_all, Nat.sub_diag. reflexivity.
  - apply nth_error_None in En. lia.
Qed.

(** The old leaf hashes of an upload.  On the ranges that
    [calcAndSortProofRanges] gives, [calcLeafHashes] never indexes
    beyond the sector roots, and its result is the leaves that the
    ranges cut out of the old sector roots, in order. *)
Theorem calcLeafHashes_of_proof_ranges (sr : StorageResponsibility) (nd : uploadNegotiationData) :
  NoDup (sectorsChanged nd) ->
  Forall (fun k => 0 <= k) (sectorsChanged nd) ->
  Z.of_nat (length (SectorRoots sr)) < two64 ->
  calcLeafHashes (calcAndSortProofRanges sr nd) sr
  = Ok (claimedLeaves (calcAndSortProofRanges sr nd) (SectorRoots sr)).
Proof.
  intros Hnd Hall Hlen.
  destruct (calcAndSortProofRanges_units sr nd Hnd Hall Hlen) as [Hu _].
  apply (calcLeafHashes_units sr _ 0); [lia | exact Hu].
Qed.

(** A range that starts at or beyond the number of sector roots makes
    [calcLeafHashes] index out of range: the call panics. *)
Theorem calcLeafHashes_out_of_range (sr : StorageResponsibility) (ranges : list SubTreeLimit) :
  Exists (fun r => Z.of_nat (length (SectorRoots sr)) <= Left r) ranges ->
  calcLeafHashes ranges sr = Panic.
Proof.
  induction ranges as [| r rest IH]; intros Hex; [inversion Hex |].
  cbn [calcLeafHashes]. unfold getIndex.
  destruct (nth_error (SectorRoots sr) (Z.to_nat (Left r))) as [root |] eqn:En.
  - inversion Hex as [? ? Hbad | ? ? Hrest]; subst.
    + assert (Hsome : nth_error (SectorRoots sr) (Z.to_nat (Left r)) <> None)
        by (rewrite En; discriminate).
      apply nth_error_Some in Hsome. lia.
    + rewrite (IH Hrest). reflexivity.
  - reflexivity.
Qed.

Section UploadFacts.
Context {H : Hasher}.
Variable SectorSize : Z.
Variable Sha256MerkleTreeRoot : bytes -> bytes.
Variable calcHostRevenue : uploadNegotiationData -> StorageResponsibility -> Z -> Z.
Variable uploadRevisionValidation :
  StorageResponsibility -> StorageContractRevision -> Z -> Z -> option error.

Let rootOf (action : UploadAction) : bytes := Sha256MerkleTreeRoot (Data action).

Lemma setKey_fresh k m : (forall x, In x m -> x <> k) -> setKey k m = m ++ [k].
Proof.
  intros Hfresh. unfold setKey.
  replace (existsb (Z.eqb k) m) with false; [reflexivity |].
  symmetry. apply not_true_is_false. intros Hex.
  apply existsb_exists in Hex. destruct Hex as [x [Hin Heq]].
  apply Z.eqb_eq in Heq. apply (Hfresh x Hin). symmetry. exact Heq.
Qed.

Lemma handleActions_appends (uploadBandwidthPrice : Z) : forall actions nd,
  Forall isAppend actions ->
  Z.of_nat (length (newRoots nd) + length actions) < two64 ->
  (forall k, In k (sectorsChanged nd) -> k < Z.of_nat (length (newRoots nd))) ->
  handleActions SectorSize Sha256MerkleTreeRoot actions nd uploadBandwidthPrice
  = Ok (mkNd (newRoots nd ++ map rootOf actions)
             (sectorsChanged nd
              ++ map Z.of_nat (seq (length (newRoots nd)) (length actions)))
             (bandwidthRevenue nd
              + Z.of_nat (length actions) * (uploadBandwidthPrice * SectorSize))
             (sectorGained nd ++ map rootOf actions)
             (gainedSectorData nd ++ map Data actions)
             (newMerkleRoot nd)).
Proof.
  induction actions as [| action actions IH]; intros nd Hall Hlen Hkeys.
  - cbn. rewrite !app_nil_r. destruct nd. cbn. f_equal. f_equal. lia.
  - inversion Hall as [| ? ? Ha Hrest]; subst.
    cbn [handleActions]. rewrite Ha.
    rewrite IH; [| exact Hrest | |].
    + unfold handleUploadAppendType.
      cbn [newRoots sectorsChanged bandwidthRevenue sectorGained gainedSectorData newMerkleRoot].
      rewrite length_app. cbn [length].
      assert (Hkey : wrap64 (Z.of_nat (length (newRoots nd) + 1) - 1)
                     = Z.of_nat (length (newRoots nd))).
      { replace (Z.of_nat (length (newRoots nd) + 1) - 1)
          with (Z.of_nat (length (newRoots nd))) by lia.
        apply wrap64_small. cbn [length] in Hlen. lia. }
      rewrite Hkey.
      rewrite setKey_fresh by (intros x Hx; specialize (Hkeys x Hx); lia).
      fold (rootOf action).
      rewrite <- !app_assoc. cbn [app map seq].
      replace (length (newRoots nd) + 1)%nat with (S (length (newRoots nd))) by lia.
      f_equal. f_equal. lia.
    + unfold handleUploadAppendType. cbn [newRoots]. rewrite length_app.
      cbn [length] in *. lia.
    + unfold handleUploadAppendType. cbn [newRoots sectorsChanged].
      intros k Hk. rewrite length_app in *. cbn [length] in *.
      replace (Z.of_nat (length (newRoots nd) + 1) - 1)
        with (Z.of_nat (length (newRoots nd))) in Hk by lia.
      rewrite wrap64_small in Hk by lia.
      rewrite setKey_fresh in Hk by (intros x Hx; specialize (Hkeys x Hx); lia).
      apply in_app_or in Hk. destruct Hk as [Hk | [Hk | []]].
      * specialize (Hkeys k Hk). lia.
      * subst k. lia.
Qed.

Lemma upload_appends_shape
      (uploadReq : UploadRequest) (sr : StorageResponsibility) (uploadBandwidthPrice : Z) :
  Forall isAppend (Actions uploadReq) ->
  Z.of_nat (length (SectorRoots sr) + length (Actions uploadReq)) < two64 ->
  parseAndHandleUploadActions SectorSize Sha256MerkleTreeRoot uploadReq zeroNd sr
                              uploadBandwidthPrice
  = Ok (mkNd (SectorRoots sr ++ map rootOf (Actions uploadReq))
             (map Z.of_nat (seq (length (SectorRoots sr)) (length (Actions uploadReq))))
             (Z.of_nat (length (Actions uploadReq)) * (uploadBandwidthPrice * SectorSize))
             (map rootOf (Actions uploadReq))
             (map Data (Actions uploadReq))
             []).
Proof.
  intros Hall Hlen. unfold parseAndHandleUploadActions.
  rewrite handleActions_appends; [reflexivity | exact Hall | exact Hlen |].
  cbn. intros k [].
Qed.

(** A request of append actions only, handled from fresh negotiation
    data: the tentative roots are the old sector roots followed by the
    roots of the appended data, in order; the gained sectors and their
    data are exactly those appended; the changed sectors are the new
    indices; and the bandwidth revenue is the upload price of one
    sector for each action. *)
Theorem parseAndHandleUploadActions_appends
        (uploadReq : UploadRequest) (sr : StorageResponsibility) (uploadBandwidthPrice : Z) :
  Forall isAppend (Actions uploadReq) ->
  Z.of_nat (length (SectorRoots sr) + length (Actions uploadReq)) < two64 ->
  parseAndHandleUploadActions SectorSize Sha256MerkleTreeRoot uploadReq zeroNd sr
                              uploadBandwidthPrice
  = Ok (mkNd (SectorRoots sr ++ map rootOf (Actions uploadReq))
             (map Z.of_nat (seq (length (SectorRoots sr)) (length (Actions uploadReq))))
             (Z.of_nat (length (Actions uploadReq)) * (uploadBandwidthPrice * SectorSize))
             (map rootOf (Actions uploadReq))
             (map Data (Actions uploadReq))
             []).
Proof.
  intros Hall Hlen. apply upload_appends_shape; assumption.
Qed.

Lemma handleActions_unknown (uploadBandwidthPrice : Z) : forall actions nd,
  Exists (fun action => ~ isAppend action) actions ->
  handleActions SectorSize Sha256MerkleTreeRoot actions nd uploadBandwidthPrice
  = Err ErrUnknownAction.
Proof.
  induction actions as [| action actions IH]; intros nd Hex; [inversion Hex |].
  cbn [handleActions]. destruct (Type_ action) eqn:Et; [| reflexivity].
  apply IH. inversion Hex as [? ? Hbad | ? ? Hrest]; subst; [| exact Hrest].
  exfalso. apply Hbad. exact Et.
Qed.

(** A request with an action that is not an append is refused with the
    unknown-action error, wherever that action stands in the list. *)
Theorem parseAndHandleUploadActions_rejects_unknown
        (uploadReq : UploadRequest) (nd : uploadNegotiationData)
        (sr : StorageResponsibility) (uploadBandwidthPrice : Z) :
  Exists (fun action => ~ isAppend action) (Actions uploadReq) ->
  parseAndHandleUploadActions SectorSize Sha256MerkleTreeRoot uploadReq nd sr
                              uploadBandwidthPrice
  = Err ErrUnknownAction.
Proof.
  intros Hex. unfold parseAndHandleUploadActions. apply handleActions_unknown. exact Hex.
Qed.

(** After a request of append actions only, no changed sector lies
    below the old number of sectors, and [calcAndSortProofRanges] gives
    no range at all. *)
Theorem append_only_no_proof_ranges
        (uploadReq : UploadRequest) (sr : StorageResponsibility) (uploadBandwidthPrice : Z)
        (nd : uploadNegotiationData) :
  Forall isAppend (Actions uploadReq) ->
  Z.of_nat (length (SectorRoots sr) + length (Actions uploadReq)) < two64 ->
  parseAndHandleUploadActions SectorSize Sha256MerkleTreeRoot uploadReq zeroNd sr
                              uploadBandwidthPrice = Ok nd ->
  calcAndSortProofRanges sr nd = [].
Proof.
  intros Hall Hlen Hparse.
  rewrite upload_appends_shape in Hparse by assumption.
  injection Hparse as <-. unfold calcAndSortProofRanges. cbn [sectorsChanged].
  assert (Hnone : forall count start,
            (length (SectorRoots sr) <= start)%nat ->
            flat_map (fun i => if i <? Z.of_nat (length (SectorRoots sr))
                               then [mkLimit i (wrap64 (i + 1))] else [])
                     (map Z.of_nat (seq start count)) = []).
  { induction count as [| count IH]; intros start Hge; [reflexivity |].
    cbn [seq map flat_map].
    replace (Z.of_nat start <? Z.of_nat (length (SectorRoots sr))) with false
      by (symmetry; apply Z.ltb_ge; lia).
    cbn [app]. apply IH. lia. }
  rewrite Hnone by lia. reflexivity.
Qed.

Lemma updateRevisionFileSizeLoop_appends : forall actions size,
  Forall isAppend actions ->
  updateRevisionFileSizeLoop SectorSize actions (wrap64 size)
  = wrap64 (size + Z.of_nat (length actions) * SectorSize).
Proof.
  induction actions as [| action actions IH]; intros size Hall.
  - cbn. f_equal. lia.
  - inversion Hall as [| ? ? Ha Hrest]; subst.
    cbn [updateRevisionFileSizeLoop]. rewrite Ha.
    replace (wrap64 (wrap64 size + SectorSize)) with (wrap64 (size + SectorSize)).
    + rewrite (IH _ Hrest). f_equal. cbn [length]. lia.
    + unfold wrap64. rewrite Z.add_mod_idemp_l; [reflexivity |].
      rewrite two64_eq. lia.
Qed.

(** File size and sector count stay in step.  When the latest revision
    records one [SectorSize] for each old sector root (as a 64-bit
    number), then after a request of append actions the new file size
    records one [SectorSize] for each of the tentative sector roots. *)
Theorem upload_file_size_matches_roots
        (uploadReq : UploadRequest) (sr : StorageResponsibility) (uploadBandwidthPrice : Z)
        (nd : uploadNegotiationData) (rev : StorageContractRevision) :
  Forall isAppend (Actions uploadReq) ->
  Z.of_nat (length (SectorRoots sr) + length (Actions uploadReq)) < two64 ->
  parseAndHandleUploadActions SectorSize Sha256MerkleTreeRoot uploadReq zeroNd sr
                              uploadBandwidthPrice = Ok nd ->
  NewFileSize rev = wrap64 (Z.of_nat (length (SectorRoots sr)) * SectorSize) ->
  NewFileSize (updateRevisionFileSize SectorSize rev uploadReq)
  = wrap64 (Z.of_nat (length (newRoots nd)) * SectorSize).
Proof.
  intros Hall Hlen Hparse Hsize.
  rewrite upload_appends_shape in Hparse by assumption.
  injection Hparse as <-. cbn [newRoots].
  unfold updateRevisionFileSize, setFileSize. cbn [NewFileSize].
  rewrite Hsize, updateRevisionFileSizeLoop_appends by exact Hall.
  f_equal. rewrite length_app, length_map. lia.
Qed.

(** What a successful [constructAndVerifyNewRevision] hands back: the
    latest revision with the request's revision number, the Merkle root
    of the tentative sector roots (also recorded in the negotiation
    data), and with the parent ID, proof window, unlock hash and
    signatures untouched; and the validation was run on that revision
    and accepted it. *)
Theorem constructAndVerifyNewRevision_result
        (blockHeight : Z) (nd nd' : uploadNegotiationData) (sr : StorageResponsibility)
        (uploadReq : UploadRequest) (newRev : StorageContractRevision) :
  constructAndVerifyNewRevision SectorSize calcHostRevenue uploadRevisionValidation
                                blockHeight nd sr uploadReq = Ok (newRev, nd') ->
  exists currentRev,
    last (map Some (StorageContractRevisions sr)) None = Some currentRev
    /\ ParentID newRev = ParentID currentRev
    /\ NewWindowStart newRev = NewWindowStart currentRev
    /\ NewWindowEnd newRev = NewWindowEnd currentRev
    /\ NewUnlockHash newRev = NewUnlockHash currentRev
    /\ RevSignatures newRev = RevSignatures currentRev
    /\ NewRevisionNumber newRev = ReqNewRevisionNumber uploadReq
    /\ NewFileMerkleRoot newRev = merkleRoot (newRoots nd)
    /\ newMerkleRoot nd' = merkleRoot (newRoots nd)
    /\ newRoots nd' = newRoots nd
    /\ uploadRevisionValidation (mkSr (newRoots nd) (StorageContractRevisions sr)) newRev
         blockHeight (calcHostRevenue nd' sr blockHeight) = None.
Proof.
  intros Hres. unfold constructAndVerifyNewRevision in Hres.
  destruct (getIndex (StorageContractRevisions sr) (length (StorageContractRevisions sr) - 1))
    as [currentRev | |] eqn:Hcur; try discriminate.
  exists currentRev.
  cbn [calcAndUpdateRevisionMerkleRoot] in Hres.
  unfold updateRevisionMissedAndValidPayback in Hres.
  cbn [NewValidProofOutputs NewMissedProofOutputs setFileMerkleRoot updateRevisionFileSize
       setFileSize setRevisionNumber] in Hres.
  destruct (appendPaybacks _ 0 (NewValidProofValues uploadReq) _ _) as [valid | |] eqn:Ev;
    try discriminate.
  destruct (appendPaybacks _ 0 (NewMissedProofValues uploadReq) _ _) as [missed | |] eqn:Em;
    try discriminate.
  destruct (uploadRevisionValidation _ _ _ _) eqn:Eval; try discriminate.
  injection Hres as <- <-. cbn. cbn in Eval.
  repeat split; try reflexivity; [| exact Eval].
  unfold getIndex in Hcur.
  destruct (nth_error (StorageContractRevisions sr) (length (StorageContractRevisions sr) - 1))
    as [c |] eqn:En; [| discriminate].
  injection Hcur as ->.
  apply nth_error_split in En. destruct En as [before [after [Hsplit Hbefore]]].
  assert (Hafter : after = []).
  { apply (f_equal (@length _)) in Hsplit. rewrite length_app in Hsplit.
    cbn [length] in Hsplit. destruct after; [reflexivity | cbn [length] in Hsplit; lia]. }
  subst after. rewrite Hsplit, map_app. cbn [map]. apply last_last.
Qed.

End UploadFacts.

Definition demoMixedRequest : UploadRequest :=
  mkUploadRequest [x09] [mkAction UploadActionAppend [x07; x08];
                         mkAction (UploadActionUnknown 1) [x07]] 2 [90; 60] [90; 30].

Definition demoOldResponsibility : StorageResponsibility :=
  mkSr [[x0a]; [x0b]; [x0c]] [demoRevision].

Definition demoChanged : uploadNegotiationData := mkNd [] [2; 0; 5] 0 [] [] [].

Lemma parseAndHandleUploadActions_appends_witness :
  parseAndHandleUploadActions 4194304 (fun data => x00 :: data) demoUploadRequest zeroNd
                              demoOldResponsibility 3
  = Ok (mkNd [[x0a]; [x0b]; [x0c]; [x00; x07; x08]] [3] (1 * (3 * 4194304))
             [[x00; x07; x08]] [[x07; x08]] []).
Proof.
  apply (parseAndHandleUploadActions_appends 4194304 (fun data => x00 :: data)
           demoUploadRequest demoOldResponsibility 3).
  - repeat constructor.
  - reflexivity.
Defined.

Lemma parseAndHandleUploadActions_rejects_unknown_witness :
  parseAndHandleUploadActions 4194304 (fun data => x00 :: data) demoMixedRequest zeroNd
                              demoOldResponsibility 3
  = Err ErrUnknownAction.
Proof.
  apply (parseAndHandleUploadActions_rejects_unknown 4194304 (fun data => x00 :: data)
           demoMixedRequest zeroNd demoOldResponsibility 3).
  apply Exists_cons_tl. apply Exists_cons_hd. unfold isAppend. cbn. discriminate.
Defined.

Lemma append_only_no_proof_ranges_witness :
  calcAndSortProofRanges demoOldResponsibility
    (mkNd [[x0a]; [x0b]; [x0c]; [x00; x07; x08]] [3] (1 * (3 * 4194304))
          [[x00; x07; x08]] [[x07; x08]] []) = [].
Proof.
  apply (append_only_no_proof_ranges 4194304 (fun data => x00 :: data)
           demoUploadRequest demoOldResponsibility 3).
  - repeat constructor.
  - reflexivity.
  - reflexivity.
Defined.

Lemma calcAndSortProofRanges_valid_witness :
  checkLimitList (calcAndSortProofRanges demoOldResponsibility demoChanged) = true
  /\ Forall (fun r => Right r = Left r + 1 /\ Right r <= 3)
            (calcAndSortProofRanges demoOldResponsibility demoChanged)
  /\ (forall i, In i (map Left (calcAndSortProofRanges demoOldResponsibility demoChanged))
                <-> In i [2; 0; 5] /\ i < 3).
Proof.
  apply (calcAndSortProofRanges_valid demoOldResponsibility demoChanged).
  - cbn. repeat constructor; cbn; intuition discriminate.
  - cbn. repeat constructor; lia.
  - reflexivity.
Defined.

Lemma calcLeafHashes_of_proof_ranges_witness :
  calcLeafHashes (calcAndSortProofRanges demoOldResponsibility demoChanged)
                 demoOldResponsibility
  = Ok (claimedLeaves (calcAndSortProofRanges demoOldResponsibility demoChanged)
                      [[x0a]; [x0b]; [x0c]]).
Proof.
  apply (calcLeafHashes_of_proof_ranges demoOldResponsibility demoChanged).
  - cbn. repeat constructor; cbn; intuition discriminate.
  - cbn. repeat constructor; lia.
  - reflexivity.
Defined.

Lemma calcLeafHashes_out_of_range_witness :
  calcLeafHashes [mkLimit 0 1; mkLimit 3 4] demoOldResponsibility = Panic.
Proof.
  apply (calcLeafHashes_out_of_range demoOldResponsibility [mkLimit 0 1; mkLimit 3 4]).
  apply Exists_cons_tl. apply Exists_cons_hd. cbn. lia.
Defined.

Lemma upload_file_size_matches_roots_witness :
  NewFileSize (updateRevisionFileSize 4194304
                 (mkRevision [x09] 1 12582912 [] 10 20 [] [] [] []) demoUploadRequest)
  = wrap64 (Z.of_nat 4 * 4194304).
Proof.
  apply (upload_file_size_matches_roots 4194304 (fun data => x00 :: data)
           demoUploadRequest demoOldResponsibility 3
           (mkNd [[x0a]; [x0b]; [x0c]; [x00; x07; x08]] [3] (1 * (3 * 4194304))
                 [[x00; x07; x08]] [[x07; x08]] [])
           (mkRevision [x09] 1 12582912 [] 10 20 [] [] [] [])).
  - repeat constructor.
  - reflexivity.
  - reflexivity.
  - reflexivity.
Defined.

Definition demoNewRevision : StorageContractRevision :=
  mkRevision [x09] 2 4194304 [] 10 20
             [mkCharge 1 100; mkCharge 2 50; mkCharge 1 90; mkCharge 2 60]
             [mkCharge 1 100; mkCharge 2 40; mkCharge 1 90; mkCharge 2 30] [] [].

Lemma constructAndVerifyNewRevision_result_witness :
  exists currentRev,
    last (map Some (StorageContractRevisions demoResponsibility)) None = Some currentRev
    /\ ParentID demoNewRevision = ParentID currentRev
    /\ NewWindowStart demoNewRevision = NewWindowStart currentRev
    /\ NewWindowEnd demoNewRevision = NewWindowEnd currentRev
    /\ NewUnlockHash demoNewRevision = NewUnlockHash currentRev
    /\ RevSignatures demoNewRevision = RevSignatures currentRev
    /\ NewRevisionNumber demoNewRevision = ReqNewRevisionNumber demoUploadRequest
    /\ NewFileMerkleRoot demoNewRevision = merkleRoot (H := tagHasher) (newRoots zeroNd)
    /\ newMerkleRoot zeroNd = merkleRoot (H := tagHasher) (newRoots zeroNd)
    /\ newRoots zeroNd = newRoots zeroNd
    /\ (fun _ _ _ _ => @None error)
         (mkSr (newRoots zeroNd) (StorageContractRevisions demoResponsibility))
         demoNewRevision 7 0 = None.
Proof.
  apply (constructAndVerifyNewRevision_result (H := tagHasher) 4194304 (fun _ _ _ => 0)
           (fun _ _ _ _ => None) 7 zeroNd zeroNd demoResponsibility demoUploadRequest
           demoNewRevision).
  reflexivity.
Defined.

(** ** The lucky wheel: which entry a draw selects *)

Lemma selectLoop_negative : forall es i selected last,
  selected < 0 -> Forall (fun entry => 0 <= vote entry) es ->
  selectLoop i selected es last = last.
Proof.
  induction es as [| entry rest IH]; intros i selected last Hneg Hall; [reflexivity |].
  inversion Hall as [| ? ? Hv Hrest]; subst.
  cbn [selectLoop]. destruct (Z.leb_spec (vote entry) selected) as [Hle | Hgt]; [lia |].
  apply IH; [lia | exact Hrest].
Qed.

(** With votes that are not negative, [selectSingleEntry] selects
    either the first entry or the last one: the first when its vote is
    at most the number drawn; otherwise the subtraction leaves a
    negative number, no later entry compares below it, and the scan
    ends in the fallback [len(lw.entries) - 1]. *)
Theorem selectSingleEntry_first_or_last
        (draw : Z) (lw : luckyWheel) (first : randomSelectorEntry)
        (rest : list randomSelectorEntry) :
  entries lw = first :: rest ->
  Forall (fun entry => 0 <= vote entry) rest ->
  selectSingleEntry draw lw
  = if vote first <=? randomBigInt draw (sumVotes lw) then 0 else Z.of_nat (length rest).
Proof.
  intros Hes Hall. unfold selectSingleEntry. rewrite Hes. cbn [selectLoop].
  destruct (Z.leb_spec (vote first) (randomBigInt draw (sumVotes lw))) as [Hle | Hgt];
    [reflexivity |].
  rewrite selectLoop_negative by (try lia; exact Hall).
  cbn [length]. lia.
Qed.

Lemma selectSingleEntry_first_or_last_witness :
  selectSingleEntry 7 (mkWheel [mkEntry 1 5; mkEntry 2 3; mkEntry 3 4] 1 [] 12)
  = if vote (mkEntry 1 5) <=? randomBigInt 7 12 then 0 else Z.of_nat 2.
Proof.
  apply (selectSingleEntry_first_or_last 7
           (mkWheel [mkEntry 1 5; mkEntry 2 3; mkEntry 3 4] 1 [] 12)
           (mkEntry 1 5) [mkEntry 2 3; mkEntry 3 4]).
  - reflexivity.
  - repeat constructor; cbn; lia.
Defined.

(** ** The client: what the flows send *)

(** Whatever the collaborators answer, [ContractCreate] sends at most
    one message, the contract creation request carrying the client's
    signature; it never sends the revision signature and never submits
    the contract; and it returns nil only on the path where reading the
    host's answer gave no error. *)
Theorem ContractCreate_stops_after_request (env : CreateEnv) (params : ContractParams) :
  snd (ContractCreate env params) = None
  /\ (snd (fst (ContractCreate env params)) = []
      \/ exists sign, signContract env = Ok sign
                      /\ snd (fst (ContractCreate env params)) = [SentContractCreation sign])
  /\ (fst (fst (ContractCreate env params)) = Returned None ->
      sendContractCreation env = None /\ readHostSign env = None).
Proof.
  destruct env as [pay fw sc sg sd rh dh sr sc2 rr dr ec st].
  unfold ContractCreate; cbn.
  destruct pay as [[rp hp] | e |]; cbn;
    try (split; [reflexivity | split; [left; reflexivity | ]]; destruct e; discriminate);
    try (split; [reflexivity | split; [left; reflexivity | discriminate]]).
  destruct fw; cbn;
    try (split; [reflexivity | split; [left; reflexivity | discriminate]]).
  destruct sc; cbn;
    try (split; [reflexivity | split; [left; reflexivity | discriminate]]).
  destruct sg as [sign | e |]; cbn;
    try (split; [reflexivity | split; [left; reflexivity | discriminate]]).
  destruct sd; cbn;
    try (split; [reflexivity | split; [left; reflexivity | discriminate]]).
  destruct rh; cbn.
  - destruct dh; cbn;
      (split; [reflexivity | split; [right; exists sign; split; reflexivity | discriminate]]).
  - split; [reflexivity | split; [right; exists sign; split; reflexivity |]].
    intros _. split; reflexivity.
Qed.

Section DownloadFacts.
Variable SectorSize : Z.
Variable SegmentSize : Z.
Variable readFromPriceCheck : DownloadRequest -> DxcoinCharge -> outcome * list downloadSent.

(** [Read] sends nothing to the host and never returns nil: a request
    that fails the sanity check gets that check's error, and every
    request that passes it runs into
    [lastRevision.NewValidProofOutputs[0]] on the zero revision, where
    the call panics. *)
Theorem Read_never_sends (req : DownloadRequest) :
  snd (Read SectorSize SegmentSize readFromPriceCheck req) = []
  /\ fst (Read SectorSize SegmentSize readFromPriceCheck req)
     = match checkSections SectorSize SegmentSize (Sections req) (MerkleProof req) with
       | Some e => Returned (Some e)
       | None => Panicked
       end
  /\ fst (Read SectorSize SegmentSize readFromPriceCheck req) <> Returned None.
Proof.
  unfold Read.
  destruct (checkSections SectorSize SegmentSize (Sections req) (MerkleProof req));
    cbn; repeat split; discriminate.
Qed.

(** The sanity check of [Read] passes exactly the requests in which
    every section lies within the sector and, when a Merkle proof is
    asked for, has an offset and a length that are multiples of
    [SegmentSize]. *)
Theorem checkSections_accepts_exactly
        (sections : list DownloadRequestSection) (merkleProof : bool) :
  0 < SegmentSize ->
  Forall wellFormedSection sections ->
  (checkSections SectorSize SegmentSize sections merkleProof = None
   <-> Forall (fun sec => Offset sec + Length sec <= SectorSize
                          /\ (merkleProof = true ->
                              (SegmentSize | Offset sec) /\ (SegmentSize | Length sec)))
              sections).
Proof.
  intros Hseg Hwf.
  induction sections as [| sec rest IH]; [split; [constructor | reflexivity] |].
  inversion Hwf as [| ? ? [Ho Hl] Hrest]; subst.
  specialize (IH Hrest). cbn [checkSections].
  rewrite wrap64_small by (rewrite two64_eq; change (2 ^ 32) with 4294967296 in *; lia).
  destruct (Z.gtb_spec (Offset sec + Length sec) SectorSize) as [Hbig | Hfit].
  - split; [discriminate |]. intros Hall. inversion Hall as [| ? ? [Hle _] _]; subst. lia.
  - destruct merkleProof.
    + cbn [andb].
      destruct (Z.eqb_spec (Offset sec mod SegmentSize) 0) as [Eo | Eo];
        destruct (Z.eqb_spec (Length sec mod SegmentSize) 0) as [El | El]; cbn [negb orb].
      * rewrite IH. split.
        -- intros Hall. constructor; [| exact Hall].
           split; [exact Hfit |]. intros _.
           split; apply Z.mod_divide; try lia; assumption.
        -- intros Hall. inversion Hall; subst. assumption.
      * split; [discriminate |]. intros Hall.
        inversion Hall as [| ? ? [_ Hdiv] _]; subst.
        destruct (Hdiv eq_refl) as [_ Hd]. apply Z.mod_divide in Hd; [| lia]. contradiction.
      * split; [discriminate |]. intros Hall.
        inversion Hall as [| ? ? [_ Hdiv] _]; subst.
        destruct (Hdiv eq_refl) as [Hd _]. apply Z.mod_divide in Hd; [| lia]. contradiction.
      * split; [discriminate |]. intros Hall.
        inversion Hall as [| ? ? [_ Hdiv] _]; subst.
        destruct (Hdiv eq_refl) as [Hd _]. apply Z.mod_divide in Hd; [| lia]. contradiction.
    + cbn [andb]. rewrite IH. split.
      * intros Hall. constructor; [| exact Hall]. split; [exact Hfit | discriminate].
      * intros Hall. inversion Hall; subst. assumption.
Qed.

End DownloadFacts.

Lemma checkSections_accepts_exactly_witness :
  checkSections 4194304 64 [mkSection [x01] 64 128; mkSection [x02] 0 4194304] true = None
  <-> Forall (fun sec => Offset sec + Length sec <= 4194304
                         /\ (true = true -> (64 | Offset sec) /\ (64 | Length sec)))
             [mkSection [x01] 64 128; mkSection [x02] 0 4194304].
Proof.
  apply (checkSections_accepts_exactly 4194304 64
           [mkSection [x01] 64 128; mkSection [x02] 0 4194304] true).
  - lia.
  - repeat constructor; cbn; lia.
Defined.

(** ** Package storagehosttree: the nodes of the host tree *)

(** ErrEvaluationTooLarge, ErrNodeNotOccupied *)
Definition ErrEvaluationTooLarge : error := ErrOther 2.
Definition ErrNodeNotOccupied : error := ErrOther 3.

(** nodeEntry: a [storage.HostInfo], which the nodes only carry, and
    its evaluation. *)
Record nodeEntry (HostInfo : Type) : Type := mkNodeEntry {
  info : HostInfo;
  eval : Z          (* common.BigInt *)
}.
Arguments mkNodeEntry {HostInfo}.
Arguments info {HostInfo}.
Arguments eval {HostInfo}.

(** node.  A [*node] is [nilNode] or a node with its two children; the
    [parent] pointer is not stored: every child made by [newNode] has
    the node it hangs under as its parent, so [parent == nil] holds at
    the root only, and the ancestors of a node are the nodes on the
    path that leads to it. *)
Inductive node (HostInfo : Type) : Type :=
| nilNode
| Node (left right : node HostInfo) (count : Z) (occupied : bool) (eval : Z)
       (entry : option (nodeEntry HostInfo)).
Arguments nilNode {HostInfo}.
Arguments Node {HostInfo}.

(** The way from a node down to one below it. *)
Inductive step : Type := goLeft | goRight.

Section HostTree.
Context {HostInfo : Type}.

(** newNode will create and initialize a new node object. *)
Definition newNode (entry : nodeEntry HostInfo) : node HostInfo :=
  Node nilNode nilNode 1 true (eval entry) (Some entry).

Definition isNil (n : node HostInfo) : bool :=
  match n with nilNode => true | Node _ _ _ _ _ _ => false end.

(** nodeInsert will insert the node entry into the StorageHostTree.
    [isRoot] is [n.parent == nil].  The result is [nodesAdded], the way
    to [nodeInserted], and the node after the call; a nil receiver
    panics. *)
Fixpoint nodeInsert (n : node HostInfo) (isRoot : bool) (entry : nodeEntry HostInfo)
  : result (Z * list step * node HostInfo) :=
  match n with
  | nilNode => Panic
  | Node nleft nright count occupied neval nentry =>
      (* 1. check if the node is root node *)
      if isRoot && negb occupied && isNil nleft && isNil nright
      then Ok (0, [], Node nleft nright count true (eval entry) (Some entry))
      else
        (* 2. add all child evaluation *)
        let neval := neval + eval entry in
        (* 3. check if the node is occupied *)
        if negb occupied
        then Ok (0, [], Node nleft nright count true neval (Some entry))
        else
          (* 4. insert new node, binary tree; 5. update the node count *)
          match nleft, nright with
          | nilNode, _ =>
              Ok (1, [goLeft],
                  Node (newNode entry) nright (toInt64 (count + 1)) occupied neval nentry)
          | Node _ _ _ _ _ _, nilNode =>
              Ok (1, [goRight],
                  Node nleft (newNode entry) (toInt64 (count + 1)) occupied neval nentry)
          | Node _ _ lcount _ _ _, Node _ _ rcount _ _ _ =>
              if lcount <=? rcount
              then match nodeInsert nleft false entry with
                   | Ok (nodesAdded, nodeInserted, left') =>
                       Ok (nodesAdded, goLeft :: nodeInserted,
                           Node left' nright (toInt64 (count + nodesAdded)) occupied neval nentry)
                   | Err e => Err e
                   | Panic => Panic
                   end
              else match nodeInsert nright false entry with
                   | Ok (nodesAdded, nodeInserted, right') =>
                       Ok (nodesAdded, goRight :: nodeInserted,
                           Node nleft right' (toInt64 (count + nodesAdded)) occupied neval nentry)
                   | Err e => Err e
                   | Panic => Panic
                   end
          end
  end.

(** nodeWithEval will retrieve node with the specific evaluation. *)
Fixpoint nodeWithEval (n : node HostInfo) (e : Z) : result (node HostInfo) :=
  match n with
  | nilNode => Panic
  | Node nleft nright count occupied neval nentry =>
      if e >? neval then Err ErrEvaluationTooLarge
      else
        let own := if occupied then Ok n else Err ErrNodeNotOccupied in
        let fromRight (e : Z) :=
          match nright with
          | Node _ _ _ _ reval _ => if e <? reval then nodeWithEval nright e else own
          | nilNode => own
          end in
        match nleft with
        | Node _ _ _ _ leval _ =>
            if e <? leval then nodeWithEval nleft e else fromRight (e - leval)
        | nilNode => fromRight e
        end
  end.

(** The node that [p] leads to from [n]; nil when [p] leaves the tree. *)
Fixpoint nodeAt (n : node HostInfo) (p : list step) {struct p} : node HostInfo :=
  match p, n with
  | [], _ => n
  | _ :: _, nilNode => nilNode
  | goLeft :: rest, Node nleft _ _ _ _ _ => nodeAt nleft rest
  | goRight :: rest, Node _ nright _ _ _ _ => nodeAt nright rest
  end.

(** The writes of [nodeRemove], seen from the root: [occupied] is
    cleared at the node that [p] leads to, and [v] is subtracted from
    the evaluation of every node passed on the way, which are the
    parents the loop walks up through. *)
Fixpoint removeAlong (n : node HostInfo) (p : list step) (v : Z) : node HostInfo :=
  match n with
  | nilNode => nilNode
  | Node nleft nright count occupied neval nentry =>
      match p with
      | [] => Node nleft nright count false neval nentry
      | goLeft :: rest => Node (removeAlong nleft rest v) nright count occupied (neval - v) nentry
      | goRight :: rest => Node nleft (removeAlong nright rest v) count occupied (neval - v) nentry
      end
  end.

(** nodeRemove will not remove the actual node from the tree; instead,
    it update the evaluation, and occupied status.  The receiver is the
    node that [p] leads to from [root]; the result is the tree after
    the call.  A nil receiver panics, and so does a receiver without an
    entry once the loop reads [n.entry.eval]. *)
Definition nodeRemove (root : node HostInfo) (p : list step) : result (node HostInfo) :=
  match nodeAt root p with
  | nilNode => Panic
  | Node _ _ _ _ _ nentry =>
      match p, nentry with
      | [], _ => Ok (removeAlong root p 0)
      | _ :: _, Some entry => Ok (removeAlong root p (eval entry))
      | _ :: _, None => Panic
      end
  end.

End HostTree.
Section HostTreeFacts.
Context {HostInfo : Type}.

(** [n.eval] and [n.count], taken as 0 for a nil child. *)
Definition nodeEval (n : node HostInfo) : Z :=
  match n with nilNode => 0 | Node _ _ _ _ neval _ => neval end.

Definition nodeCount (n : node HostInfo) : Z :=
  match n with nilNode => 0 | Node _ _ count _ _ _ => count end.

Definition entryOf (n : node HostInfo) : option (nodeEntry HostInfo) :=
  match n with nilNode => None | Node _ _ _ _ _ nentry => nentry end.

(** The entries of the occupied nodes, in the order in which
    [nodeWithEval] goes through them: left subtree, right subtree,
    the node itself. *)
Fixpoint inOrder (n : node HostInfo) : list (nodeEntry HostInfo) :=
  match n with
  | nilNode => []
  | Node nleft nright _ occupied _ nentry =>
      inOrder nleft ++ inOrder nright
      ++ (if occupied then match nentry with Some entry => [entry] | None => [] end else [])
  end.

Definition sumEvals (es : list (nodeEntry HostInfo)) : Z :=
  fold_right (fun entry total => eval entry + total) 0 es.

(** A tree as insertions alone make it: every node is occupied, its
    evaluation is the sum over its subtree, its count is the number of
    nodes of its subtree, and the left subtree has as many nodes as the
    right one, or one more. *)
Fixpoint sound (n : node HostInfo) : Prop :=
  match n with
  | nilNode => True
  | Node nleft nright count occupied neval nentry =>
      occupied = true
      /\ (exists entry, nentry = Some entry
                        /\ neval = nodeEval nleft + nodeEval nright + eval entry)
      /\ count = 1 + nodeCount nleft + nodeCount nright
      /\ nodeCount nright <= nodeCount nleft <= nodeCount nright + 1
      /\ sound nleft /\ sound nright
  end.

(** Selection by a wheel: the first entry whose evaluation, added to
    those before it, exceeds [e]. *)
Fixpoint pick (es : list (nodeEntry HostInfo)) (e : Z) : option (nodeEntry HostInfo) :=
  match es with
  | [] => None
  | entry :: rest => if e <? eval entry then Some entry else pick rest (e - eval entry)
  end.

Lemma sound_count (n : node HostInfo) :
  sound n -> 0 <= nodeCount n /\ (n <> nilNode -> 1 <= nodeCount n).
Proof.
  induction n as [| l IHl r IHr c o e en]; intros Hs; [cbn; split; [lia | congruence] |].
  destruct Hs as [_ [_ [Hc [_ [Hl Hr]]]]].
  destruct (IHl Hl) as [Hl0 _]. destruct (IHr Hr) as [Hr0 _].
  cbn [nodeCount]. split; [lia | intros _; lia].
Qed.

Lemma sound_count_nil (n : node HostInfo) : sound n -> nodeCount n <= 0 -> n = nilNode.
Proof.
  intros Hs Hc. destruct n as [| l r c o e en]; [reflexivity |].
  destruct (sound_count _ Hs) as [_ Hpos].
  assert (1 <= nodeCount (Node l r c o e en)) by (apply Hpos; discriminate). lia.
Qed.

Lemma sumEvals_app (a b : list (nodeEntry HostInfo)) :
  sumEvals (a ++ b) = sumEvals a + sumEvals b.
Proof. induction a as [| x a IH]; cbn; [reflexivity | unfold sumEvals in *; lia]. Qed.

Lemma sound_eval (n : node HostInfo) : sound n -> nodeEval n = sumEvals (inOrder n).
Proof.
  induction n as [| l IHl r IHr c o e en]; intros Hs; [reflexivity |].
  destruct Hs as [-> [[x [-> He]] [_ [_ [Hl Hr]]]]].
  cbn [nodeEval inOrder]. rewrite !sumEvals_app, <- (IHl Hl), <- (IHr Hr). cbn. lia.
Qed.

Lemma sound_newNode (entry : nodeEntry HostInfo) : sound (newNode entry).
Proof.
  cbn. split; [reflexivity |]. split; [exists entry; split; [reflexivity | lia] |].
  split; [lia |]. split; [lia |]. split; exact I.
Qed.

Lemma nodeInsert_sound_step : forall (n : node HostInfo) (isRoot : bool) (entry : nodeEntry HostInfo),
  sound n -> n <> nilNode -> nodeCount n < two63 - 1 ->
  exists p n',
    nodeInsert n isRoot entry = Ok (1, p, n')
    /\ sound n'
    /\ nodeCount n' = nodeCount n + 1
    /\ nodeEval n' = nodeEval n + eval entry
    /\ nodeAt n' p = newNode entry
    /\ Permutation (inOrder n') (entry :: inOrder n).
Proof.
  induction n as [| l IHl r IHr c o e en]; intros isRoot entry Hs Hnil Hc; [congruence |].
  pose proof Hs as Hs'.
  destruct Hs as [-> [[x [-> He]] [Hcount [Hbal [Hl Hr]]]]].
  destruct (sound_count _ Hl) as [Hl0 Hl1]. destruct (sound_count _ Hr) as [Hr0 Hr1].
  cbn [nodeCount nodeEval] in *.
  assert (Htwo : two63 = 9223372036854775808) by reflexivity.
  cbn [nodeInsert negb]. rewrite andb_false_r. cbn [andb].
  destruct l as [| ll lr lc lo le len].
  - (* no left child *)
    assert (r = nilNode) by (apply sound_count_nil; [exact Hr | cbn [nodeCount] in Hbal; lia]).
    subst r. cbn [nodeCount nodeEval] in *.
    exists [goLeft], (Node (newNode entry) nilNode (toInt64 (c + 1)) true (e + eval entry) (Some x)).
    rewrite toInt64_id by lia.
    split; [reflexivity |]. split.
    { cbn [sound]. change (nodeCount (newNode entry)) with 1.
      change (nodeEval (newNode entry)) with (eval entry). cbn [nodeCount nodeEval].
      split; [reflexivity |]. split; [exists x; split; [reflexivity | lia] |].
      split; [lia |]. split; [lia |]. split; [apply sound_newNode | exact I]. }
    split; [reflexivity |]. split; [reflexivity |]. split; [reflexivity |].
    cbn. apply Permutation_refl.
  - assert (Hlpos : 1 <= lc) by (apply Hl1; discriminate).
    destruct r as [| rl rr rc ro re ren].
    + (* no right child *)
      exists [goRight],
        (Node (Node ll lr lc lo le len) (newNode entry) (toInt64 (c + 1)) true (e + eval entry)
              (Some x)).
      rewrite toInt64_id by lia.
      split; [reflexivity |]. split.
      { cbn [nodeCount nodeEval] in Hbal, Hcount, He.
        change (sound (Node (Node ll lr lc lo le len) (newNode entry) (c + 1) true
                            (e + eval entry) (Some x)))
          with (true = true
                /\ (exists entry0, Some x = Some entry0
                       /\ e + eval entry = le + eval entry + eval entry0)
                /\ c + 1 = 1 + lc + 1
                /\ 1 <= lc <= 1 + 1
                /\ sound (Node ll lr lc lo le len) /\ sound (newNode entry)).
        split; [reflexivity |]. split; [exists x; split; [reflexivity | lia] |].
        split; [lia |]. split; [lia |]. split; [exact Hl | apply sound_newNode]. }
      split; [reflexivity |]. split; [reflexivity |]. split; [reflexivity |].
      change (inOrder (Node (Node ll lr lc lo le len) (newNode entry) (c + 1) true
                            (e + eval entry) (Some x)))
        with (inOrder (Node ll lr lc lo le len) ++ [entry] ++ [x]).
      change (inOrder (Node (Node ll lr lc lo le len) nilNode c true e (Some x)))
        with (inOrder (Node ll lr lc lo le len) ++ [] ++ [x]).
      apply Permutation_sym. cbn [app].
      apply (Permutation_cons_app (inOrder (Node ll lr lc lo le len)) [x] entry).
      apply Permutation_refl.
    + cbn [nodeCount nodeEval] in *.
      destruct (Z.leb_spec lc rc) as [Hle | Hgt].
      * destruct (IHl false entry Hl) as [p [l' [Hins [Hsl [Hcl [Hel [Hat Hperm]]]]]]];
          [discriminate | cbn [nodeCount]; lia |].
        rewrite Hins. cbn [nodeCount nodeEval] in *.
        exists (goLeft :: p),
          (Node l' (Node rl rr rc ro re ren) (toInt64 (c + 1)) true (e + eval entry) (Some x)).
        rewrite toInt64_id by lia.
        split; [reflexivity |]. split.
        { cbn [sound nodeCount nodeEval].
          split; [reflexivity |]. split; [exists x; split; [reflexivity | lia] |].
          split; [lia |]. split; [lia |]. split; [exact Hsl | exact Hr]. }
        split; [reflexivity |]. split; [reflexivity |]. split; [exact Hat |].
        cbn [inOrder]. change (entry :: ?a ++ ?b) with ((entry :: a) ++ b).
        apply Permutation_app_tail. exact Hperm.
      * destruct (IHr false entry Hr) as [p [r' [Hins [Hsr [Hcr [Her [Hat Hperm]]]]]]];
          [discriminate | cbn [nodeCount]; lia |].
        rewrite Hins. cbn [nodeCount nodeEval] in *.
        exists (goRight :: p),
          (Node (Node ll lr lc lo le len) r' (toInt64 (c + 1)) true (e + eval entry) (Some x)).
        rewrite toInt64_id by lia.
        split; [reflexivity |]. split.
        { cbn [sound nodeCount nodeEval].
          split; [reflexivity |]. split; [exists x; split; [reflexivity | lia] |].
          split; [lia |]. split; [lia |]. split; [exact Hl | exact Hsr]. }
        split; [reflexivity |]. split; [reflexivity |]. split; [exact Hat |].
        cbn [inOrder].
        set (L := inOrder (Node ll lr lc lo le len)).
        set (R := inOrder (Node rl rr rc ro re ren)).
        apply Permutation_trans with (L ++ (entry :: R) ++ [x]).
        -- apply Permutation_app_head. apply Permutation_app_tail. exact Hperm.
        -- apply Permutation_sym. cbn [app].
           apply (Permutation_cons_app L (R ++ [x]) entry). apply Permutation_refl.
Qed.


(** [nodeInsert] on a tree made by insertions alone: one node is
    added, a leaf holding the entry, at the place the result names; the
    tree stays as insertions make it (sums, counts and balance hold at
    every node); its count grows by one and its evaluation by the
    entry's; and its entries are the old ones and the new one. *)
Theorem nodeInsert_keeps_sound
        (n : node HostInfo) (isRoot : bool) (entry : nodeEntry HostInfo) :
  sound n -> n <> nilNode -> nodeCount n < two63 - 1 ->
  exists p n',
    nodeInsert n isRoot entry = Ok (1, p, n')
    /\ sound n'
    /\ nodeCount n' = nodeCount n + 1
    /\ nodeEval n' = nodeEval n + eval entry
    /\ nodeAt n' p = newNode entry
    /\ Permutation (inOrder n') (entry :: inOrder n).
Proof. apply nodeInsert_sound_step. Qed.

(** Entries inserted one after another at the root. *)
Fixpoint insertAll (root : node HostInfo) (es : list (nodeEntry HostInfo))
  : result (node HostInfo) :=
  match es with
  | [] => Ok root
  | entry :: rest =>
      match nodeInsert root true entry with
      | Ok (_, _, root') => insertAll root' rest
      | Err e => Err e
      | Panic => Panic
      end
  end.

(** The number of nodes on the longest way down from [n]. *)
Fixpoint depth (n : node HostInfo) : Z :=
  match n with
  | nilNode => 0
  | Node nleft nright _ _ _ _ => 1 + Z.max (depth nleft) (depth nright)
  end.

Lemma depth_nonneg (n : node HostInfo) : 0 <= depth n.
Proof. induction n as [| l IHl r IHr c o e en]; cbn [depth]; lia. Qed.

Lemma sound_depth (n : node HostInfo) :
  sound n -> n <> nilNode -> 2 ^ (depth n - 1) <= nodeCount n.
Proof.
  induction n as [| l IHl r IHr c o e en]; intros Hs Hnil; [congruence |].
  destruct Hs as [_ [_ [Hc [Hbal [Hl Hr]]]]].
  cbn [depth nodeCount]. replace (1 + Z.max (depth l) (depth r) - 1)
    with (Z.max (depth l) (depth r)) by lia.
  destruct (sound_count _ Hl) as [Hl0 _]. destruct (sound_count _ Hr) as [Hr0 _].
  assert (Hone : forall m : node HostInfo,
            sound m -> (m <> nilNode -> 2 ^ (depth m - 1) <= nodeCount m) ->
            2 ^ depth m <= 2 * nodeCount m + 1).
  { intros m Hm IH. destruct m as [| ml mr mc mo me men]; [cbn; lia |].
    specialize (IH ltac:(discriminate)).
    pose proof (depth_nonneg (Node ml mr mc mo me men)) as Hd.
    assert (1 <= depth (Node ml mr mc mo me men))
      by (cbn [depth]; pose proof (depth_nonneg ml); pose proof (depth_nonneg mr); lia).
    replace (depth (Node ml mr mc mo me men))
      with (Z.succ (depth (Node ml mr mc mo me men) - 1)) by lia.
    rewrite Z.pow_succ_r by lia. lia. }
  pose proof (Hone l Hl (IHl Hl)) as Hdl. pose proof (Hone r Hr (IHr Hr)) as Hdr.
  assert (Heven : forall d k, 0 <= d -> 2 ^ d <= 2 * k + 1 -> d = 0 \/ 2 ^ d <= 2 * k).
  { intros d k Hd Hle. destruct (Z.eq_dec d 0) as [-> | Hne]; [left; reflexivity | right].
    replace d with (Z.succ (d - 1)) in * by lia. rewrite Z.pow_succ_r in * by lia. lia. }
  destruct (Z.max_spec (depth l) (depth r)) as [[_ ->] | [_ ->]].
  - destruct (Heven _ _ (depth_nonneg r) Hdr) as [-> | Hle]; [cbn; lia | lia].
  - destruct (Heven _ _ (depth_nonneg l) Hdl) as [-> | Hle]; [cbn; lia | lia].
Qed.

Lemma insertAll_sound_from : forall (es : list (nodeEntry HostInfo)) (root : node HostInfo),
  sound root -> root <> nilNode ->
  nodeCount root + Z.of_nat (length es) < two63 ->
  exists root',
    insertAll root es = Ok root'
    /\ sound root' /\ root' <> nilNode
    /\ nodeCount root' = nodeCount root + Z.of_nat (length es)
    /\ nodeEval root' = nodeEval root + sumEvals es
    /\ Permutation (inOrder root') (es ++ inOrder root).
Proof.
  induction es as [| entry es IH]; intros root Hs Hnil Hlen.
  - exists root. cbn. repeat split; try assumption; try lia. apply Permutation_refl.
  - cbn [insertAll]. cbn [length] in Hlen.
    destruct (nodeInsert_sound_step root true entry Hs Hnil)
      as [p [root1 [Hins [Hs1 [Hc1 [He1 [_ Hp1]]]]]]]; [lia |].
    rewrite Hins.
    assert (Hnil1 : root1 <> nilNode).
    { intros ->. destruct (sound_count _ Hs) as [H0 _]. cbn in Hc1. lia. }
    destruct (IH root1 Hs1 Hnil1) as [root' [Hall [Hs' [Hnil' [Hc' [He' Hp']]]]]]; [lia |].
    exists root'. split; [exact Hall |]. split; [exact Hs' |]. split; [exact Hnil' |].
    split; [cbn [length]; lia |]. split; [cbn [sumEvals fold_right] in *; unfold sumEvals in *; lia |].
    apply Permutation_trans with (es ++ inOrder root1); [exact Hp' |].
    apply Permutation_trans with (es ++ entry :: inOrder root).
    + apply Permutation_app_head. exact Hp1.
    + apply Permutation_sym. cbn [app]. apply Permutation_cons_app. apply Permutation_refl.
Qed.

(** Entries inserted one after another into an empty root (no entry,
    no children, count 1) give a tree as insertions make it: it holds
    exactly the entries inserted, its count is their number, its
    evaluation is the sum of theirs, and no way down is longer than
    one more than the binary logarithm of their number. *)
Theorem insertAll_builds_balanced_tree
        (es : list (nodeEntry HostInfo)) (stale : Z) (none : option (nodeEntry HostInfo)) :
  es <> [] ->
  Z.of_nat (length es) < two63 ->
  exists root,
    insertAll (Node nilNode nilNode 1 false stale none) es = Ok root
    /\ sound root
    /\ nodeCount root = Z.of_nat (length es)
    /\ nodeEval root = sumEvals es
    /\ Permutation (inOrder root) es
    /\ 2 ^ (depth root - 1) <= Z.of_nat (length es).
Proof.
  intros Hne Hlen. destruct es as [| entry es]; [congruence |].
  cbn [insertAll nodeInsert andb negb isNil].
  assert (Hfirst : sound (Node nilNode nilNode 1 true (eval entry) (Some entry)))
    by exact (sound_newNode entry).
  cbn [length] in Hlen.
  destruct (insertAll_sound_from es _ Hfirst) as [root [Hall [Hs [Hnil [Hc [He Hp]]]]]];
    [discriminate | cbn [nodeCount]; lia |].
  cbn [nodeCount nodeEval inOrder app] in *.
  exists root. split; [exact Hall |]. split; [exact Hs |].
  assert (Hcount : nodeCount root = Z.of_nat (length (entry :: es))) by (cbn [length]; lia).
  split; [exact Hcount |].
  split; [cbn [sumEvals fold_right]; unfold sumEvals in He; lia |].
  split.
  - apply Permutation_trans with (es ++ [entry]); [exact Hp |].
    apply Permutation_sym. apply Permutation_cons_append.
  - rewrite <- Hcount. apply sound_depth; assumption.
Qed.

Lemma sumEvals_nonneg (es : list (nodeEntry HostInfo)) :
  Forall (fun entry => 0 <= eval entry) es -> 0 <= sumEvals es.
Proof.
  induction 1 as [| x es Hx _ IH]; cbn; [lia | unfold sumEvals in IH; lia].
Qed.

Lemma pick_app_l (a b : list (nodeEntry HostInfo)) : forall e,
  0 <= e < sumEvals a -> pick (a ++ b) e = pick a e.
Proof.
  induction a as [| x a IH]; intros e He; [cbn in He; lia |].
  cbn [app pick]. destruct (Z.ltb_spec e (eval x)) as [Hlt | Hge]; [reflexivity |].
  apply IH. cbn [sumEvals fold_right] in He. unfold sumEvals. lia.
Qed.

Lemma pick_app_r (a b : list (nodeEntry HostInfo)) : forall e,
  Forall (fun entry => 0 <= eval entry) a -> sumEvals a <= e ->
  pick (a ++ b) e = pick b (e - sumEvals a).
Proof.
  induction a as [| x a IH]; intros e Hall He; [cbn; f_equal; lia |].
  inversion Hall as [| ? ? Hx Hrest]; subst.
  pose proof (sumEvals_nonneg a Hrest) as Hsum.
  cbn [sumEvals fold_right] in He. fold (sumEvals a) in He.
  cbn [app pick]. destruct (Z.ltb_spec e (eval x)) as [Hlt | Hge]; [lia |].
  rewrite IH by (try assumption; lia). f_equal.
  cbn [sumEvals fold_right]. fold (sumEvals a). lia.
Qed.

Lemma nodeWithEval_pick_step : forall (n : node HostInfo) (e : Z),
  sound n -> n <> nilNode ->
  Forall (fun entry => 0 <= eval entry) (inOrder n) ->
  0 <= e < nodeEval n ->
  exists m entry,
    nodeWithEval n e = Ok m
    /\ entryOf m = Some entry
    /\ pick (inOrder n) e = Some entry.
Proof.
  induction n as [| l IHl r IHr c o ne en]; intros e Hs Hnil Hall He; [congruence |].
  pose proof Hs as Hs'.
  destruct Hs as [-> [[x [-> Hne]] [_ [_ [Hl Hr]]]]].
  cbn [inOrder] in Hall. apply Forall_app in Hall. destruct Hall as [HallL Hall].
  apply Forall_app in Hall. destruct Hall as [HallR _].
  pose proof (sound_eval l Hl) as HeL. pose proof (sound_eval r Hr) as HeR.
  pose proof (sumEvals_nonneg _ HallL) as HnnL. pose proof (sumEvals_nonneg _ HallR) as HnnR.
  cbn [nodeEval] in He.
  assert (Hright : forall e',
            0 <= e' < nodeEval r + eval x ->
            exists m entry,
              match r with
              | Node _ _ _ _ reval _ =>
                  if e' <? reval then nodeWithEval r e'
                  else Ok (Node l r c true ne (Some x))
              | nilNode => Ok (Node l r c true ne (Some x))
              end = Ok m
              /\ entryOf m = Some entry
              /\ pick (inOrder r ++ [x]) e' = Some entry).
  { intros e' He'. destruct r as [| rl rr rc ro re ren].
    - cbn [nodeEval] in He'. exists (Node l nilNode c true ne (Some x)), x.
      split; [reflexivity |]. split; [reflexivity |].
      cbn [inOrder app pick]. destruct (Z.ltb_spec e' (eval x)); [reflexivity | lia].
    - cbn [nodeEval] in He', HeR.
      destruct (Z.ltb_spec e' re) as [Hlt | Hge].
      + destruct (IHr e' Hr) as [m [entry [Hm [Hentry Hpick]]]];
          [discriminate | exact HallR | cbn [nodeEval]; lia |].
        exists m, entry. split; [exact Hm |]. split; [exact Hentry |].
        rewrite pick_app_l by lia. exact Hpick.
      + exists (Node l (Node rl rr rc ro re ren) c true ne (Some x)), x.
        split; [reflexivity |]. split; [reflexivity |].
        rewrite pick_app_r by (try assumption; lia).
        cbn [pick]. destruct (Z.ltb_spec (e' - sumEvals (inOrder (Node rl rr rc ro re ren)))
                                         (eval x)); [reflexivity | lia]. }
  cbn [nodeWithEval]. cbv zeta.
  destruct (Z.gtb_spec e ne) as [Hbig | _]; [lia |].
  cbn [inOrder].
  destruct l as [| ll lr lc lo le len].
  - cbn [nodeEval inOrder app] in *. apply Hright. lia.
  - cbn [nodeEval] in HeL, Hne.
    destruct (Z.ltb_spec e le) as [Hlt | Hge].
    + destruct (IHl e Hl) as [m [entry [Hm [Hentry Hpick]]]];
        [discriminate | exact HallL | cbn [nodeEval]; lia |].
      exists m, entry. split; [exact Hm |]. split; [exact Hentry |].
      rewrite pick_app_l by lia. exact Hpick.
    + rewrite pick_app_r by (try assumption; lia). rewrite <- HeL.
      apply Hright. lia.
Qed.

(** [nodeWithEval] selects as a wheel does.  On a tree made by
    insertions alone whose evaluations are not negative, every [e] from
    0 up to, but not including, the evaluation of the root gives an
    occupied node, and its entry is the one a scan through the entries
    (left subtree, right subtree, node) reaches when it sums up their
    evaluations until the sum exceeds [e]: each entry is selected by as
    many values of [e] as its evaluation says. *)
Theorem nodeWithEval_selects_by_weight (n : node HostInfo) (e : Z) :
  sound n -> n <> nilNode ->
  Forall (fun entry => 0 <= eval entry) (inOrder n) ->
  0 <= e < nodeEval n ->
  exists m entry,
    nodeWithEval n e = Ok m
    /\ entryOf m = Some entry
    /\ pick (inOrder n) e = Some entry.
Proof. apply nodeWithEval_pick_step. Qed.

(** On a tree in which every node is occupied, as insertions alone
    leave it, [nodeWithEval] fails exactly for an [e] greater than the
    evaluation of the root, with ErrEvaluationTooLarge; for every other
    [e] (the evaluation of the root itself and negative numbers
    included) it returns an occupied node, never ErrNodeNotOccupied. *)
Theorem nodeWithEval_fails_only_above (n : node HostInfo) (e : Z) :
  sound n -> n <> nilNode ->
  (nodeEval n < e -> nodeWithEval n e = Err ErrEvaluationTooLarge)
  /\ (e <= nodeEval n ->
      exists m entry, nodeWithEval n e = Ok m /\ entryOf m = Some entry).
Proof.
  revert e. induction n as [| l IHl r IHr c o ne en]; intros e Hs Hnil; [congruence |].
  destruct Hs as [-> [[x [-> Hne]] [_ [_ [Hl Hr]]]]].
  cbn [nodeEval]. split.
  - intros Hbig. cbn [nodeWithEval].
    destruct (Z.gtb_spec e ne) as [_ | Hle]; [reflexivity | lia].
  - intros Hle. cbn [nodeWithEval]. cbv zeta.
    destruct (Z.gtb_spec e ne) as [Hbig | _]; [lia |].
    assert (Hright : forall e',
              exists m entry,
                match r with
                | Node _ _ _ _ reval _ =>
                    if e' <? reval then nodeWithEval r e'
                    else Ok (Node l r c true ne (Some x))
                | nilNode => Ok (Node l r c true ne (Some x))
                end = Ok m
                /\ entryOf m = Some entry).
    { intros e'. destruct r as [| rl rr rc ro re ren].
      - exists (Node l nilNode c true ne (Some x)), x. split; reflexivity.
      - destruct (Z.ltb_spec e' re) as [Hlt | Hge].
        + destruct (IHr e' Hr) as [_ Hok]; [discriminate |].
          apply Hok. cbn [nodeEval]. lia.
        + exists (Node l (Node rl rr rc ro re ren) c true ne (Some x)), x.
          split; reflexivity. }
    destruct l as [| ll lr lc lo le len]; [apply Hright |].
    destruct (Z.ltb_spec e le) as [Hlt | Hge]; [| apply Hright].
    destruct (IHl e Hl) as [_ Hok]; [discriminate |].
    apply Hok. cbn [nodeEval]. lia.
Qed.

(** A node with [occupied] cleared. *)
Definition cleared (n : node HostInfo) : node HostInfo :=
  match n with
  | nilNode => nilNode
  | Node nleft nright count _ neval nentry => Node nleft nright count false neval nentry
  end.

Lemma sumEvals_perm (a b : list (nodeEntry HostInfo)) :
  Permutation a b -> sumEvals a = sumEvals b.
Proof.
  induction 1 as [| x a b _ IH | x y a | a b c _ IH1 _ IH2]; cbn; unfold sumEvals in *; lia.
Qed.

Lemma removeAlong_spec (v : Z) : forall (p : list step) (n : node HostInfo) (x : nodeEntry HostInfo),
  sound n -> entryOf (nodeAt n p) = Some x ->
  Permutation (x :: inOrder (removeAlong n p v)) (inOrder n)
  /\ nodeCount (removeAlong n p v) = nodeCount n
  /\ nodeEval (removeAlong n p v) = nodeEval n - (match p with [] => 0 | _ :: _ => v end)
  /\ nodeAt (removeAlong n p v) p = cleared (nodeAt n p).
Proof.
  induction p as [| s p IH]; intros n x Hs Hx.
  - cbn [nodeAt] in Hx. destruct n as [| l r c o e en]; [discriminate |].
    cbn [entryOf] in Hx. subst en. destruct Hs as [-> _].
    cbn [removeAlong nodeAt cleared nodeCount nodeEval inOrder].
    split; [| split; [reflexivity | split; [lia | reflexivity]]].
    rewrite !app_nil_r. rewrite app_assoc.
    apply Permutation_cons_append.
  - destruct n as [| l r c o e en]; [destruct s; discriminate |].
    destruct Hs as [-> [[y [-> _]] [_ [_ [Hl Hr]]]]].
    destruct s; cbn [nodeAt] in Hx; cbn [removeAlong nodeAt nodeCount nodeEval inOrder].
    + destruct (IH l x Hl Hx) as [Hperm [_ [_ Hat]]].
      split; [| split; [reflexivity | split; [reflexivity | exact Hat]]].
      change (x :: ?a ++ ?b) with ((x :: a) ++ b).
      apply Permutation_app_tail. exact Hperm.
    + destruct (IH r x Hr Hx) as [Hperm [_ [_ Hat]]].
      split; [| split; [reflexivity | split; [reflexivity | exact Hat]]].
      apply Permutation_trans with (inOrder l ++ (x :: inOrder (removeAlong r p v)) ++ [y]).
      * cbn [app]. apply Permutation_cons_app. apply Permutation_refl.
      * apply Permutation_app_head. apply Permutation_app_tail. exact Hperm.
Qed.

(** [nodeRemove] of a node below the root, in a tree made by
    insertions alone: the shape, the counts and the entries stay; the
    node is no longer occupied, so the occupied entries are the old
    ones without its entry; the evaluation of the root goes down by the
    entry's and is again the sum over the occupied entries; the node's
    own evaluation is left as it was. *)
Theorem nodeRemove_below_root
        (root : node HostInfo) (p : list step) (x : nodeEntry HostInfo) :
  sound root -> p <> [] -> entryOf (nodeAt root p) = Some x ->
  exists root',
    nodeRemove root p = Ok root'
    /\ Permutation (x :: inOrder root') (inOrder root)
    /\ nodeCount root' = nodeCount root
    /\ nodeEval root' = nodeEval root - eval x
    /\ nodeEval root' = sumEvals (inOrder root')
    /\ nodeAt root' p = cleared (nodeAt root p).
Proof.
  intros Hs Hp Hx.
  destruct (removeAlong_spec (eval x) p root x Hs Hx) as [Hperm [Hc [He Hat]]].
  exists (removeAlong root p (eval x)).
  assert (Hrun : nodeRemove root p = Ok (removeAlong root p (eval x))).
  { unfold nodeRemove. revert Hx.
    destruct (nodeAt root p) as [| l r c o e en]; [discriminate |].
    cbn [entryOf]. intros ->. destruct p; [congruence | reflexivity]. }
  assert (Hev : nodeEval (removeAlong root p (eval x)) = nodeEval root - eval x)
    by (destruct p; [congruence | exact He]).
  split; [exact Hrun |]. split; [exact Hperm |]. split; [exact Hc |].
  split; [exact Hev |]. split; [| exact Hat].
  rewrite Hev, (sound_eval root Hs), <- (sumEvals_perm _ _ Hperm).
  cbn [sumEvals fold_right]. unfold sumEvals. lia.
Qed.

End HostTreeFacts.

Definition demoEntries : list (nodeEntry Z) :=
  [mkNodeEntry 1 5; mkNodeEntry 2 3; mkNodeEntry 3 4].

Definition demoTree : node Z :=
  Node (newNode (mkNodeEntry 2 3)) (newNode (mkNodeEntry 3 4)) 3 true 12
       (Some (mkNodeEntry 1 5)).

Lemma demoTree_sound : sound demoTree.
Proof.
  cbn. split; [reflexivity |]. split; [exists (mkNodeEntry 1 5); split; reflexivity |].
  split; [reflexivity |]. split; [lia |].
  split; apply sound_newNode.
Qed.

Lemma nodeInsert_keeps_sound_witness :
  exists p n',
    nodeInsert demoTree true (mkNodeEntry 4 2) = Ok (1, p, n')
    /\ sound n'
    /\ nodeCount n' = nodeCount demoTree + 1
    /\ nodeEval n' = nodeEval demoTree + 2
    /\ nodeAt n' p = newNode (mkNodeEntry 4 2)
    /\ Permutation (inOrder n') (mkNodeEntry 4 2 :: inOrder demoTree).
Proof.
  apply (nodeInsert_keeps_sound demoTree true (mkNodeEntry 4 2)).
  - exact demoTree_sound.
  - discriminate.
  - reflexivity.
Defined.

Lemma insertAll_builds_balanced_tree_witness :
  exists root,
    insertAll (Node nilNode nilNode 1 false 0 None) demoEntries = Ok root
    /\ sound root
    /\ nodeCount root = 3
    /\ nodeEval root = sumEvals demoEntries
    /\ Permutation (inOrder root) demoEntries
    /\ 2 ^ (depth root - 1) <= 3.
Proof.
  apply (insertAll_builds_balanced_tree demoEntries 0 None).
  - discriminate.
  - reflexivity.
Defined.

Lemma nodeWithEval_selects_by_weight_witness :
  exists m entry,
    nodeWithEval demoTree 4 = Ok m
    /\ entryOf m = Some entry
    /\ pick (inOrder demoTree) 4 = Some entry.
Proof.
  apply (nodeWithEval_selects_by_weight demoTree 4).
  - exact demoTree_sound.
  - discriminate.
  - repeat constructor; cbn; lia.
  - cbn. lia.
Defined.

Lemma nodeWithEval_fails_only_above_witness :
  (nodeEval demoTree < 13 -> nodeWithEval demoTree 13 = Err ErrEvaluationTooLarge)
  /\ (13 <= nodeEval demoTree ->
      exists m entry, nodeWithEval demoTree 13 = Ok m /\ entryOf m = Some entry).
Proof.
  apply (nodeWithEval_fails_only_above demoTree 13).
  - exact demoTree_sound.
  - discriminate.
Defined.

Lemma nodeRemove_below_root_witness :
  exists root',
    nodeRemove demoTree [goRight] = Ok root'
    /\ Permutation (mkNodeEntry 3 4 :: inOrder root') (inOrder demoTree)
    /\ nodeCount root' = nodeCount demoTree
    /\ nodeEval root' = nodeEval demoTree - 4
    /\ nodeEval root' = sumEvals (inOrder root')
    /\ nodeAt root' [goRight] = cleared (nodeAt demoTree [goRight]).
Proof.
  apply (nodeRemove_below_root demoTree [goRight] (mkNodeEntry 3 4)).
  - exact demoTree_sound.
  - discriminate.
  - reflexivity.
Defined.
